(** * FSM-Tinkerer: subset construction, trie building and DAFSA minimisation

    A shallow embedding of [JS/NFAtoDFA.js] and [JS/DAFSA.js].

    Conventions of the embedding.
    - A JavaScript string is a [string]; [for (const ch of s)] visits the
      characters of [s], each of them a one-character string.
    - A state identifier, as it sits in a [Set], an array of destinations or
      the [start] field, is an [ident]: [Some s] for the string [s] and
      [None] for [undefined] (the value of [arr[0]] on an empty array and of
      [map.get(k)] on a missing key).
    - A [Set] is the list of its members in insertion order, without
      repetition; a [Map] is an association list in insertion order; a plain
      object used as a dictionary is the [gmap] of its own properties (the
      order of its keys is never observed except through
      [Object.keys(..).sort()]).
    - A lookup that finds no own property finds [undefined], except under
      the names that [Object.prototype] defines ([inherited_names]).  Where
      the code meets one of them, the embedding says so: the step is a
      [TypeError] where the code throws one, and [Unmodelled] where the code
      goes on with a function of the engine or with a changed prototype.
    - The rendering calls ([renderAutomaton], [renderDFA], the DOM) are outside
      the embedding; of the graph only the array of nodes is.  Where a handler
      goes on according to whether the rendering throws, that is an argument
      of the handler ([surroundings]). *)

From Stdlib Require Import Ascii String.
From stdpp Require Import base decidable option list sorting gmap strings pretty.

Set Warnings "-clear-no-such-hyp".



(** ** JavaScript values and containers *)

Abbreviation ident := (option string).

(** [ToPropertyKey]: the key under which [obj[q]] is looked up. *)
Definition propKey (q : ident) : string := default "undefined" q.

(** Truthiness of an identifier: [undefined] and the empty string are falsy. *)
Definition truthy (q : ident) : bool :=
  match q with
  | Some s => negb (bool_decide (s = ""))
  | None => false
  end.

(** The element conversion of [Array.prototype.join]: [undefined] is printed
    as the empty string. *)
Definition joinStr (q : ident) : string := default "" q.

(** [arr.join(sep)]. *)
Definition join (sep : string) (arr : list ident) : string :=
  String.concat sep (joinStr <$> arr).

(** The order of [Array.prototype.sort()] without a comparator: strings by
    their code units, [undefined] after every string. *)
Definition ident_le (x y : ident) : Prop :=
  match x, y with
  | Some a, Some b => String.le a b
  | Some _, None => True
  | None, Some _ => False
  | None, None => True
  end.

Global Instance ident_le_dec : RelDecision ident_le.
Proof. intros [a|] [b|]; simpl; apply _. Defined.

(** [arr.sort()]. *)
Definition sort (arr : list ident) : list ident := merge_sort ident_le arr.

(** The characters of a string, as [for (const ch of s)] yields them. *)
Fixpoint chars (s : string) : list string :=
  match s with
  | EmptyString => []
  | String c r => String c EmptyString :: chars r
  end.

Section JsSet.
Context {A : Type} `{EqDecision A}.

(** [set.add(x)]. *)
Definition set_add (x : A) (s : list A) : list A :=
  if decide (x ∈ s) then s else s ++ [x].

(** [for (const x of xs) set.add(x)]. *)
Definition set_add_all (xs : list A) (s : list A) : list A :=
  foldl (λ acc x, set_add x acc) s xs.

(** [new Set(xs)]. *)
Definition new_Set (xs : list A) : list A := set_add_all xs [].

(** [set.has(x)]. *)
Definition set_has (x : A) (s : list A) : bool := bool_decide (x ∈ s).
End JsSet.

Section JsMap.
Context {K V : Type} `{EqDecision K}.

(** [map.get(k)]. *)
Fixpoint map_get (k : K) (m : list (K * V)) : option V :=
  match m with
  | [] => None
  | (k', v) :: r => if decide (k = k') then Some v else map_get k r
  end.

(** [map.has(k)]. *)
Definition map_has (k : K) (m : list (K * V)) : bool :=
  bool_decide (is_Some (map_get k m)).

(** [map.set(k, v)]: a present key keeps its place, a new key goes last. *)
Fixpoint map_set (k : K) (v : V) (m : list (K * V)) : list (K * V) :=
  match m with
  | [] => [(k, v)]
  | (k', v') :: r =>
      if decide (k = k') then (k, v) :: r else (k', v') :: map_set k v r
  end.

(** [[...map.keys()]] and [[...map.values()]]. *)
Definition map_keys (m : list (K * V)) : list K := m.*1.
Definition map_values (m : list (K * V)) : list V := m.*2.
End JsMap.

(** ** Plain objects *)

(** The names under which a plain object that has no such property of its own
    finds one of [Object.prototype]: for these names [obj[k]] is not
    [undefined] but a method shared by all objects or, under ["__proto__"],
    the prototype itself. *)
Definition inherited_names : list string :=
  ["constructor"; "hasOwnProperty"; "isPrototypeOf"; "propertyIsEnumerable";
   "toLocaleString"; "toString"; "valueOf"; "__proto__";
   "__defineGetter__"; "__defineSetter__"; "__lookupGetter__";
   "__lookupSetter__"].

Definition inherited (k : string) : bool := bool_decide (k ∈ inherited_names).

(** How a piece of code that reads and writes plain objects ends: it goes on
    with a value, it throws a [TypeError], or it leaves what the embedding
    follows (it uses an inherited property that is a function of the engine,
    an assignment changes a prototype, or a loop runs for more rounds than
    are followed). *)
Inductive outcome (A : Type) : Type :=
  | Returns (a : A)
  | Throws
  | Unmodelled.

Arguments Returns {A} a.
Arguments Throws {A}.
Arguments Unmodelled {A}.

Global Instance outcome_ret : MRet outcome := @Returns.

Global Instance outcome_bind : MBind outcome := λ A B f x,
  match x with
  | Returns a => f a
  | Throws => Throws
  | Unmodelled => Unmodelled
  end.

(** ** The automaton object *)

Record Automaton := {
  states : list string;
  alphabet : list string;
  start : ident;
  accept : list string;
  transitions : gmap string (gmap string (list ident))
}.

(** [arr.includes(q)] / [new Set(arr).has(q)] for an array of strings. *)
Definition includes (q : ident) (arr : list string) : bool :=
  bool_decide (q ∈ (Some <$> arr)).

(** [((transitions || {})[q] || {})[ch] || []]. *)
Definition moves_of (tr : gmap string (gmap string (list ident)))
    (q : ident) (ch : string) : list ident :=
  default [] (tr !! propKey q ≫= (.!! ch)).

(** The union of the moves of the members of [S] on [ch]:
    [const T = new Set(); for (const q of S) for (const t of moves) T.add(t)]. *)
Definition move_set (tr : gmap string (gmap string (list ident)))
    (S : list ident) (ch : string) : list ident :=
  foldl (λ T q, set_add_all (moves_of tr q ch) T) [] S.

(** The first character of the input that is not in the alphabet. *)
Fixpoint first_foreign (alpha : list string) (cs : list string) : option string :=
  match cs with
  | [] => None
  | ch :: r => if set_has ch alpha then first_foreign alpha r else Some ch
  end.

(** The result of a test: [{ accepted, reason }]. *)
Record verdict := { accepted : bool; reason : string }.

Definition not_in_alphabet (ch : string) : verdict :=
  {| accepted := false; reason := "Symbol '" +:+ ch +:+ "' not in alphabet" |}.

(** ** Text input *)

(** The white space that [String.prototype.trim] removes, among the
    characters of the embedding (the code units below 256): tab, line feed,
    vertical tab, form feed, carriage return, space and no-break space. *)
Definition is_space (c : ascii) : bool :=
  bool_decide (nat_of_ascii c ∈ [9; 10; 11; 12; 13; 32; 160]).

(** The string without the white space at its beginning. *)
Fixpoint trimStart (s : string) : string :=
  match s with
  | EmptyString => EmptyString
  | String c r => if is_space c then trimStart r else s
  end.

(** The string without the white space at its end. *)
Fixpoint trimEnd (s : string) : string :=
  match s with
  | EmptyString => EmptyString
  | String c r =>
      match trimEnd r with
      | EmptyString => if is_space c then EmptyString else String c EmptyString
      | r' => String c r'
      end
  end.

(** [s.trim()]. *)
Definition trim (s : string) : string := trimEnd (trimStart s).

(** ** The nodes handed to vis-network *)

(** An item of the array that [buildNodes] fills.  A field that an item
    does not have is [None]. *)
Record vis_node := {
  vis_id : string;
  vis_label : string;
  vis_shape : string;
  vis_borderWidth : option nat;
  vis_background : string;
  vis_border : string;
  vis_font : option (string * nat);          (* face, size *)
  vis_size : option nat;
  vis_physics : option bool;
  vis_hidden : option bool
}.

(** The circle drawn for the state [s]: a green border for an accept state,
    a red one otherwise. *)
Definition state_node (s : string) (isAccept : bool) : vis_node :=
  {| vis_id := s;
     vis_label := s;
     vis_shape := "circle";
     vis_borderWidth := Some 2;
     vis_background := "#ffffff";
     vis_border := if isAccept then "#2e7d32" else "#b63b3b";
     vis_font := Some ("Inter, system-ui, sans-serif", 14);
     vis_size := None;
     vis_physics := None;
     vis_hidden := None |}.

(** The small dot from which the start arrow leaves. *)
Definition start_marker (hidden : option bool) : vis_node :=
  {| vis_id := "__start";
     vis_label := "";
     vis_shape := "dot";
     vis_borderWidth := None;
     vis_background := "#aaaaaa";
     vis_border := "#666";
     vis_font := None;
     vis_size := Some 5;
     vis_physics := Some true;
     vis_hidden := hidden |}.

(** ** NFAtoDFA.js *)

Module NFAtoDFA.

(** The simulation loop of [accepts]: [None] is the dead configuration. *)
Fixpoint run (tr : gmap string (gmap string (list ident)))
    (current : list ident) (cs : list string) : option (list ident) :=
  match cs with
  | [] => Some current
  | ch :: r =>
      let next := move_set tr current ch in
      if bool_decide (length next = 0) then None else run tr next r
  end.

Definition accepts (a : Automaton) (inputStr : string) : verdict :=
  let alpha := new_Set (alphabet a) in
  match first_foreign alpha (chars inputStr) with
  | Some ch => not_in_alphabet ch
  | None =>
      if negb (truthy (start a)) then
        {| accepted := false; reason := "No start state" |}
      else
        match run (transitions a) (new_Set [start a]) (chars inputStr) with
        | None => {| accepted := false; reason := "Dead configuration" |}
        | Some current =>
            let acceptSet := new_Set (accept a) in
            let ok := existsb (λ s, includes s acceptSet) current in
            {| accepted := ok;
               reason := if ok then "Reached an accept state"
                         else "No accept state reached" |}
        end
  end.

(** *** Subset construction *)

(** [keyOf]: the members, sorted and joined with commas. *)
Definition keyOf (set : list ident) : string := join "," (sort set).

(** The variables of [nfaToDfa] that the [while] loop updates. *)
Record conv := {
  statesMap : list (string * list ident);
  stack : list (list ident);          (* top of the stack first *)
  dfaTransitions : gmap string (gmap string (list ident))
}.

(** [const moves = (((nfa.transitions || {})[q] || {})[sym]) || []], up to
    the start of [for (const t of moves)].  The table and its rows are plain
    objects.  A row or an entry that the object has of its own is taken.
    Where the row has no entry for [sym], or the table no row for [q], the
    lookup answers [undefined] unless the name is inherited:
    - an inherited [sym] is looked up in a row (or in the [{}] standing for a
      missing row): [moves] is a method or [Object.prototype], which is
      truthy and not iterable, and the [for] throws;
    - an inherited [q] makes the row a method or [Object.prototype]; for
      [q = "constructor"] and [sym = "length"] the row is the function
      [Object] and [moves] the number 1, on which the [for] throws; what the
      other lookups in a method find is not followed. *)
Definition moves (tr : gmap string (gmap string (list ident)))
    (q : ident) (sym : string) : outcome (list ident) :=
  match tr !! propKey q with
  | Some row =>
      match row !! sym with
      | Some arr => Returns arr
      | None => if inherited sym then Throws else Returns []
      end
  | None =>
      if inherited (propKey q) then
        if bool_decide (propKey q = "constructor" ∧ sym = "length") then Throws
        else Unmodelled
      else if inherited sym then Throws else Returns []
  end.

(** [for (const q of S) { const moves = ..; for (const t of moves) T.add(t) }],
    from the set [T] filled so far. *)
Fixpoint collect (tr : gmap string (gmap string (list ident)))
    (sym : string) (T : list ident) (S : list ident) : outcome (list ident) :=
  match S with
  | [] => Returns T
  | q :: r => ms ← moves tr q sym; collect tr sym (set_add_all ms T) r
  end.

(** One round of [for (const sym of alphabet)] for the popped subset [S].
    The row [dfaTransitions[Skey]] is an own property, [pop_expand] has made
    it.  The assignment [dfaTransitions[Skey][sym] = ..] adds or replaces an
    own property of the row, except for [sym = "__proto__"], where it would
    make the array the prototype of the row. *)
Definition expand (nfa : Automaton) (S : list ident) (Skey : string)
    (c : conv) (sym : string) : outcome conv :=
  T ← collect (transitions nfa) sym [] S;
  let Tkey := keyOf T in
  let size := length T in
  let row := default ∅ (dfaTransitions c !! Skey) in
  let entry := if bool_decide (size = 0) then [] else [Some Tkey] in
  let tr := <[Skey := <[sym := entry]> row]> (dfaTransitions c) in
  if bool_decide (sym = "__proto__") then Unmodelled
  else if negb (bool_decide (size = 0)) && negb (map_has Tkey (statesMap c)) then
    Returns {| statesMap := map_set Tkey T (statesMap c);
               stack := T :: stack c;
               dfaTransitions := tr |}
  else
    Returns {| statesMap := statesMap c; stack := stack c; dfaTransitions := tr |}.

(** [dfaTransitions[Skey] = dfaTransitions[Skey] || {}]: the table with a row
    under [Skey].  [None] when the table has no property [Skey] of its own
    and inherits one: what the assignment stores is then the inherited method
    or prototype, not a row. *)
Definition ensure_row (Skey : string)
    (tr : gmap string (gmap string (list ident))) :
    option (gmap string (gmap string (list ident))) :=
  match tr !! Skey with
  | Some _ => Some tr
  | None => if inherited Skey then None else Some (<[Skey := ∅]> tr)
  end.

(** The body of [while (stack.length)], for the subset [S] on top.  Where
    [dfaTransitions[Skey]] is an inherited object, the first round reads the
    moves as every round does, and its assignment, if the round gets there,
    adds a property to an object that all objects of the page share. *)
Definition pop_expand (nfa : Automaton) (S : list ident)
    (rest : list (list ident)) (c : conv) : outcome conv :=
  let Skey := keyOf S in
  match ensure_row Skey (dfaTransitions c) with
  | Some tr =>
      foldl (λ oc sym, c' ← oc; expand nfa S Skey c' sym)
        (Returns {| statesMap := statesMap c; stack := rest; dfaTransitions := tr |})
        (alphabet nfa)
  | None =>
      match alphabet nfa with
      | [] => Unmodelled
      | sym :: _ => collect (transitions nfa) sym [] S ≫= λ _, Unmodelled
      end
  end.

(** [while (stack.length) { ... }], followed for at most [fuel] rounds. *)
Fixpoint while_stack (fuel : nat) (nfa : Automaton) (c : conv) : outcome conv :=
  match stack c with
  | [] => Returns c
  | top :: rest =>
      match fuel with
      | O => Unmodelled
      | Datatypes.S fuel' => c' ← pop_expand nfa top rest c; while_stack fuel' nfa c'
      end
  end.

(** The keys of the subsets that meet the accept states of the NFA. *)
Definition dfa_accept (nfaAccept : list string)
    (statesMap : list (string * list ident)) : list string :=
  new_Set (map_keys (filter (λ kv, existsb (λ s, includes s nfaAccept) kv.2) statesMap)).

Definition nfaToDfa_fuel (fuel : nat) (nfa : Automaton) : outcome Automaton :=
  let startSet := new_Set [start nfa] in
  let startKey := keyOf startSet in
  c ← while_stack fuel nfa
        {| statesMap := map_set startKey startSet [];
           stack := [startSet];
           dfaTransitions := ∅ |};
  Returns {| states := map_keys (statesMap c);
             alphabet := alphabet nfa;
             start := Some startKey;
             accept := dfa_accept (new_Set (accept nfa)) (statesMap c);
             transitions := dfaTransitions c |}.

(** Every identifier a subset can hold: the start state and the destinations
    of the transition table. *)
Definition universe (nfa : Automaton) : list ident :=
  start nfa :: (map_to_list (transitions nfa)).*2 ≫= (λ row, (map_to_list row).*2 ≫= id).

(** How a call of [nfaToDfa] ends.  The loop pops one subset per round and
    every subset is pushed once, under a key of its own: no more rounds than
    subsets of the universe. *)
Definition nfaToDfa_outcome (nfa : Automaton) : outcome Automaton :=
  nfaToDfa_fuel (2 ^ length (remove_dups (universe nfa))) nfa.

(** The automaton that [nfaToDfa] returns, when it returns one. *)
Definition nfaToDfa (nfa : Automaton) : option Automaton :=
  match nfaToDfa_outcome nfa with
  | Returns dfa => Some dfa
  | _ => None
  end.

(** *** The loop on own properties *)

(** The loop of [nfaToDfa] as it runs when every lookup finds an own property
    or [undefined]: the tables are then the finite maps of their own
    properties. *)
Definition expand_own (nfa : Automaton) (S : list ident) (Skey : string)
    (c : conv) (sym : string) : conv :=
  let T := move_set (transitions nfa) S sym in
  let Tkey := keyOf T in
  let size := length T in
  let row := default ∅ (dfaTransitions c !! Skey) in
  let entry := if bool_decide (size = 0) then [] else [Some Tkey] in
  let tr := <[Skey := <[sym := entry]> row]> (dfaTransitions c) in
  if negb (bool_decide (size = 0)) && negb (map_has Tkey (statesMap c)) then
    {| statesMap := map_set Tkey T (statesMap c);
       stack := T :: stack c;
       dfaTransitions := tr |}
  else
    {| statesMap := statesMap c; stack := stack c; dfaTransitions := tr |}.

Definition ensure_row_own (Skey : string)
    (tr : gmap string (gmap string (list ident))) :
    gmap string (gmap string (list ident)) :=
  match tr !! Skey with
  | Some _ => tr
  | None => <[Skey := ∅]> tr
  end.

Definition pop_expand_own (nfa : Automaton) (S : list ident)
    (rest : list (list ident)) (c : conv) : conv :=
  let Skey := keyOf S in
  foldl (expand_own nfa S Skey)
    {| statesMap := statesMap c;
       stack := rest;
       dfaTransitions := ensure_row_own Skey (dfaTransitions c) |}
    (alphabet nfa).

Fixpoint while_stack_own (fuel : nat) (nfa : Automaton) (c : conv) : option conv :=
  match stack c with
  | [] => Some c
  | top :: rest =>
      match fuel with
      | O => None
      | Datatypes.S fuel' => while_stack_own fuel' nfa (pop_expand_own nfa top rest c)
      end
  end.

Definition nfaToDfa_fuel_own (fuel : nat) (nfa : Automaton) : option Automaton :=
  let startSet := new_Set [start nfa] in
  let startKey := keyOf startSet in
  c ← while_stack_own fuel nfa
        {| statesMap := map_set startKey startSet [];
           stack := [startSet];
           dfaTransitions := ∅ |};
  Some {| states := map_keys (statesMap c);
          alphabet := alphabet nfa;
          start := Some startKey;
          accept := dfa_accept (new_Set (accept nfa)) (statesMap c);
          transitions := dfaTransitions c |}.

Definition nfaToDfa_own (nfa : Automaton) : option Automaton :=
  nfaToDfa_fuel_own (2 ^ length (remove_dups (universe nfa))) nfa.

(** *** The file loader *)

(** A parsed JSON text. *)
Local Unset Elimination Schemes.
Inductive json :=
  | JNull
  | JBool (b : bool)
  | JNum (n : Z)
  | JStr (s : string)
  | JArr (items : list json)
  | JObj (fields : list (string * json)).
Local Set Elimination Schemes.

(** [k in obj] for a parsed object. *)
Definition has_key (k : string) (fields : list (string * json)) : bool :=
  map_has k fields.

(** [Array.isArray(obj[k])]. *)
Definition is_array (k : string) (fields : list (string * json)) : bool :=
  match map_get k fields with
  | Some (JArr _) => true
  | _ => false
  end.

Definition required : list string :=
  ["states"; "alphabet"; "start"; "accept"; "transitions"].

Definition missing_key (k : string) : string := "Missing key '" +:+ k +:+ "'".
Definition not_arrays : string := "states, alphabet, and accept must be arrays".
Definition epsilon_unsupported : string := "Epsilon transitions are not supported.".

(** What the surroundings of the page answer during one click on [loadBtn]:
    the message of the [TypeError] that [k in obj] throws when [obj] is no
    object (every engine words it in its own way), and the message of the
    error with which [renderAutomaton(automaton)] ends, if it throws
    ([buildEdges] calls [forEach] on every truthy transition entry, an array
    or not, and vis-network has checks of its own). *)
Record surroundings := {
  in_error : string;
  render_error : option string
}.

(** The checks of the [try] block, in their order: the message of the error
    thrown, if any.  [k in obj] is false for every required key of an array and
    throws a [TypeError] on a value that is not an object. *)
Definition validate (env : surroundings) (obj : json) : option string :=
  match obj with
  | JObj fields =>
      match List.find (λ k, negb (has_key k fields)) required with
      | Some k => Some (missing_key k)
      | None =>
          if negb (is_array "states" fields && is_array "alphabet" fields
                   && is_array "accept" fields)
          then Some not_arrays
          else if has_key "epsilon" fields then Some epsilon_unsupported
          else None
      end
  | JArr _ => Some (missing_key "states")
  | _ => Some (in_error env)
  end.

(** The page's variables: the current automaton, the kept original, and
    whether [setLoadedUI] left the controls enabled. *)
Record page := {
  automaton : option json;
  originalNFA : option json;
  loaded : bool
}.

Definition initial_page : page :=
  {| automaton := None; originalNFA := None; loaded := false |}.

(** The click handler of [loadBtn], once the file's text is parsed to [obj]:
    the new page and the message alerted, if any.  The two variables are
    assigned after the checks and before [renderAutomaton]: an error of the
    rendering is alerted like a failed check and disables the controls, with
    the new object already in both variables. *)
Definition load (env : surroundings) (p : page) (obj : json) : page * option string :=
  match validate env obj with
  | Some msg =>
      ({| automaton := automaton p; originalNFA := originalNFA p; loaded := false |},
       Some ("Failed to load automaton: " +:+ msg))
  | None =>
      match render_error env with
      | Some msg =>
          ({| automaton := Some obj; originalNFA := Some obj; loaded := false |},
           Some ("Failed to load automaton: " +:+ msg))
      | None =>
          ({| automaton := Some obj; originalNFA := Some obj; loaded := true |}, None)
      end
  end.

(** *** The graph *)

(** [buildNodes(a)]: the array handed to [vis.DataSet]. *)
Definition buildNodes (a : Automaton) : list vis_node :=
  ((λ s, state_node s (includes (Some s) (accept a))) <$> states a)
  ++ (if truthy (start a) then [start_marker (Some false)] else []).

(** *** The buttons *)

(** The click handler of [convertBtn]: the variable [automaton] after the
    click.  Without an automaton the handler returns at once; an exception of
    [nfaToDfa] is caught and leaves the variable as it was; the result of
    [nfaToDfa] is assigned before it is rendered. *)
Definition convert_click (automaton : option Automaton) : outcome (option Automaton) :=
  match automaton with
  | None => Returns None
  | Some a =>
      match nfaToDfa_outcome a with
      | Returns dfa => Returns (Some dfa)
      | Throws => Returns (Some a)
      | Unmodelled => Unmodelled
      end
  end.

(** The click handler of [testBtn] on the text [value] of the input field:
    the verdict shown, if any. *)
Definition test_click (automaton : option Automaton) (value : string) :
    option verdict :=
  match automaton with
  | None => None
  | Some a => Some (accepts a (trim value))
  end.

End NFAtoDFA.

(** ** DAFSA.js *)

Module DAFSA.

(** The parsed language file: [{ alphabet, accept }]. *)
Record language := {
  lang_alphabet : list string;
  lang_accept : list string
}.

(** What [assert] throws in [buildTrieDFA]. *)
Inductive build_error :=
  | EmptyAlphabet                        (* alphabet must be a non-empty array *)
  | ForeignSymbol (w ch : string).       (* string w contains symbol ch not in alphabet *)

(** [for (const w of accept) for (const ch of w) assert(alpha.has(ch), ..)]. *)
Fixpoint check_words (alpha : list string) (ws : list string) : option build_error :=
  match ws with
  | [] => None
  | w :: r =>
      match first_foreign alpha (chars w) with
      | Some ch => Some (ForeignSymbol w ch)
      | None => check_words alpha r
      end
  end.

(** A trie node: [{ id, edges: Map(symbol -> childId), final }]. *)
Record node := {
  node_id : string;
  edges : gmap string string;
  final : bool
}.

(** The counter [nextId] and the map [nodes]. *)
Record trie := {
  nextId : nat;
  nodes : list (string * node)
}.

(** [`q${nextId++}`], for the value of the counter before the increment. *)
Definition newId (n : nat) : string := "q" +:+ pretty n.

Definition ensureNode (i : string) (nodes : list (string * node)) :
    list (string * node) :=
  if map_has i nodes then nodes
  else map_set i {| node_id := i; edges := ∅; final := false |} nodes.

(** [node.edges.set(ch, next)] on the node kept under [v]. *)
Definition set_edge (v ch next : string) (nodes : list (string * node)) :
    list (string * node) :=
  match map_get v nodes with
  | Some n =>
      map_set v {| node_id := node_id n; edges := <[ch := next]> (edges n);
                   final := final n |} nodes
  | None => nodes
  end.

(** [nodes.get(v).final = true]. *)
Definition set_final (v : string) (nodes : list (string * node)) :
    list (string * node) :=
  match map_get v nodes with
  | Some n =>
      map_set v {| node_id := node_id n; edges := edges n; final := true |} nodes
  | None => nodes
  end.

(** The body of [for (const ch of w)]: from the node [v] to its child on [ch],
    made if there is none. *)
Definition insert_char (st : trie * string) (ch : string) : trie * string :=
  let '(t, v) := st in
  let nodes1 := ensureNode v (nodes t) in
  let found := (edges <$> map_get v nodes1) ≫= (.!! ch) in
  let fresh := negb (truthy found) in          (* node.edges.get(ch) || newId() *)
  let next := if fresh then newId (nextId t) else default "" found in
  let nodes2 :=
    if bool_decide (found = None) then set_edge v ch next nodes1 else nodes1 in
  ({| nextId := if fresh then S (nextId t) else nextId t;
      nodes := ensureNode next nodes2 |}, next).

(** The body of [for (const w of accept)]. *)
Definition insert_word (start : string) (t : trie) (w : string) : trie :=
  let '(t', v) := foldl insert_char (t, start) (chars w) in
  {| nextId := nextId t'; nodes := set_final v (nodes t') |}.

(** The object built from the nodes at the end of [buildTrieDFA]. *)
Definition trie_transitions (ns : list node) : gmap string (gmap string (list ident)) :=
  foldl (λ tr n, <[node_id n := (λ to, [Some to]) <$> edges n]> tr) ∅ ns.

Definition buildTrieDFA (L : language) : build_error + Automaton :=
  if bool_decide (length (lang_alphabet L) = 0) then inl EmptyAlphabet
  else
    let alpha := new_Set (lang_alphabet L) in
    match check_words alpha (lang_accept L) with
    | Some e => inl e
    | None =>
        let start := newId 0 in
        let t := foldl (insert_word start)
                   {| nextId := 1; nodes := ensureNode start [] |}
                   (lang_accept L) in
        inr {| alphabet := alpha;
               states := map_keys (nodes t);
               start := Some start;
               accept := node_id <$> filter (λ n, final n = true) (map_values (nodes t));
               transitions := trie_transitions (map_values (nodes t)) |}
    end.

(** *** Minimisation *)

(** [arr[0]] (also [arr?.[0]] on a defined array). *)
Definition first_dest (arr : list ident) : ident := default None (head arr).

(** [for (const a of syms) parts.push(a + ">" + sig(dest))], with the memo
    table handed from call to call. *)
Fixpoint sig_parts (sig : ident → gmap ident string → option (string * gmap ident string))
    (edges : gmap string (list ident)) (syms : list string)
    (memo : gmap ident string) : option (list string * gmap ident string) :=
  match syms with
  | [] => Some ([], memo)
  | a :: r =>
      '(sg, memo1) ← sig (first_dest (default [] (edges !! a))) memo;
      '(parts, memo2) ← sig_parts sig edges r memo1;
      Some ((a +:+ ">" +:+ sg) :: parts, memo2)
  end.

(** [Object.keys(edges).sort()]. *)
Definition sorted_keys (edges : gmap string (list ident)) : list string :=
  merge_sort String.le (map_to_list edges).*1.

(** [sig(s)], to a call depth of at most [fuel]: the signature and the memo
    table after the call. *)
Fixpoint sig_fuel (fuel : nat) (dfa : Automaton) (s : ident)
    (memo : gmap ident string) : option (string * gmap ident string) :=
  match fuel with
  | O => None
  | S fuel' =>
      match memo !! s with
      | Some sg => Some (sg, memo)
      | None =>
          let edges := default ∅ (transitions dfa !! propKey s) in
          '(parts, memo') ← sig_parts (sig_fuel fuel' dfa) edges (sorted_keys edges) memo;
          let isFinal := if includes s (accept dfa) then "1" else "0" in
          let signature := isFinal +:+ "|" +:+ String.concat "," parts in
          Some (signature, <[s := signature]> memo')
      end
  end.

(** [dfa.states.forEach(sig)]. *)
Fixpoint sig_all (fuel : nat) (dfa : Automaton) (ss : list string)
    (memo : gmap ident string) : option (gmap ident string) :=
  match ss with
  | [] => Some memo
  | s :: r =>
      '(_, memo1) ← sig_fuel fuel dfa (Some s) memo;
      sig_all fuel dfa r memo1
  end.

(** [mapToRep.get(q)]. *)
Definition rep_of (mapToRep : gmap string ident) (q : ident) : ident :=
  q ≫= (λ k, default None (mapToRep !! k)).

(** The body of the loop that fills [rep] and [mapToRep]. *)
Definition assign_rep (memo : gmap ident string)
    (acc : list (ident * string) * gmap string ident) (s : string) :
    list (ident * string) * gmap string ident :=
  let '(rep, mapToRep) := acc in
  let signature := memo !! Some s in
  let rep' := if negb (map_has signature rep) then map_set signature s rep else rep in
  (rep', <[s := map_get signature rep']> mapToRep).

(** The loop that fills [newTransitions]: [newTransitions[s] = {}], then
    [newTransitions[s][a] = [mapToRep.get(dstOld)]] for the symbols of the row
    of [s].  Each assignment adds an own property, except under the key
    ["__proto__"]: there it makes the object assigned the prototype of the
    table (or of the row), which then has properties that are not its own. *)
Definition new_transitions (dfa : Automaton) (mapToRep : gmap string ident)
    (newStates : list string) : outcome (gmap string (gmap string (list ident))) :=
  foldl (λ ont s,
           nt ← ont;
           let edges := default ∅ (transitions dfa !! s) in
           if bool_decide (s = "__proto__") || bool_decide (is_Some (edges !! "__proto__"))
           then Unmodelled
           else Returns (<[s := (λ arr, [rep_of mapToRep (first_dest arr)]) <$> edges]> nt))
        (Returns ∅) newStates.

(** The call with a depth of at most [fuel] for [sig]: the automaton
    returned, if the call returns one within that depth and with a table of
    own properties. *)
Definition minimize_fuel (fuel : nat) (dfa : Automaton) : option Automaton :=
  memo ← sig_all fuel dfa (states dfa) ∅;
  let '(rep, mapToRep) := foldl (assign_rep memo) ([], ∅) (states dfa) in
  let newStatesSet := new_Set (map_values rep) in
  match new_transitions dfa mapToRep newStatesSet with
  | Returns newTransitions =>
      Some {| alphabet := alphabet dfa;
              states := newStatesSet;
              start := rep_of mapToRep (start dfa);
              accept := filter (λ s, includes (Some s) (accept dfa) = true) newStatesSet;
              transitions := newTransitions |}
  | _ => None
  end.

(** [minimizeAcyclicDFA dfa m]: the call returns [m], whose table has own
    properties only. *)
Definition minimizeAcyclicDFA (dfa m : Automaton) : Prop :=
  ∃ fuel, minimize_fuel fuel dfa = Some m.

(** *** The new table on own properties *)

(** The table that the loop fills when no state and no symbol it meets is
    named ["__proto__"]: a row for each new state. *)
Definition new_transitions_own (dfa : Automaton) (mapToRep : gmap string ident)
    (newStates : list string) : gmap string (gmap string (list ident)) :=
  foldl (λ nt s,
           <[s := (λ arr, [rep_of mapToRep (first_dest arr)])
                    <$> default ∅ (transitions dfa !! s)]> nt)
        ∅ newStates.

Definition minimize_fuel_own (fuel : nat) (dfa : Automaton) : option Automaton :=
  memo ← sig_all fuel dfa (states dfa) ∅;
  let '(rep, mapToRep) := foldl (assign_rep memo) ([], ∅) (states dfa) in
  let newStatesSet := new_Set (map_values rep) in
  Some {| alphabet := alphabet dfa;
          states := newStatesSet;
          start := rep_of mapToRep (start dfa);
          accept := filter (λ s, includes (Some s) (accept dfa) = true) newStatesSet;
          transitions := new_transitions_own dfa mapToRep newStatesSet |}.

Definition minimizeAcyclicDFA_own (dfa m : Automaton) : Prop :=
  ∃ fuel, minimize_fuel_own fuel dfa = Some m.

(** *** Testing membership *)

Fixpoint run (dfa : Automaton) (s : ident) (cs : list string) : verdict :=
  match cs with
  | [] =>
      let ok := includes s (accept dfa) in
      {| accepted := ok;
         reason := if ok then "Reached an accept state"
                   else "Stopped in non-accepting state" |}
  | ch :: r =>
      match transitions dfa !! propKey s ≫= (.!! ch) with
      | Some (t :: _) => run dfa t r
      | _ => {| accepted := false; reason := "No transition" |}
      end
  end.

Definition accepts (dfa : Automaton) (inputStr : string) : verdict :=
  let alpha := new_Set (alphabet dfa) in
  match first_foreign alpha (chars inputStr) with
  | Some ch => not_in_alphabet ch
  | None => run dfa (start dfa) (chars inputStr)
  end.

(** *** The graph *)

(** [buildNodes(dfa)]: the array handed to [vis.DataSet]. *)
Definition buildNodes (dfa : Automaton) : list vis_node :=
  ((λ s, state_node s (includes (Some s) (accept dfa))) <$> states dfa)
  ++ (if truthy (start dfa) then [start_marker None] else []).

(** *** The buttons *)

(** The page's variables, and whether [setControlsEnabled] left the controls
    enabled. *)
Record page := {
  currentDFA : option Automaton;
  originalDFA : option Automaton;
  controls : bool
}.

(** The click handler of [loadLangBtn], once the file is parsed to a language
    description [L] with its two arrays: the new page and the error alerted,
    if any. *)
Definition load_click (p : page) (L : language) : page * option build_error :=
  match buildTrieDFA L with
  | inr dfa =>
      ({| currentDFA := Some dfa; originalDFA := Some dfa; controls := true |}, None)
  | inl e =>
      ({| currentDFA := currentDFA p; originalDFA := originalDFA p; controls := false |},
       Some e)
  end.

(** The click handler of [minimizeBtn]: [minimize_click p p'] when the
    handler returns and leaves the page [p']. *)
Definition minimize_click (p p' : page) : Prop :=
  match currentDFA p with
  | None => p' = p
  | Some dfa =>
      ∃ m, minimizeAcyclicDFA dfa m
           ∧ p' = {| currentDFA := Some m; originalDFA := originalDFA p;
                     controls := controls p |}
  end.

(** The click handler of [testBtn] on the text [value] of the input field:
    the verdict shown, if any. *)
Definition test_click (p : page) (value : string) : option verdict :=
  match currentDFA p with
  | None => None
  | Some dfa => Some (accepts dfa (trim value))
  end.

End DAFSA.

(** ** Properties of automata *)

(** Every transition entry holds at most one destination. *)
Definition deterministic (a : Automaton) : Prop :=
  ∀ s row ch arr,
    transitions a !! s = Some row → row !! ch = Some arr → length arr ≤ 1.

(** ** Example inputs *)

(** The automaton [nfaToDfa] makes of [ExampleNFA.json]. *)
Definition example_dfa : Automaton :=
  {| states := ["q1"; "q1,q2"];
     alphabet := ["a"; "b"];
     start := Some "q1";
     accept := ["q1,q2"];
     transitions :=
       {[ "q1" := {[ "a" := [Some "q1,q2"]; "b" := [Some "q1"] ]};
          "q1,q2" := {[ "a" := [Some "q1,q2"]; "b" := [Some "q1"] ]} ]} |}.


(** The automaton of [ExampleNFA.json]. *)
Definition example_nfa : Automaton :=
  {| states := ["q1"; "q2"];
     alphabet := ["a"; "b"];
     start := Some "q1";
     accept := ["q2"];
     transitions :=
       {[ "q1" := {[ "a" := [Some "q1"; Some "q2"]; "b" := [Some "q1"] ]};
          "q2" := {[ "b" := [Some "q1"] ]} ]} |}.

(** An automaton whose start state is named by the empty string. *)
Definition empty_name_dfa : Automaton :=
  {| states := [""];
     alphabet := ["a"];
     start := Some "";
     accept := [""];
     transitions := ∅ |}.

(** [ExampleNFA.json], parsed, and the same with an [epsilon] key. *)
Definition example_fields : list (string * NFAtoDFA.json) :=
  [("states", NFAtoDFA.JArr [NFAtoDFA.JStr "q1"; NFAtoDFA.JStr "q2"]);
   ("alphabet", NFAtoDFA.JArr [NFAtoDFA.JStr "a"; NFAtoDFA.JStr "b"]);
   ("start", NFAtoDFA.JStr "q1");
   ("accept", NFAtoDFA.JArr [NFAtoDFA.JStr "q2"]);
   ("transitions",
    NFAtoDFA.JObj
      [("q1", NFAtoDFA.JObj [("a", NFAtoDFA.JArr [NFAtoDFA.JStr "q1"; NFAtoDFA.JStr "q2"]);
                             ("b", NFAtoDFA.JArr [NFAtoDFA.JStr "q1"])]);
       ("q2", NFAtoDFA.JObj [("b", NFAtoDFA.JArr [NFAtoDFA.JStr "q1"])])])].

Definition example_json : NFAtoDFA.json := NFAtoDFA.JObj example_fields.

Definition epsilon_fields : list (string * NFAtoDFA.json) :=
  example_fields ++ [("epsilon", NFAtoDFA.JObj [])].

Definition epsilon_json : NFAtoDFA.json := NFAtoDFA.JObj epsilon_fields.

(** A definition whose only [epsilon] key is a symbol in the row of [q1]. *)
Definition epsilon_row_json : NFAtoDFA.json :=
  NFAtoDFA.JObj
    [("states", NFAtoDFA.JArr [NFAtoDFA.JStr "q1"]);
     ("alphabet", NFAtoDFA.JArr [NFAtoDFA.JStr "a"]);
     ("start", NFAtoDFA.JStr "q1");
     ("accept", NFAtoDFA.JArr [NFAtoDFA.JStr "q1"]);
     ("transitions",
      NFAtoDFA.JObj
        [("q1", NFAtoDFA.JObj [("epsilon", NFAtoDFA.JArr [NFAtoDFA.JStr "q1"])])])].

(** The value found in a parsed text along a path of keys. *)
Fixpoint json_at (path : list string) (v : NFAtoDFA.json) : option NFAtoDFA.json :=
  match path with
  | [] => Some v
  | k :: r =>
      match v with
      | NFAtoDFA.JObj fields => map_get k fields ≫= json_at r
      | _ => None
      end
  end.

(** A click during which the rendering returns. *)
Definition rendering : NFAtoDFA.surroundings :=
  {| NFAtoDFA.in_error := "Cannot use 'in' operator";
     NFAtoDFA.render_error := None |}.

(** The message of the first check that fails on a parsed object: the first
    required key that is missing, in the order of [required]; with all of
    them present, the arrays message; with the three arrays, the epsilon
    message. *)
Definition first_failure (fields : list (string * NFAtoDFA.json)) (msg : string) : Prop :=
  (∃ before k after,
     NFAtoDFA.required = before ++ k :: after
     ∧ (∀ k', k' ∈ before → NFAtoDFA.has_key k' fields = true)
     ∧ NFAtoDFA.has_key k fields = false
     ∧ msg = NFAtoDFA.missing_key k)
  ∨ ((∀ k, k ∈ NFAtoDFA.required → NFAtoDFA.has_key k fields = true)
     ∧ (NFAtoDFA.is_array "states" fields && NFAtoDFA.is_array "alphabet" fields
        && NFAtoDFA.is_array "accept" fields = false
        ∧ msg = NFAtoDFA.not_arrays
        ∨ NFAtoDFA.is_array "states" fields && NFAtoDFA.is_array "alphabet" fields
          && NFAtoDFA.is_array "accept" fields = true
          ∧ NFAtoDFA.has_key "epsilon" fields = true
          ∧ msg = NFAtoDFA.epsilon_unsupported)).


(** Only an [epsilon] key: the required keys are missing. *)
Definition bare_epsilon_json : NFAtoDFA.json :=
  NFAtoDFA.JObj [("epsilon", NFAtoDFA.JObj [])].

(** An NFA with a state whose name holds a comma: the subsets [{"a,b"}] and
    [{"a", "b"}] are both reachable from the start state. *)
Definition comma_nfa : Automaton :=
  {| states := ["s"; "a,b"; "a"; "b"];
     alphabet := ["x"; "y"];
     start := Some "s";
     accept := ["a"];
     transitions :=
       {[ "s" := {[ "x" := [Some "a,b"]; "y" := [Some "a"; Some "b"] ]} ]} |}.

(** A finite language in which the suffixes after [x] are [ab], [ac] and the
    suffixes after [y] are [ab], [c]. *)
Definition forked_language : DAFSA.language :=
  {| DAFSA.lang_alphabet := ["a"; "b"; "c"; "x"; "y"];
     DAFSA.lang_accept := ["xab"; "xac"; "yab"; "yc"] |}.

(** ** The bound on the rounds of the subset construction *)

(** The sublists of a list: the subsets of a list without repetition. *)
Fixpoint sublists {A : Type} (l : list A) : list (list A) :=
  match l with
  | [] => [[]]
  | x :: r => (cons x <$> sublists r) ++ sublists r
  end.

(** The keys a subset of the universe can have. *)
Definition subset_keys (nfa : Automaton) : list string :=
  NFAtoDFA.keyOf <$> sublists (remove_dups (NFAtoDFA.universe nfa)).

(** What the [while] loop of [nfaToDfa] keeps true. *)
Record conv_ok (nfa : Automaton) (c : NFAtoDFA.conv) : Prop := {
  ok_keys_nodup : NoDup (map_keys (NFAtoDFA.statesMap c));
  ok_keys_bound :
    ∀ k, k ∈ map_keys (NFAtoDFA.statesMap c) → k ∈ subset_keys nfa;
  ok_stack :
    ∀ S, S ∈ NFAtoDFA.stack c → NFAtoDFA.keyOf S ∈ map_keys (NFAtoDFA.statesMap c);
  ok_sources :
    ∀ s, is_Some (NFAtoDFA.dfaTransitions c !! s) →
         s ∈ map_keys (NFAtoDFA.statesMap c);
  ok_entries :
    ∀ s row ch arr,
      NFAtoDFA.dfaTransitions c !! s = Some row → row !! ch = Some arr →
      arr = [] ∨ ∃ k, arr = [Some k] ∧ k ∈ map_keys (NFAtoDFA.statesMap c)
}.

(** Referential integrity of an automaton: the start state, the accept states,
    the source and the destinations of every transition are members of
    [states]. *)
Definition referential_integrity (a : Automaton) : Prop :=
  (∃ s, start a = Some s ∧ s ∈ states a)
  ∧ (∀ s, s ∈ accept a → s ∈ states a)
  ∧ (∀ s row, transitions a !! s = Some row →
       s ∈ states a
       ∧ ∀ ch arr q, row !! ch = Some arr → q ∈ arr →
           ∃ t, q = Some t ∧ t ∈ states a).

(** The loop pushes a subset exactly when it stores it: from [c] to [c'] the
    keys are kept and the map and the stack grow by the same number. *)
Definition grows (c c' : NFAtoDFA.conv) : Prop :=
  (∀ k, k ∈ map_keys (NFAtoDFA.statesMap c) → k ∈ map_keys (NFAtoDFA.statesMap c'))
  ∧ length (NFAtoDFA.statesMap c') + length (NFAtoDFA.stack c)
    = length (NFAtoDFA.statesMap c) + length (NFAtoDFA.stack c').

(** ** The trie *)

(** The node reached from [v] along the characters [cs], if the edges exist. *)
Fixpoint walk (nodes : list (string * DAFSA.node)) (v : string)
    (cs : list string) : option string :=
  match cs with
  | [] => Some v
  | ch :: r =>
      n ← map_get v nodes;
      j ← DAFSA.edges n !! ch;
      walk nodes j r
  end.

(** The shape of the trie: the nodes are [q0 .. q(nextId-1)] in this order,
    every node is kept under its own id, and every edge leads to a node made
    after its source, whose label is the label of its source followed by the
    symbol of the edge. *)
Record trie_inv (label : string → list string) (t : DAFSA.trie) : Prop := {
  ti_keys : map_keys (DAFSA.nodes t) = DAFSA.newId <$> seq 0 (DAFSA.nextId t);
  ti_pos : 0 < DAFSA.nextId t;
  ti_id : ∀ i n, map_get i (DAFSA.nodes t) = Some n → DAFSA.node_id n = i;
  ti_edge :
    ∀ i n ch j,
      map_get i (DAFSA.nodes t) = Some n → DAFSA.edges n !! ch = Some j →
      (∃ k, k < DAFSA.nextId t ∧ j = DAFSA.newId k) ∧ label j = label i ++ [ch];
  ti_order :
    ∀ i n ch j,
      map_get i (DAFSA.nodes t) = Some n → DAFSA.edges n !! ch = Some j →
      ∃ ki kj, i = DAFSA.newId ki ∧ j = DAFSA.newId kj ∧ ki < kj;
  ti_root : label (DAFSA.newId 0) = []
}.

(** The words of the trie: a final node is labelled by an inserted word, and
    every inserted word leads from the root to a final node. *)
Definition trie_words (label : string → list string) (t : DAFSA.trie)
    (ws : list string) : Prop :=
  (∀ i n, map_get i (DAFSA.nodes t) = Some n → DAFSA.final n = true →
          ∃ w, w ∈ ws ∧ chars w = label i)
  ∧ (∀ w, w ∈ ws →
          ∃ i n, walk (DAFSA.nodes t) (DAFSA.newId 0) (chars w) = Some i
                 ∧ map_get i (DAFSA.nodes t) = Some n ∧ DAFSA.final n = true).

(** [t'] has the nodes of [t], with their edges and their marks, and the
    nodes it adds are not final. *)
Definition extends (t t' : DAFSA.trie) : Prop :=
  (∀ i n, map_get i (DAFSA.nodes t) = Some n →
          ∃ n', map_get i (DAFSA.nodes t') = Some n'
                ∧ DAFSA.final n' = DAFSA.final n
                ∧ ∀ ch j, DAFSA.edges n !! ch = Some j → DAFSA.edges n' !! ch = Some j)
  ∧ (∀ i n', map_get i (DAFSA.nodes t) = None →
             map_get i (DAFSA.nodes t') = Some n' → DAFSA.final n' = false).

(** The language of [ExampleLanguage.json]. *)
Definition example_language : DAFSA.language :=
  {| DAFSA.lang_alphabet := ["a"; "b"];
     DAFSA.lang_accept := [""; "a"; "ab"; "aabb"] |}.

(** ** The signatures of the minimiser *)

(** The signature of a state as the comment above [minimizeAcyclicDFA] defines
    it, without the memo table: [final? + sorted list of (symbol,
    signature(child))], to a depth of at most [fuel]. *)
Fixpoint signature_parts (sig : ident → option string)
    (edges : gmap string (list ident)) (syms : list string) : option (list string) :=
  match syms with
  | [] => Some []
  | a :: r =>
      sg ← sig (DAFSA.first_dest (default [] (edges !! a)));
      parts ← signature_parts sig edges r;
      Some ((a +:+ ">" +:+ sg) :: parts)
  end.

Fixpoint signature_at (fuel : nat) (dfa : Automaton) (s : ident) : option string :=
  match fuel with
  | O => None
  | S fuel' =>
      let edges := default ∅ (transitions dfa !! propKey s) in
      parts ← signature_parts (signature_at fuel' dfa) edges (DAFSA.sorted_keys edges);
      Some ((if includes s (accept dfa) then "1" else "0")
            +:+ "|" +:+ String.concat "," parts)
  end.

(** Every entry of the memo table is the signature of its state. *)
Definition memo_ok (dfa : Automaton) (memo : gmap ident string) : Prop :=
  ∀ q sg, memo !! q = Some sg → ∃ fuel, signature_at fuel dfa q = Some sg.

(** The destination the minimiser reads from an entry, [arr[0]], is a member
    of [states] whenever it is defined. *)
Definition dests_in_states (a : Automaton) : Prop :=
  ∀ s row ch arr t,
    transitions a !! s = Some row → row !! ch = Some arr →
    DAFSA.first_dest arr = Some t → t ∈ states a.

(** No transition entry is an empty array. *)
Definition no_empty_entry (a : Automaton) : Prop :=
  ∀ s row ch arr,
    transitions a !! s = Some row → row !! ch = Some arr → arr ≠ [].

(** The rank decreases along every transition. *)
Definition ranked (rank : string → nat) (a : Automaton) : Prop :=
  ∀ s row ch arr t,
    transitions a !! s = Some row → row !! ch = Some arr →
    DAFSA.first_dest arr = Some t → rank t < rank s.

(** No cycle: some rank decreases along every transition. *)
Definition acyclic (a : Automaton) : Prop := ∃ rank : string → nat, ranked rank a.

(** The tables [rep] and [mapToRep] after the states [seen]: every
    representative is a state met so far, kept under its own signature, and
    every state met so far is mapped to the representative of its signature. *)
Record reps_inv (memo : gmap ident string) (seen : list string)
    (acc : list (ident * string) * gmap string ident) : Prop := {
  ri_nodup : NoDup (map_keys acc.1);
  ri_rep : ∀ k r, map_get k acc.1 = Some r → r ∈ seen ∧ memo !! Some r = k;
  ri_map :
    ∀ s, s ∈ seen →
         ∃ r, acc.2 !! s = Some (Some r) ∧ map_get (memo !! Some s) acc.1 = Some r;
  ri_dom : ∀ s, is_Some (acc.2 !! s) → s ∈ seen
}.

(** The automaton that [minimizeAcyclicDFA] builds from the tables [rep] and
    [mapToRep]. *)
Definition minimized (dfa : Automaton) (rep : list (ident * string))
    (m2r : gmap string ident) : Automaton :=
  {| alphabet := alphabet dfa;
     states := new_Set (map_values rep);
     start := DAFSA.rep_of m2r (start dfa);
     accept := filter (λ s, includes (Some s) (accept dfa) = true)
                 (new_Set (map_values rep));
     transitions := DAFSA.new_transitions_own dfa m2r (new_Set (map_values rep)) |}.

(** A missing destination ([arr[0]] is [undefined]) is looked up under the
    key ["undefined"]: an automaton with such an entry has no row there. *)
Definition missing_dest_is_dead (a : Automaton) : Prop :=
  ∀ s row ch arr,
    transitions a !! s = Some row → row !! ch = Some arr →
    DAFSA.first_dest arr = None → transitions a !! "undefined" = None.

(** A deterministic acyclic automaton with an empty entry, as [nfaToDfa]
    writes them for a symbol without moves. *)
Definition dead_end_dfa : Automaton :=
  {| states := ["q0"];
     alphabet := ["a"];
     start := Some "q0";
     accept := [];
     transitions := {[ "q0" := {[ "a" := [] ]} ]} |}.

(** A deterministic acyclic automaton with an empty entry and a state named
    [undefined]. *)
Definition undefined_row_dfa : Automaton :=
  {| states := ["u1"; "undefined"; "f"; "p"; "p2"; "d"];
     alphabet := ["a"; "b"];
     start := Some "u1";
     accept := ["f"];
     transitions :=
       {[ "u1" := {[ "a" := [Some "f"] ]};
          "undefined" := {[ "a" := [Some "f"] ]};
          "f" := ∅;
          "p" := {[ "b" := [] ]};
          "p2" := {[ "b" := [Some "d"] ]};
          "d" := ∅ ]} |}.

(** A rank for the two automata above and for the trie of [example_language]:
    the length of the longest path from the state. *)
Definition example_rank (s : string) : nat :=
  if bool_decide (s ∈ ["q0"]) then 4
  else if bool_decide (s ∈ ["q1"]) then 3
  else if bool_decide (s ∈ ["q3"]) then 2
  else if bool_decide (s ∈ ["u1"; "undefined"; "p"; "p2"; "q4"]) then 1
  else 0.

(** The trie of [example_language]. *)
Definition example_trie : Automaton :=
  {| states := ["q0"; "q1"; "q2"; "q3"; "q4"; "q5"];
     alphabet := ["a"; "b"];
     start := Some "q0";
     accept := ["q0"; "q1"; "q2"; "q5"];
     transitions :=
       {[ "q0" := {[ "a" := [Some "q1"] ]};
          "q1" := {[ "a" := [Some "q3"]; "b" := [Some "q2"] ]};
          "q2" := ∅;
          "q3" := {[ "b" := [Some "q4"] ]};
          "q4" := {[ "b" := [Some "q5"] ]};
          "q5" := ∅ ]} |}.

(** ** The rows of the subset construction *)

(** The entry written for the subset [T]: [T.size ? [Tkey] : []]. *)
Definition entry_of (T : list ident) : list ident :=
  if bool_decide (length T = 0) then [] else [Some (NFAtoDFA.keyOf T)].

(** The row of the key [k] is written for the symbols [syms] from the moves
    of the subset [T], and the subsets it leads to are stored. *)
Definition row_done (nfa : Automaton) (sm : list (string * list ident))
    (tr : gmap string (gmap string (list ident)))
    (k : string) (T : list ident) (syms : list string) : Prop :=
  ∃ row,
    tr !! k = Some row
    ∧ ∀ sym, sym ∈ syms →
        row !! sym = Some (entry_of (move_set (transitions nfa) T sym))
        ∧ (move_set (transitions nfa) T sym ≠ [] →
           is_Some (map_get (NFAtoDFA.keyOf (move_set (transitions nfa) T sym)) sm)).

(** Every stored subset is stored under its key, and is either still on the
    stack or has its row written for the whole alphabet. *)
Record conv_sound (nfa : Automaton) (c : NFAtoDFA.conv) : Prop := {
  cs_key :
    ∀ k T, map_get k (NFAtoDFA.statesMap c) = Some T →
      k = NFAtoDFA.keyOf T ∧ NoDup T ∧ T ≠ []
      ∧ ∀ x, x ∈ T → x ∈ NFAtoDFA.universe nfa;
  cs_stack :
    ∀ S, S ∈ NFAtoDFA.stack c →
      map_get (NFAtoDFA.keyOf S) (NFAtoDFA.statesMap c) = Some S;
  cs_done :
    ∀ k T, map_get k (NFAtoDFA.statesMap c) = Some T →
      T ∈ NFAtoDFA.stack c
      ∨ row_done nfa (NFAtoDFA.statesMap c) (NFAtoDFA.dfaTransitions c) k T (alphabet nfa)
}.

(** The same while the row of the popped subset [S] is being written: it is
    written for the symbols [seen]. *)
Record expand_inv (nfa : Automaton) (S : list ident) (seen : list string)
    (c : NFAtoDFA.conv) : Prop := {
  ei_key :
    ∀ k T, map_get k (NFAtoDFA.statesMap c) = Some T →
      k = NFAtoDFA.keyOf T ∧ NoDup T ∧ T ≠ []
      ∧ ∀ x, x ∈ T → x ∈ NFAtoDFA.universe nfa;
  ei_stack :
    ∀ S', S' ∈ NFAtoDFA.stack c →
      map_get (NFAtoDFA.keyOf S') (NFAtoDFA.statesMap c) = Some S';
  ei_self : map_get (NFAtoDFA.keyOf S) (NFAtoDFA.statesMap c) = Some S;
  ei_row :
    row_done nfa (NFAtoDFA.statesMap c) (NFAtoDFA.dfaTransitions c)
      (NFAtoDFA.keyOf S) S seen;
  ei_done :
    ∀ k T, map_get k (NFAtoDFA.statesMap c) = Some T → k ≠ NFAtoDFA.keyOf S →
      T ∈ NFAtoDFA.stack c
      ∨ row_done nfa (NFAtoDFA.statesMap c) (NFAtoDFA.dfaTransitions c) k T (alphabet nfa)
}.

(** The keys tell the subsets of the NFA apart: non-empty subsets of the
    universe with the same key have the same members. *)
Definition keys_injective (nfa : Automaton) : Prop :=
  ∀ S T : list ident,
    NoDup S → NoDup T → S ≠ [] → T ≠ [] →
    (∀ x, x ∈ S → x ∈ NFAtoDFA.universe nfa) →
    (∀ x, x ∈ T → x ∈ NFAtoDFA.universe nfa) →
    NFAtoDFA.keyOf S = NFAtoDFA.keyOf T → ∀ x, x ∈ S ↔ x ∈ T.

(** A name without a comma. *)
Definition comma_free (s : string) : Prop := "," ∉ chars s.

(** The start state and every destination of the NFA are strings without a
    comma. *)
Definition plain_names (nfa : Automaton) : Prop :=
  ∀ q, q ∈ NFAtoDFA.universe nfa → ∃ s, q = Some s ∧ comma_free s.

(** A rank for the trie of [forked_language]. *)
Definition forked_rank (s : string) : nat :=
  if bool_decide (s ∈ ["q0"]) then 3
  else if bool_decide (s ∈ ["q1"; "q5"]) then 2
  else if bool_decide (s ∈ ["q2"; "q6"]) then 1
  else 0.

(** A language with a word that leaves the alphabet. *)
Definition foreign_language : DAFSA.language :=
  {| DAFSA.lang_alphabet := ["a"];
     DAFSA.lang_accept := ["a"; "ab"; "c"] |}.

(** A rank for the states of a trie: the number of states from the first
    occurrence of [s] in [ss] to the end of [ss] (0 if there is none). *)
Fixpoint rank_in (ss : list string) (s : string) : nat :=
  match ss with
  | [] => 0
  | x :: r => if decide (x = s) then S (length r) else rank_in r s
  end.

(** ** Converting a converted automaton *)

(** The subset that a second conversion stores under the key [k]: the one
    state [k] of the DFA. *)
Definition as_singletons (sm : list (string * list ident)) :
    list (string * list ident) :=
  (λ kv, (kv.1, [Some kv.1])) <$> sm.

(** The loop of a second conversion, [d], follows the loop of the first, [c],
    step by step: same keys, same rows, and a stack of the keys of the
    subsets on the stack of [c]. *)
Record replays (c d : NFAtoDFA.conv) : Prop := {
  rp_map : NFAtoDFA.statesMap d = as_singletons (NFAtoDFA.statesMap c);
  rp_stack :
    NFAtoDFA.stack d = (λ S, [Some (NFAtoDFA.keyOf S)]) <$> NFAtoDFA.stack c;
  rp_rows : NFAtoDFA.dfaTransitions d = NFAtoDFA.dfaTransitions c
}.

(** ** The runs of an NFA *)

(** [nfa_path tr q cs q']: reading the symbols [cs] from the state [q], taking
    at each symbol one of the listed moves, can end in the state [q']. *)
Inductive nfa_path (tr : gmap string (gmap string (list ident))) :
    ident → list string → ident → Prop :=
  | path_nil q : nfa_path tr q [] q
  | path_cons q ch t cs q' :
      t ∈ moves_of tr q ch → nfa_path tr t cs q' → nfa_path tr q (ch :: cs) q'.

(** ** Cycles under the minimiser *)

(** [sig_step dfa q q']: the call [sig(q)] calls [sig(q')]: [q'] is the first
    destination of an entry in the row of [q]. *)
Definition sig_step (dfa : Automaton) (q q' : ident) : Prop :=
  ∃ row a arr,
    transitions dfa !! propKey q = Some row ∧ row !! a = Some arr
    ∧ DAFSA.first_dest arr = q'.

(** From [q] the calls of [sig] reach a state that calls itself again. *)
Definition reaches_cycle (dfa : Automaton) (q : ident) : Prop :=
  ∃ c, rtc (sig_step dfa) q c ∧ tc (sig_step dfa) c c.

(** No state of the memo table reaches a cycle. *)
Definition cycle_free (dfa : Automaton) (memo : gmap ident string) : Prop :=
  ∀ q, is_Some (memo !! q) → ¬ reaches_cycle dfa q.

(** ** The symbols of the rows of the subset construction *)

(** The rows hold entries for symbols of the alphabet only. *)
Definition row_keys_ok (nfa : Automaton) (c : NFAtoDFA.conv) : Prop :=
  ∀ s row ch, NFAtoDFA.dfaTransitions c !! s = Some row → is_Some (row !! ch) →
              ch ∈ alphabet nfa.

(** ** White space at the ends of a string *)

Definition starts_with_space (s : string) : bool :=
  match s with
  | EmptyString => false
  | String c _ => is_space c
  end.

Fixpoint ends_with_space (s : string) : bool :=
  match s with
  | EmptyString => false
  | String c EmptyString => is_space c
  | String _ r => ends_with_space r
  end.

(** ** The order in which the subsets are met *)

(** Every stored subset but the first is met from a subset stored before
    it, on a symbol of the alphabet: it holds the moves of that subset, and is
    stored under its key. *)
Definition discovered (nfa : Automaton) (startKey : string)
    (sm : list (string * list ident)) : Prop :=
  ∀ sm1 k T sm2,
    sm = sm1 ++ (k, T) :: sm2 →
    k = startKey
    ∨ ∃ k0 T0 sym,
        (k0, T0) ∈ sm1 ∧ sym ∈ alphabet nfa
        ∧ T = move_set (transitions nfa) T0 sym
        ∧ T ≠ []
        ∧ k = NFAtoDFA.keyOf T.

(** Every stored subset holds one state, a string. *)
Definition stored_singletons (sm : list (string * list ident)) : Prop :=
  ∀ k T, (k, T) ∈ sm → ∃ x : string, T = [Some x].

(** The start state and the destinations of the automaton are strings. *)
Definition string_names (nfa : Automaton) : Prop :=
  ∀ q, q ∈ NFAtoDFA.universe nfa → ∃ s : string, q = Some s.

(** ** The prefixes in the trie *)

(** [p] is the empty string or a prefix of one of the words [ws]. *)
Definition word_prefix (ws : list string) (p : list string) : Prop :=
  p = [] ∨ ∃ w, w ∈ ws ∧ p `prefix_of` chars w.

(** Every node is reached from the root by the empty string or a prefix of
    one of the words [ws]. *)
Definition trie_reached (t : DAFSA.trie) (ws : list string) : Prop :=
  ∀ i, is_Some (map_get i (DAFSA.nodes t)) →
       ∃ p, walk (DAFSA.nodes t) (DAFSA.newId 0) p = Some i ∧ word_prefix ws p.

(** ** Names that are not inherited *)

(** No state that a subset can hold (the start state and the destinations)
    and no symbol of the alphabet is the name of a property that plain objects
    inherit. *)
Definition ordinary_names (nfa : Automaton) : Prop :=
  Forall (λ q, inherited (propKey q) = false) (NFAtoDFA.universe nfa)
  ∧ Forall (λ sym, inherited sym = false) (alphabet nfa).

(** No state and no symbol of a row is named [__proto__]. *)
Definition proto_free (a : Automaton) : Prop :=
  ("__proto__" ∉ states a)
  ∧ map_Forall (λ _ row, row !! "__proto__" = (None : option (list ident)))
      (transitions a).

(** An NFA of one state, named [constructor], over the symbol [length]. *)
Definition constructor_nfa : Automaton :=
  {| states := ["constructor"];
     alphabet := ["length"];
     start := Some "constructor";
     accept := [];
     transitions := ∅ |}.

(** An NFA of one state over the symbol [toString]. *)
Definition toString_nfa : Automaton :=
  {| states := ["s"];
     alphabet := ["toString"];
     start := Some "s";
     accept := [];
     transitions := ∅ |}.

(** * Facts *)

(** ** Sets and maps *)

Section SetFacts.
Context {A : Type} `{EqDecision A}.
Implicit Types (x : A) (s xs : list A).

Lemma elem_of_set_add x y s : y ∈ set_add x s ↔ y ∈ s ∨ y = x.
Proof.
  unfold set_add. case_decide as Hx.
  - split; [auto|]. intros [?| ->]; done.
  - rewrite elem_of_app, list_elem_of_singleton. done.
Qed.

Lemma NoDup_set_add x s : NoDup s → NoDup (set_add x s).
Proof.
  intros Hs. unfold set_add. case_decide as Hx; [done|].
  apply NoDup_app. split_and!; [done| |apply NoDup_singleton].
  intros y Hy ->%list_elem_of_singleton. done.
Qed.

Lemma elem_of_set_add_all xs : ∀ s y, y ∈ set_add_all xs s ↔ y ∈ s ∨ y ∈ xs.
Proof.
  induction xs as [|x xs IH]; intros s y; simpl.
  - rewrite elem_of_nil. tauto.
  - unfold set_add_all in *. simpl. rewrite IH, elem_of_set_add, elem_of_cons. tauto.
Qed.

Lemma NoDup_set_add_all xs : ∀ s, NoDup s → NoDup (set_add_all xs s).
Proof.
  induction xs as [|x xs IH]; intros s Hs; [done|].
  unfold set_add_all in *. simpl. apply IH, NoDup_set_add, Hs.
Qed.

Lemma elem_of_new_Set xs y : y ∈ new_Set xs ↔ y ∈ xs.
Proof. unfold new_Set. rewrite elem_of_set_add_all, elem_of_nil. tauto. Qed.

Lemma NoDup_new_Set xs : NoDup (new_Set xs).
Proof. apply NoDup_set_add_all, NoDup_nil_2. Qed.

Lemma set_add_all_nil_inv xs s : set_add_all xs s = [] → s = [] ∧ xs = [].
Proof.
  intros Hnil. split.
  - destruct s as [|y s]; [done|].
    assert (y ∈ set_add_all xs (y :: s)) as Hy
      by (apply elem_of_set_add_all; left; left).
    rewrite Hnil in Hy. by apply elem_of_nil in Hy.
  - destruct xs as [|y xs]; [done|].
    assert (y ∈ set_add_all (y :: xs) s) as Hy
      by (apply elem_of_set_add_all; right; left).
    rewrite Hnil in Hy. by apply elem_of_nil in Hy.
Qed.
End SetFacts.

Lemma includes_new_Set q arr : includes q (new_Set arr) = includes q arr.
Proof.
  unfold includes. apply bool_decide_ext.
  rewrite !list_elem_of_fmap. by setoid_rewrite elem_of_new_Set.
Qed.

Lemma chars_app s1 s2 : chars (s1 +:+ s2) = chars s1 ++ chars s2.
Proof. induction s1 as [|c s1 IH]; simpl; [done|]. by rewrite IH. Qed.

(** ** The alphabet check *)

Lemma first_foreign_app alpha pre ch post :
  (∀ x, x ∈ pre → x ∈ alpha) → ch ∉ alpha →
  first_foreign alpha (pre ++ ch :: post) = Some ch.
Proof.
  intros Hpre Hch. induction pre as [|x pre IH]; simpl.
  - unfold set_has. by rewrite bool_decide_eq_false_2.
  - unfold set_has. rewrite bool_decide_eq_true_2 by (apply Hpre; left).
    apply IH. intros y Hy. apply Hpre. by right.
Qed.

Lemma first_foreign_split (alpha : list string) (w : string) :
  (∃ ch, ch ∈ chars w ∧ ch ∉ alpha) →
  ∃ pre c post,
    w = (pre +:+ String c post)
    ∧ (∀ x, x ∈ chars pre → x ∈ alpha)
    ∧ String c EmptyString ∉ alpha.
Proof.
  induction w as [|c0 r IH]; intros (ch & Hch & Hout); simpl in Hch.
  - by apply elem_of_nil in Hch.
  - destruct (decide (String c0 EmptyString ∈ alpha)) as [Hin|Hnin].
    + apply elem_of_cons in Hch as [->|Hch]; [done|].
      destruct IH as (pre & c & post & -> & Hpre & Hc); [eauto|].
      exists (String c0 pre), c, post. split_and!; [done| |done].
      intros x [->|Hx]%elem_of_cons; auto.
    + exists EmptyString, c0, r. split_and!; [done| |done].
      by intros x ?%elem_of_nil.
Qed.

(** C7. An input with a character outside the alphabet is rejected by both
    evaluators, whatever the automaton: the verdict is a rejection (no error)
    whose reason names the first such character of the input, and neither the
    start state nor the transitions take part in it.  The input splits as
    [pre], whose characters are all in the alphabet, then the character [c],
    which is not, then [post]. *)
Theorem alphabet_check_precedes_simulation (a : Automaton) (w : string) :
  (∃ ch, ch ∈ chars w ∧ ch ∉ alphabet a) →
  ∃ pre c post,
    w = (pre +:+ String c post)
    ∧ (∀ x, x ∈ chars pre → x ∈ alphabet a)
    ∧ (String c EmptyString ∉ alphabet a)
    ∧ NFAtoDFA.accepts a w = not_in_alphabet (String c EmptyString)
    ∧ DAFSA.accepts a w = not_in_alphabet (String c EmptyString)
    ∧ accepted (not_in_alphabet (String c EmptyString)) = false.
Proof.
  intros Hforeign.
  destruct (first_foreign_split (alphabet a) w Hforeign) as (pre & c & post & -> & Hpre & Hc).
  exists pre, c, post. split_and!; try done.
  all: assert (first_foreign (new_Set (alphabet a)) (chars (pre +:+ String c post))
               = Some (String c EmptyString)) as Hff
         by (rewrite chars_app; simpl; apply first_foreign_app;
             [intros x Hx; apply elem_of_new_Set; auto|by rewrite elem_of_new_Set]).
  - unfold NFAtoDFA.accepts. by rewrite Hff.
  - unfold DAFSA.accepts. by rewrite Hff.
Qed.

Lemma alphabet_check_example :
  ∃ pre c post,
    "abca" = (pre +:+ String c post)
    ∧ (∀ x, x ∈ chars pre → x ∈ alphabet example_nfa)
    ∧ (String c EmptyString ∉ alphabet example_nfa)
    ∧ NFAtoDFA.accepts example_nfa "abca" = not_in_alphabet (String c EmptyString)
    ∧ DAFSA.accepts example_nfa "abca" = not_in_alphabet (String c EmptyString)
    ∧ accepted (not_in_alphabet (String c EmptyString)) = false.
Proof.
  apply (alphabet_check_precedes_simulation example_nfa "abca").
  exists "c". split.
  - apply (bool_decide_unpack _). vm_compute. exact I.
  - apply (bool_decide_unpack _). vm_compute. exact I.
Defined.

(** ** The file loader *)

Lemma find_first {A} (f : A → bool) (l : list A) x :
  List.find f l = Some x ↔ ∃ l1 l2, l = l1 ++ x :: l2 ∧ f x = true ∧ ∀ y, y ∈ l1 → f y = false.
Proof.
  induction l as [|y l IH]; simpl.
  - split; [done|]. intros (l1 & l2 & Hl & _). by destruct l1.
  - destruct (f y) eqn:Hy.
    + split.
      * intros [= <-]. exists [], l. split_and!; [done..|]. by intros ? ?%elem_of_nil.
      * intros (l1 & l2 & Hl & Hx & Hl1). destruct l1 as [|z l1]; simpl in Hl.
        -- by injection Hl as ->.
        -- injection Hl as -> _. rewrite Hl1 in Hy; [done|left].
    + rewrite IH. split.
      * intros (l1 & l2 & -> & Hx & Hl1). exists (y :: l1), l2.
        split_and!; [done..|]. intros z [->|?]%elem_of_cons; auto.
      * intros (l1 & l2 & Hl & Hx & Hl1). destruct l1 as [|z l1]; simpl in Hl.
        -- injection Hl as -> _. congruence.
        -- injection Hl as -> ->. exists l1, l2. split_and!; [done..|].
           intros z' ?. apply Hl1. by right.
Qed.

Lemma validate_cases env fields :
  match NFAtoDFA.validate env (NFAtoDFA.JObj fields) with
  | Some msg => first_failure fields msg
  | None =>
      (∀ k, k ∈ NFAtoDFA.required → NFAtoDFA.has_key k fields = true)
      ∧ NFAtoDFA.is_array "states" fields = true
      ∧ NFAtoDFA.is_array "alphabet" fields = true
      ∧ NFAtoDFA.is_array "accept" fields = true
      ∧ NFAtoDFA.has_key "epsilon" fields = false
  end.
Proof.
  unfold NFAtoDFA.validate, first_failure.
  destruct (List.find _ NFAtoDFA.required) as [k|] eqn:Hfind.
  - left. apply find_first in Hfind as (l1 & l2 & Hreq & Hk & Hl1).
    exists l1, k, l2. split_and!; [done| |by apply negb_true_iff|done].
    intros k' Hk'. by apply negb_false_iff, Hl1.
  - assert (∀ k, k ∈ NFAtoDFA.required → NFAtoDFA.has_key k fields = true) as Hreq.
    { intros k Hk%list_elem_of_In. apply negb_false_iff.
      by apply (find_none _ _ Hfind). }
    destruct (NFAtoDFA.is_array "states" fields && NFAtoDFA.is_array "alphabet" fields
              && NFAtoDFA.is_array "accept" fields) eqn:Harr; cbn [negb].
    + destruct (NFAtoDFA.has_key "epsilon" fields) eqn:Heps.
      * right. split; [done|]. right. done.
      * apply andb_true_iff in Harr as [[H1 H2]%andb_true_iff H3]. done.
    + right. split; [done|]. by left.
Qed.

(** C5, amended. Loading a parsed definition that has an [epsilon] key at its
    top level always fails, and the message alerted is the failure prefix
    followed by the message of the first check that fails: the first required
    key that is missing; with the five keys present, the arrays message when
    [states], [alphabet] or [accept] is no array; and the epsilon message
    otherwise.  The failed load installs nothing: the current automaton and
    the kept original are what they were before (none on a fresh page) and
    the controls are left disabled. *)
Theorem load_epsilon_fails (env : NFAtoDFA.surroundings) (p : NFAtoDFA.page)
    (fields : list (string * NFAtoDFA.json)) :
  NFAtoDFA.has_key "epsilon" fields = true →
  ∃ msg,
    NFAtoDFA.load env p (NFAtoDFA.JObj fields)
    = ({| NFAtoDFA.automaton := NFAtoDFA.automaton p;
          NFAtoDFA.originalNFA := NFAtoDFA.originalNFA p;
          NFAtoDFA.loaded := false |},
       Some ("Failed to load automaton: " +:+ msg))
    ∧ ((∃ before k after,
          NFAtoDFA.required = before ++ k :: after
          ∧ (∀ k', k' ∈ before → NFAtoDFA.has_key k' fields = true)
          ∧ NFAtoDFA.has_key k fields = false
          ∧ msg = NFAtoDFA.missing_key k)
       ∨ ((∀ k, k ∈ NFAtoDFA.required → NFAtoDFA.has_key k fields = true)
          ∧ (NFAtoDFA.is_array "states" fields && NFAtoDFA.is_array "alphabet" fields
             && NFAtoDFA.is_array "accept" fields = false
             ∧ msg = NFAtoDFA.not_arrays
             ∨ NFAtoDFA.is_array "states" fields && NFAtoDFA.is_array "alphabet" fields
               && NFAtoDFA.is_array "accept" fields = true
               ∧ msg = NFAtoDFA.epsilon_unsupported)))
    ∧ (p = NFAtoDFA.initial_page →
       NFAtoDFA.automaton (NFAtoDFA.load env p (NFAtoDFA.JObj fields)).1 = None).
Proof.
  intros Heps. pose proof (validate_cases env fields) as Hv.
  unfold NFAtoDFA.load.
  destruct (NFAtoDFA.validate env (NFAtoDFA.JObj fields)) as [msg|].
  - exists msg. split_and!; [done| |by intros ->].
    destruct Hv as [Hmiss|[Hreq [Harr|(Harr & _ & Hmsg)]]]; [by left|right..];
      (split; [done|]); [by left|by right].
  - destruct Hv as (_ & _ & _ & _ & Hno). congruence.
Qed.

Lemma load_epsilon_fails_example :
  ∃ msg,
    NFAtoDFA.load rendering NFAtoDFA.initial_page epsilon_json
    = ({| NFAtoDFA.automaton := None; NFAtoDFA.originalNFA := None;
          NFAtoDFA.loaded := false |},
       Some ("Failed to load automaton: " +:+ msg))
    ∧ ((∃ before k after,
          NFAtoDFA.required = before ++ k :: after
          ∧ (∀ k', k' ∈ before → NFAtoDFA.has_key k' epsilon_fields = true)
          ∧ NFAtoDFA.has_key k epsilon_fields = false
          ∧ msg = NFAtoDFA.missing_key k)
       ∨ ((∀ k, k ∈ NFAtoDFA.required → NFAtoDFA.has_key k epsilon_fields = true)
          ∧ (NFAtoDFA.is_array "states" epsilon_fields
             && NFAtoDFA.is_array "alphabet" epsilon_fields
             && NFAtoDFA.is_array "accept" epsilon_fields = false
             ∧ msg = NFAtoDFA.not_arrays
             ∨ NFAtoDFA.is_array "states" epsilon_fields
               && NFAtoDFA.is_array "alphabet" epsilon_fields
               && NFAtoDFA.is_array "accept" epsilon_fields = true
               ∧ msg = NFAtoDFA.epsilon_unsupported)))
    ∧ (NFAtoDFA.initial_page = NFAtoDFA.initial_page →
       NFAtoDFA.automaton
         (NFAtoDFA.load rendering NFAtoDFA.initial_page epsilon_json).1 = None).
Proof.
  apply (load_epsilon_fails rendering NFAtoDFA.initial_page epsilon_fields).
  reflexivity.
Defined.

(** C5 as stated fails three times.  A definition with an [epsilon] key and
    no [states] key is refused for the missing key, not for the epsilon key.
    After a first successful load, the refused definition leaves the
    automaton loaded before as the current one.  And a definition whose only
    [epsilon] key is a symbol of a transition row is loaded: the loader looks
    for the key at the top level only. *)
Lemma load_epsilon_counterexample :
  (NFAtoDFA.has_key "epsilon" [("epsilon", NFAtoDFA.JObj [])] = true
   ∧ (NFAtoDFA.load rendering NFAtoDFA.initial_page bare_epsilon_json).2
     = Some ("Failed to load automaton: " +:+ NFAtoDFA.missing_key "states")
   ∧ NFAtoDFA.missing_key "states" ≠ NFAtoDFA.epsilon_unsupported)
  ∧ (NFAtoDFA.has_key "epsilon" epsilon_fields = true
     ∧ NFAtoDFA.automaton
         (NFAtoDFA.load rendering
            (NFAtoDFA.load rendering NFAtoDFA.initial_page example_json).1
            epsilon_json).1
       = Some example_json
     ∧ (NFAtoDFA.load rendering
          (NFAtoDFA.load rendering NFAtoDFA.initial_page example_json).1
          epsilon_json).2
       = Some ("Failed to load automaton: " +:+ NFAtoDFA.epsilon_unsupported))
  ∧ (json_at ["transitions"; "q1"; "epsilon"] epsilon_row_json
     = Some (NFAtoDFA.JArr [NFAtoDFA.JStr "q1"])
     ∧ NFAtoDFA.load rendering NFAtoDFA.initial_page epsilon_row_json
       = ({| NFAtoDFA.automaton := Some epsilon_row_json;
             NFAtoDFA.originalNFA := Some epsilon_row_json;
             NFAtoDFA.loaded := true |}, None)).
Proof. split_and!; try reflexivity. discriminate. Qed.

(** ** The two evaluators on deterministic automata *)

Lemma run_agree (a : Automaton) (cs : list string) :
  deterministic a →
  ∀ s,
    match NFAtoDFA.run (transitions a) [s] cs with
    | Some current =>
        existsb (λ q, includes q (new_Set (accept a))) current
        = accepted (DAFSA.run a s cs)
    | None => accepted (DAFSA.run a s cs) = false
    end.
Proof.
  intros Hdet. induction cs as [|ch cs IH]; intros s; simpl.
  - by rewrite includes_new_Set, orb_false_r.
  - unfold move_set, moves_of. simpl.
    destruct (transitions a !! propKey s) as [row|] eqn:Hrow; simpl; [|done].
    destruct (row !! ch) as [arr|] eqn:Harr; simpl; [|done].
    pose proof (Hdet _ _ _ _ Hrow Harr) as Hlen.
    destruct arr as [|t [|t' arr]]; simpl in *; [done| |lia].
    apply IH.
Qed.

(** C9, amended. On an automaton whose start state is a non-empty string and
    whose transition entries hold at most one destination, the set-based
    evaluator of NFAtoDFA.js and the single-state evaluator of DAFSA.js give
    the same [accepted] for every input. *)
Theorem evaluators_agree (a : Automaton) (w : string) :
  truthy (start a) = true →
  deterministic a →
  accepted (NFAtoDFA.accepts a w) = accepted (DAFSA.accepts a w).
Proof.
  intros Hstart Hdet. unfold NFAtoDFA.accepts, DAFSA.accepts.
  destruct (first_foreign _ _); [done|]. rewrite Hstart. simpl.
  pose proof (run_agree a (chars w) Hdet (start a)) as Hrun.
  change (new_Set [start a]) with [start a].
  by destruct (NFAtoDFA.run _ _ _).
Qed.

(** C9 as stated fails when the start state is the empty string, which is
    defined but falsy: NFAtoDFA.js answers "No start state", DAFSA.js accepts
    the empty input. *)
Lemma evaluators_disagree_on_empty_name :
  start empty_name_dfa = Some ""
  ∧ deterministic empty_name_dfa
  ∧ accepted (NFAtoDFA.accepts empty_name_dfa "") = false
  ∧ accepted (DAFSA.accepts empty_name_dfa "") = true.
Proof.
  split_and!; try reflexivity.
  intros s row ch arr Hrow. simpl in Hrow. by rewrite lookup_empty in Hrow.
Qed.

Lemma deterministic_map_Forall (a : Automaton) :
  map_Forall (λ _ row, map_Forall (λ _ (arr : list ident), length arr ≤ 1) row)
    (transitions a) →
  deterministic a.
Proof.
  intros Hall s row ch arr Hrow Harr.
  exact (Hall _ _ Hrow _ _ Harr).
Qed.

Lemma evaluators_agree_example :
  accepted (NFAtoDFA.accepts example_dfa "ab")
  = accepted (DAFSA.accepts example_dfa "ab").
Proof.
  apply (evaluators_agree example_dfa "ab").
  - reflexivity.
  - apply deterministic_map_Forall.
    apply (bool_decide_unpack _). vm_compute. exact I.
Defined.

(** ** Three inputs on which the string encodings collide *)

(** C4 at its failing input: the one-member set [{"a,b"}] and the two-member
    set [{"a", "b"}] have different members and the same key. *)
Lemma keyOf_collision :
  NFAtoDFA.keyOf [Some "a,b"] = NFAtoDFA.keyOf [Some "a"; Some "b"]
  ∧ Some "a" ∈ [Some "a"; Some "b"]
  ∧ Some "a" ∉ [Some "a,b"].
Proof.
  split_and!; [reflexivity|left|].
  intros Hin. apply list_elem_of_singleton in Hin. discriminate.
Qed.

(** C1 at its failing input: the NFA accepts [y] through the subset
    [{"a", "b"}]; in the DFA that subset shares the key of [{"a,b"}], which was
    met first and holds no accept state, so the DFA rejects [y]. *)
Lemma nfaToDfa_comma_changes_language :
  ∃ dfa,
    NFAtoDFA.nfaToDfa comma_nfa = Some dfa
    ∧ states dfa = ["s"; "a,b"]
    ∧ accept dfa = []
    ∧ accepted (NFAtoDFA.accepts comma_nfa "y") = true
    ∧ accepted (NFAtoDFA.accepts dfa "y") = false.
Proof. eexists. split; [vm_compute; reflexivity|]. by vm_compute. Qed.

(** C3 at its failing input: in the trie of [forked_language] the states
    reached by [x] and by [y] get the same signature string although [xac] is
    a word and [yac] is not; the minimised automaton rejects the word [yc] and
    accepts [yac]. *)
Lemma minimize_forked_changes_language :
  ∃ dfa m,
    DAFSA.buildTrieDFA forked_language = inr dfa
    ∧ DAFSA.minimize_fuel 4 dfa = Some m
    ∧ DAFSA.sig_fuel 4 dfa (Some "q1") ∅ ≫= (λ r, Some r.1) = Some "0|a>0|b>1|,c>1|"
    ∧ DAFSA.sig_fuel 4 dfa (Some "q5") ∅ ≫= (λ r, Some r.1) = Some "0|a>0|b>1|,c>1|"
    ∧ accepted (DAFSA.accepts dfa "yc") = true
    ∧ accepted (DAFSA.accepts m "yc") = false
    ∧ accepted (DAFSA.accepts dfa "yac") = false
    ∧ accepted (DAFSA.accepts m "yac") = true.
Proof.
  eexists. eexists. split; [vm_compute; reflexivity|].
  split; [vm_compute; reflexivity|]. by vm_compute.
Qed.

(** ** The canonical key of a subset *)

Global Instance ident_le_trans : Transitive ident_le.
Proof.
  intros [a|] [b|] [c|]; simpl; try done.
  apply (transitivity (R := String.le)).
Qed.

Global Instance ident_le_antisym : AntiSymm (=) ident_le.
Proof.
  intros [a|] [b|]; simpl; try done.
  intros H1 H2. f_equal. by apply (anti_symm String.le).
Qed.

Global Instance ident_le_total : Total ident_le.
Proof.
  intros [a|] [b|]; simpl; auto.
  apply (total String.le).
Qed.

Lemma sort_perm (S T : list ident) : S ≡ₚ T → sort S = sort T.
Proof.
  intros Hperm. unfold sort.
  apply (Sorted_unique ident_le); try apply Sorted_merge_sort; try apply _.
  by rewrite !merge_sort_Permutation.
Qed.

(** The key does not depend on the order in which the members were added. *)
Lemma keyOf_perm (S T : list ident) : S ≡ₚ T → NFAtoDFA.keyOf S = NFAtoDFA.keyOf T.
Proof. intros Hperm. unfold NFAtoDFA.keyOf. by rewrite (sort_perm S T). Qed.

Lemma keyOf_same_members (S T : list ident) :
  NoDup S → NoDup T → (∀ x, x ∈ S ↔ x ∈ T) → NFAtoDFA.keyOf S = NFAtoDFA.keyOf T.
Proof. intros HS HT Heq. by apply keyOf_perm, NoDup_Permutation. Qed.

(** ** Maps in insertion order *)

Section MapFacts.
Context {K V : Type} `{EqDecision K}.
Implicit Types (k : K) (v : V) (m : list (K * V)).

Lemma map_get_None k m : map_get k m = None ↔ k ∉ map_keys m.
Proof.
  unfold map_keys. induction m as [|[k' v'] m IH]; csimpl.
  - split; [intros _; apply not_elem_of_nil|done].
  - rewrite not_elem_of_cons. case_decide as Hk.
    + split; [done|]. by intros [? _].
    + rewrite IH. split; [by split|by intros [_ ?]].
Qed.

Lemma map_has_true k m : map_has k m = true ↔ k ∈ map_keys m.
Proof.
  unfold map_has. rewrite bool_decide_eq_true.
  destruct (map_get k m) eqn:Hget.
  - split; [intros _|eauto]. destruct (decide (k ∈ map_keys m)) as [|Hn]; [done|].
    apply map_get_None in Hn. congruence.
  - apply map_get_None in Hget. split; [by intros [? ?]|done].
Qed.

Lemma map_has_false k m : map_has k m = false ↔ k ∉ map_keys m.
Proof. rewrite <-map_has_true. by destruct (map_has k m). Qed.

Lemma map_get_elem k v m : map_get k m = Some v → (k, v) ∈ m.
Proof.
  induction m as [|[k' v'] m IH]; simpl; [done|].
  case_decide; [intros [= ->]; subst; left|intros; right; auto].
Qed.

Lemma map_keys_set_new k v m : k ∉ map_keys m → map_keys (map_set k v m) = map_keys m ++ [k].
Proof.
  unfold map_keys. induction m as [|[k' v'] m IH]; csimpl; [done|].
  rewrite not_elem_of_cons. intros [Hne Hk]. rewrite decide_False by done.
  csimpl. by rewrite IH.
Qed.

Lemma map_keys_set_old k v m : k ∈ map_keys m → map_keys (map_set k v m) = map_keys m.
Proof.
  unfold map_keys. induction m as [|[k' v'] m IH]; csimpl.
  - by intros ?%elem_of_nil.
  - case_decide; [by subst|]. rewrite elem_of_cons. intros [?|Hk]; [done|].
    csimpl. by rewrite IH.
Qed.

Lemma map_get_set k v m k' :
  map_get k' (map_set k v m) = if decide (k' = k) then Some v else map_get k' m.
Proof.
  induction m as [|[k0 v0] m IH]; simpl.
  - by repeat case_decide.
  - destruct (decide (k = k0)) as [->|Hk]; simpl.
    + destruct (decide (k' = k0)); done.
    + rewrite IH. destruct (decide (k' = k0)) as [->|]; [|done].
      by rewrite decide_False by done.
Qed.

Lemma size_map_set_new k v m : k ∉ map_keys m → length (map_set k v m) = S (length m).
Proof.
  unfold map_keys. induction m as [|[k' v'] m IH]; csimpl; [done|].
  rewrite not_elem_of_cons. intros [Hne Hk]. rewrite decide_False by done.
  simpl. by rewrite IH.
Qed.
End MapFacts.

(** ** Counting the subsets *)

Lemma length_sublists {A} (l : list A) : length (sublists l) = 2 ^ length l.
Proof.
  induction l as [|x l IH]; simpl; [done|].
  rewrite length_app, length_fmap, IH. lia.
Qed.

Lemma filter_sublists {A} (P : A → Prop) `{∀ x, Decision (P x)} (l : list A) :
  filter P l ∈ sublists l.
Proof.
  induction l as [|x l IH]; simpl; [left|].
  rewrite filter_cons. apply elem_of_app. case_decide.
  - left. apply list_elem_of_fmap. eauto.
  - by right.
Qed.

Lemma keyOf_subset_keys nfa (T : list ident) :
  NoDup T → (∀ x, x ∈ T → x ∈ NFAtoDFA.universe nfa) →
  NFAtoDFA.keyOf T ∈ subset_keys nfa.
Proof.
  intros Hnd Hsub. unfold subset_keys. apply list_elem_of_fmap.
  exists (filter (λ u, u ∈ T) (remove_dups (NFAtoDFA.universe nfa))).
  split; [|apply filter_sublists].
  apply keyOf_same_members; [done|apply NoDup_filter, NoDup_remove_dups|].
  intros x. rewrite list_elem_of_filter, elem_of_remove_dups. naive_solver.
Qed.

Lemma length_subset_keys nfa :
  length (subset_keys nfa) = 2 ^ length (remove_dups (NFAtoDFA.universe nfa)).
Proof. unfold subset_keys. by rewrite length_fmap, length_sublists. Qed.

(** ** The moves of a subset *)

Lemma elem_of_move_fold tr ch (S : list ident) : ∀ acc x,
  x ∈ foldl (λ T q, set_add_all (moves_of tr q ch) T) acc S
  ↔ x ∈ acc ∨ ∃ q, q ∈ S ∧ x ∈ moves_of tr q ch.
Proof.
  induction S as [|q S IH]; intros acc x; simpl.
  - split; [auto|]. intros [?|(q & Hq & _)]; [done|]. by apply elem_of_nil in Hq.
  - rewrite IH, elem_of_set_add_all. split.
    + intros [[?|?]|(q' & ? & ?)]; [by left|right; exists q; split; [left|done]|].
      right. exists q'. split; [by right|done].
    + intros [?|(q' & Hq' & ?)]; [by left; left|].
      apply elem_of_cons in Hq' as [->|?]; [by left; right|]. right. eauto.
Qed.

Lemma elem_of_move_set tr (S : list ident) ch x :
  x ∈ move_set tr S ch ↔ ∃ q, q ∈ S ∧ x ∈ moves_of tr q ch.
Proof.
  unfold move_set. rewrite elem_of_move_fold, elem_of_nil. naive_solver.
Qed.

Lemma NoDup_move_set tr (S : list ident) ch : NoDup (move_set tr S ch).
Proof.
  unfold move_set. generalize (NoDup_nil_2 (A := ident)).
  generalize (@nil ident). induction S as [|q S IH]; intros acc Hacc; simpl; [done|].
  apply IH, NoDup_set_add_all, Hacc.
Qed.

Lemma elem_of_moves_of tr q ch x :
  x ∈ moves_of tr q ch ↔
  ∃ row arr, tr !! propKey q = Some row ∧ row !! ch = Some arr ∧ x ∈ arr.
Proof.
  unfold moves_of. destruct (tr !! propKey q) as [row|]; simpl.
  - destruct (row !! ch) as [arr|] eqn:Harr; simpl.
    + split; [eauto 6|]. intros (? & ? & [= <-] & Harr' & ?).
      rewrite Harr in Harr'. by injection Harr' as <-.
    + rewrite elem_of_nil. split; [done|]. intros (? & ? & [= <-] & Harr' & _).
      by rewrite Harr in Harr'.
  - rewrite elem_of_nil. split; [done|]. by intros (? & ? & ? & _).
Qed.

Lemma moves_in_universe nfa q ch x :
  x ∈ moves_of (transitions nfa) q ch → x ∈ NFAtoDFA.universe nfa.
Proof.
  rewrite elem_of_moves_of. intros (row & arr & Hrow & Harr & Hx).
  unfold NFAtoDFA.universe. right.
  apply list_elem_of_bind. exists row. split.
  - apply list_elem_of_bind. exists arr. split; [done|].
    apply list_elem_of_fmap. exists (ch, arr). split; [done|].
    by apply elem_of_map_to_list.
  - apply list_elem_of_fmap. exists (propKey q, row). split; [done|].
    by apply elem_of_map_to_list.
Qed.

Lemma move_set_key_bound nfa (S : list ident) ch :
  NFAtoDFA.keyOf (move_set (transitions nfa) S ch) ∈ subset_keys nfa.
Proof.
  apply keyOf_subset_keys; [apply NoDup_move_set|].
  intros x (q & _ & Hx)%elem_of_move_set. by eapply moves_in_universe.
Qed.

(** ** The loop of the subset construction *)

Section Conversion.
Variable nfa : Automaton.
Implicit Types (c : NFAtoDFA.conv) (S : list ident).

Lemma grows_refl c : grows c c.
Proof. by split. Qed.

Lemma grows_trans c1 c2 c3 : grows c1 c2 → grows c2 c3 → grows c1 c3.
Proof. intros [H1 H1'] [H2 H2']. split; [auto|lia]. Qed.

Lemma expand_ok S Skey c sym :
  conv_ok nfa c → Skey ∈ map_keys (NFAtoDFA.statesMap c) →
  conv_ok nfa (NFAtoDFA.expand_own nfa S Skey c sym)
  ∧ grows c (NFAtoDFA.expand_own nfa S Skey c sym).
Proof.
  intros [Hnd Hbound Hstack Hsrc Hent] HSkey. unfold NFAtoDFA.expand_own.
  set (T := move_set (transitions nfa) S sym).
  set (Tkey := NFAtoDFA.keyOf T).
  set (row := default ∅ (NFAtoDFA.dfaTransitions c !! Skey)).
  assert (∀ (keys' : list string) entry,
    (∀ k, k ∈ map_keys (NFAtoDFA.statesMap c) → k ∈ keys') →
    (entry = [] ∨ ∃ k, entry = [Some k] ∧ k ∈ keys') →
    ∀ s row' ch arr,
      <[Skey := <[sym := entry]> row]> (NFAtoDFA.dfaTransitions c) !! s = Some row' →
      row' !! ch = Some arr →
      arr = [] ∨ ∃ k, arr = [Some k] ∧ k ∈ keys') as Hent'.
  { intros keys' entry Hmono Hentry s row' ch arr Hs Hch.
    assert (∀ arr', row !! ch = Some arr' →
              arr' = [] ∨ ∃ k, arr' = [Some k] ∧ k ∈ keys') as Hrow.
    { intros arr' Harr'. unfold row in Harr'.
      destruct (NFAtoDFA.dfaTransitions c !! Skey) as [r|] eqn:Hr; simpl in Harr';
        [|by rewrite lookup_empty in Harr'].
      destruct (Hent _ _ _ _ Hr Harr') as [?|(k & ? & ?)]; [by left|right; eauto]. }
    destruct (decide (Skey = s)) as [<-|Hne].
    - rewrite lookup_insert_eq in Hs. injection Hs as <-.
      destruct (decide (sym = ch)) as [<-|Hne'].
      + rewrite lookup_insert_eq in Hch. by injection Hch as <-.
      + rewrite lookup_insert_ne in Hch by done. auto.
    - rewrite lookup_insert_ne in Hs by done.
      destruct (Hent _ _ _ _ Hs Hch) as [?|(k & ? & ?)]; [by left|right; eauto]. }
  assert (∀ keys' : list string,
    (∀ k, k ∈ map_keys (NFAtoDFA.statesMap c) → k ∈ keys') →
    ∀ s, is_Some (<[Skey := <[sym := (if bool_decide (length T = 0) then []
                                        else [Some Tkey])]> row]>
                    (NFAtoDFA.dfaTransitions c) !! s) → s ∈ keys') as Hsrc'.
  { intros keys' Hmono s Hs. destruct (decide (Skey = s)) as [<-|Hne]; [auto|].
    rewrite lookup_insert_ne in Hs by done. auto. }
  destruct (bool_decide (length T = 0)) eqn:Hsize; simpl.
  { split; [|by split].
    split; simpl; try done; [by apply Hsrc'|].
    intros s row' ch arr. apply Hent'; auto. }
  destruct (map_has Tkey (NFAtoDFA.statesMap c)) eqn:Hhas; simpl.
  { apply map_has_true in Hhas. split; [|by split].
    split; simpl; try done; [by apply Hsrc'|].
    intros s row' ch arr. apply Hent'; [auto|right; eauto]. }
  apply map_has_false in Hhas.
  assert (∀ k, k ∈ map_keys (NFAtoDFA.statesMap c) →
               k ∈ map_keys (map_set Tkey T (NFAtoDFA.statesMap c))) as Hmono.
  { intros k Hk. rewrite map_keys_set_new by done. apply elem_of_app. by left. }
  assert (Tkey ∈ map_keys (map_set Tkey T (NFAtoDFA.statesMap c))) as HT.
  { rewrite map_keys_set_new by done. apply elem_of_app. right. left. }
  split.
  - split; simpl.
    + rewrite map_keys_set_new by done. apply NoDup_app. split_and!; [done| |apply NoDup_singleton].
      intros k Hk ->%list_elem_of_singleton. done.
    + intros k. rewrite map_keys_set_new by done.
      intros [?| ->%list_elem_of_singleton]%elem_of_app; [auto|].
      apply move_set_key_bound.
    + intros S' [->|HS']%elem_of_cons; [done|auto].
    + by apply Hsrc'.
    + intros s row' ch arr. apply Hent'; [done|right; eauto].
  - split; [done|]. simpl. rewrite size_map_set_new by done. lia.
Qed.

Lemma expand_all_ok S Skey (syms : list string) : ∀ c,
  conv_ok nfa c → Skey ∈ map_keys (NFAtoDFA.statesMap c) →
  conv_ok nfa (foldl (NFAtoDFA.expand_own nfa S Skey) c syms)
  ∧ grows c (foldl (NFAtoDFA.expand_own nfa S Skey) c syms).
Proof.
  induction syms as [|sym syms IH]; intros c Hc HSkey; simpl.
  - split; [done|apply grows_refl].
  - destruct (expand_ok S Skey c sym Hc HSkey) as [Hc1 Hg1].
    destruct (IH _ Hc1 (proj1 Hg1 _ HSkey)) as [Hc2 Hg2].
    split; [done|]. by eapply grows_trans.
Qed.

Lemma pop_expand_ok S rest c :
  conv_ok nfa c → NFAtoDFA.stack c = S :: rest →
  conv_ok nfa (NFAtoDFA.pop_expand_own nfa S rest c)
  ∧ (∀ k, k ∈ map_keys (NFAtoDFA.statesMap c) →
          k ∈ map_keys (NFAtoDFA.statesMap (NFAtoDFA.pop_expand_own nfa S rest c)))
  ∧ length (NFAtoDFA.statesMap (NFAtoDFA.pop_expand_own nfa S rest c)) + length rest
    = length (NFAtoDFA.statesMap c)
      + length (NFAtoDFA.stack (NFAtoDFA.pop_expand_own nfa S rest c)).
Proof.
  intros [Hnd Hbound Hstack Hsrc Hent] Hst. unfold NFAtoDFA.pop_expand_own.
  assert (NFAtoDFA.keyOf S ∈ map_keys (NFAtoDFA.statesMap c)) as HSkey.
  { apply Hstack. rewrite Hst. left. }
  match goal with |- context [foldl _ ?c0 _] => set (c1 := c0) end.
  assert (conv_ok nfa c1) as Hc1.
  { split; simpl; try done.
    - intros S' HS'. apply Hstack. rewrite Hst. by right.
    - intros s. unfold NFAtoDFA.ensure_row_own.
      destruct (NFAtoDFA.dfaTransitions c !! NFAtoDFA.keyOf S) eqn:Hk; [auto|].
      destruct (decide (NFAtoDFA.keyOf S = s)) as [<-|Hne]; [done|].
      rewrite lookup_insert_ne by done. auto.
    - intros s row ch arr. unfold NFAtoDFA.ensure_row_own.
      destruct (NFAtoDFA.dfaTransitions c !! NFAtoDFA.keyOf S) eqn:Hk; [eauto|].
      destruct (decide (NFAtoDFA.keyOf S = s)) as [<-|Hne].
      + rewrite lookup_insert_eq. intros [= <-]. by rewrite lookup_empty.
      + rewrite lookup_insert_ne by done. eauto. }
  destruct (expand_all_ok S (NFAtoDFA.keyOf S) (alphabet nfa) c1 Hc1 HSkey)
    as [Hc2 [Hmono Hlen]].
  split_and!; [done|exact Hmono|exact Hlen].
Qed.
End Conversion.

Lemma conv_ok_size nfa c :
  conv_ok nfa c → length (NFAtoDFA.statesMap c) ≤ length (subset_keys nfa).
Proof.
  intros [Hnd Hbound _ _ _].
  rewrite <-(length_fmap fst (NFAtoDFA.statesMap c)).
  apply submseteq_length, NoDup_submseteq; done.
Qed.

(** The loop ends within the fuel that the count of subsets allows, with an
    empty stack and the invariant kept. *)
Lemma while_stack_terminates nfa : ∀ fuel c,
  conv_ok nfa c →
  length (subset_keys nfa) + length (NFAtoDFA.stack c)
    ≤ fuel + length (NFAtoDFA.statesMap c) →
  ∃ c', NFAtoDFA.while_stack_own fuel nfa c = Some c'
        ∧ conv_ok nfa c'
        ∧ NFAtoDFA.stack c' = []
        ∧ ∀ k, k ∈ map_keys (NFAtoDFA.statesMap c) →
               k ∈ map_keys (NFAtoDFA.statesMap c').
Proof.
  induction fuel as [|fuel IH]; intros c Hc Hfuel;
    destruct (NFAtoDFA.stack c) as [|S rest] eqn:Hst.
  - exists c. simpl. rewrite Hst. done.
  - pose proof (conv_ok_size nfa c Hc). simpl in Hfuel. lia.
  - exists c. simpl. rewrite Hst. done.
  - destruct (pop_expand_ok nfa S rest c Hc Hst) as (Hc1 & Hmono & Hlen).
    destruct (IH (NFAtoDFA.pop_expand_own nfa S rest c) Hc1) as (c' & Hrun & Hc' & Hst' & Hmono').
    { simpl in Hfuel. lia. }
    exists c'. simpl. rewrite Hst. split_and!; auto.
Qed.

Lemma nfaToDfa_terminates nfa :
  ∃ c, NFAtoDFA.nfaToDfa_own nfa
       = Some {| states := map_keys (NFAtoDFA.statesMap c);
                 alphabet := alphabet nfa;
                 start := Some (NFAtoDFA.keyOf [start nfa]);
                 accept := NFAtoDFA.dfa_accept (new_Set (accept nfa)) (NFAtoDFA.statesMap c);
                 transitions := NFAtoDFA.dfaTransitions c |}
       ∧ conv_ok nfa c
       ∧ NFAtoDFA.keyOf [start nfa] ∈ map_keys (NFAtoDFA.statesMap c)
       ∧ NFAtoDFA.while_stack_own (2 ^ length (remove_dups (NFAtoDFA.universe nfa))) nfa
           {| NFAtoDFA.statesMap := map_set (NFAtoDFA.keyOf [start nfa]) [start nfa] [];
              NFAtoDFA.stack := [[start nfa]];
              NFAtoDFA.dfaTransitions := ∅ |}
         = Some c.
Proof.
  unfold NFAtoDFA.nfaToDfa_own, NFAtoDFA.nfaToDfa_fuel_own.
  change (new_Set [start nfa]) with [start nfa].
  match goal with |- context [NFAtoDFA.while_stack_own _ _ ?c] => set (c0 := c) end.
  assert (conv_ok nfa c0) as Hc0.
  { split; simpl.
    - apply NoDup_singleton.
    - intros k ->%list_elem_of_singleton. apply keyOf_subset_keys; [apply NoDup_singleton|].
      intros x ->%list_elem_of_singleton. left.
    - intros S ->%list_elem_of_singleton. left.
    - intros s. rewrite lookup_empty. by intros [? ?].
    - intros s row ch arr. by rewrite lookup_empty. }
  destruct (while_stack_terminates nfa
              (2 ^ length (remove_dups (NFAtoDFA.universe nfa))) c0 Hc0)
    as (c & Hrun & Hc & _ & Hmono).
  { rewrite length_subset_keys. simpl. lia. }
  exists c. rewrite Hrun. simpl. split_and!; [done|done| |done].
  apply Hmono. left.
Qed.

(** The loop on own properties ends with an automaton in which every
    transition entry is an array of length 0 or 1. *)
Lemma nfaToDfa_own_deterministic (nfa : Automaton) :
  ∃ dfa, NFAtoDFA.nfaToDfa_own nfa = Some dfa ∧ deterministic dfa.
Proof.
  destruct (nfaToDfa_terminates nfa) as (c & -> & Hc & _ & _).
  eexists. split; [done|]. intros s row ch arr Hrow Harr. simpl in Hrow.
  destruct (ok_entries _ _ Hc _ _ _ _ Hrow Harr) as [->|(k & -> & _)]; simpl; lia.
Qed.

Lemma dfa_accept_keys nfaAccept (statesMap : list (string * list ident)) k :
  k ∈ NFAtoDFA.dfa_accept nfaAccept statesMap → k ∈ map_keys statesMap.
Proof.
  unfold NFAtoDFA.dfa_accept. rewrite elem_of_new_Set. unfold map_keys.
  rewrite !list_elem_of_fmap. intros (kv & -> & Hkv%list_elem_of_filter).
  exists kv. split; [done|]. apply Hkv.
Qed.

(** The automaton made by [nfaToDfa] refers to its own states only. *)
Lemma nfaToDfa_integrity (nfa : Automaton) :
  ∃ dfa, NFAtoDFA.nfaToDfa_own nfa = Some dfa ∧ referential_integrity dfa.
Proof.
  destruct (nfaToDfa_terminates nfa) as (c & -> & Hc & Hstart & _).
  eexists. split; [done|]. split_and!; simpl.
  - eauto.
  - intros s. apply dfa_accept_keys.
  - intros s row Hrow. split; [by apply (ok_sources _ _ Hc)|].
    intros ch arr q Harr Hq.
    destruct (ok_entries _ _ Hc _ _ _ _ Hrow Harr) as [->|(k & -> & Hk)].
    + by apply elem_of_nil in Hq.
    + apply list_elem_of_singleton in Hq as ->. eauto.
Qed.

(** ** The trie builder *)

Section MapFacts2.
Context {K V : Type} `{EqDecision K}.
Implicit Types (k : K) (v : V) (m : list (K * V)).

Lemma map_get_app k m1 m2 :
  map_get k (m1 ++ m2) = match map_get k m1 with Some v => Some v | None => map_get k m2 end.
Proof.
  induction m1 as [|[k' v'] m1 IH]; simpl; [done|]. by case_decide.
Qed.

Lemma map_get_of_elem k v m : NoDup (map_keys m) → (k, v) ∈ m → map_get k m = Some v.
Proof.
  unfold map_keys. induction m as [|[k' v'] m IH]; csimpl.
  - by intros _ ?%elem_of_nil.
  - intros [Hk' Hnd]%NoDup_cons [[= -> ->]|Hin]%elem_of_cons.
    + by rewrite decide_True.
    + rewrite decide_False; [auto|]. intros ->. apply Hk'.
      apply list_elem_of_fmap. by exists (k', v).
Qed.

Lemma map_set_absent k v m : k ∉ map_keys m → map_set k v m = m ++ [(k, v)].
Proof.
  unfold map_keys. induction m as [|[k' v'] m IH]; csimpl; [done|].
  rewrite not_elem_of_cons. intros [Hne Hk]. rewrite decide_False by done.
  by rewrite IH.
Qed.
End MapFacts2.

Lemma newId_inj : Inj (=) (=) DAFSA.newId.
Proof.
  intros a b Hab. unfold DAFSA.newId in Hab.
  apply (inj (String.app "q")) in Hab. by apply pretty_nat_inj in Hab.
Qed.

Lemma newId_truthy k : truthy (Some (DAFSA.newId k)) = true.
Proof. done. Qed.

Lemma elem_of_newIds i n : i ∈ DAFSA.newId <$> seq 0 n ↔ ∃ k, k < n ∧ i = DAFSA.newId k.
Proof.
  rewrite list_elem_of_fmap. setoid_rewrite elem_of_seq.
  split; intros (k & ? & ?); exists k; split; (done || lia).
Qed.

Lemma NoDup_newIds n : NoDup (DAFSA.newId <$> seq 0 n).
Proof. apply NoDup_fmap_2; [apply newId_inj|apply NoDup_seq]. Qed.

Lemma chars_inj : Inj (=) (=) chars.
Proof.
  intros s1. induction s1 as [|c s1 IH]; intros [|c' s2]; simpl; try done.
  intros [= -> Hr]. f_equal. auto.
Qed.

Lemma walk_app nodes v cs1 cs2 :
  walk nodes v (cs1 ++ cs2) = walk nodes v cs1 ≫= (λ j, walk nodes j cs2).
Proof.
  revert v. induction cs1 as [|ch cs1 IH]; intros v; simpl; [done|].
  destruct (map_get v nodes) as [n|]; simpl; [|done].
  destruct (DAFSA.edges n !! ch) as [j|]; simpl; [|done]. apply IH.
Qed.

Lemma walk_label label t v cs i :
  trie_inv label t → walk (DAFSA.nodes t) v cs = Some i → label i = label v ++ cs.
Proof.
  intros Hinv. revert v. induction cs as [|ch cs IH]; intros v; simpl.
  - intros [= ->]. by rewrite app_nil_r.
  - destruct (map_get v (DAFSA.nodes t)) as [n|] eqn:Hn; simpl; [|done].
    destruct (DAFSA.edges n !! ch) as [j|] eqn:Hj; simpl; [|done].
    intros Hw. rewrite (IH _ Hw).
    destruct (ti_edge _ _ Hinv _ _ _ _ Hn Hj) as [_ ->]. by rewrite <-app_assoc.
Qed.

Lemma walk_extends t t' v cs i :
  extends t t' → walk (DAFSA.nodes t) v cs = Some i → walk (DAFSA.nodes t') v cs = Some i.
Proof.
  intros [Hext _]. revert v. induction cs as [|ch cs IH]; intros v; simpl; [done|].
  destruct (map_get v (DAFSA.nodes t)) as [n|] eqn:Hn; simpl; [|done].
  destruct (DAFSA.edges n !! ch) as [j|] eqn:Hj; simpl; [|done].
  destruct (Hext _ _ Hn) as (n' & -> & _ & Hedges). simpl.
  rewrite (Hedges _ _ Hj). simpl. apply IH.
Qed.

Lemma extends_refl t : extends t t.
Proof.
  split; [|congruence]. intros i n Hn. exists n. done.
Qed.

Lemma extends_trans t1 t2 t3 : extends t1 t2 → extends t2 t3 → extends t1 t3.
Proof.
  intros [H1 H1'] [H2 H2']. split.
  - intros i n Hn. destruct (H1 _ _ Hn) as (n' & Hn' & Hf & He).
    destruct (H2 _ _ Hn') as (n'' & Hn'' & Hf' & He').
    exists n''. split_and!; [done|congruence|auto].
  - intros i n'' Hnone Hn''.
    destruct (map_get i (DAFSA.nodes t2)) as [n'|] eqn:Hn'.
    + destruct (H2 _ _ Hn') as (n3 & Hn3 & Hf & _).
      rewrite Hn'' in Hn3. injection Hn3 as <-. rewrite Hf. eauto.
    + eauto.
Qed.

Lemma trie_inv_has label t i :
  trie_inv label t →
  (is_Some (map_get i (DAFSA.nodes t)) ↔ ∃ k, k < DAFSA.nextId t ∧ i = DAFSA.newId k).
Proof.
  intros Hinv. rewrite <-elem_of_newIds, <-(ti_keys _ _ Hinv).
  rewrite <-map_has_true. unfold map_has. by rewrite bool_decide_eq_true.
Qed.

(** One character of a word: the child exists already, or a fresh node is
    made for it and labelled by the path read so far. *)
Lemma insert_char_ok label t ws v ch :
  trie_inv label t → trie_words label t ws →
  is_Some (map_get v (DAFSA.nodes t)) →
  ∃ label',
    trie_inv label' (DAFSA.insert_char (t, v) ch).1
    ∧ trie_words label' (DAFSA.insert_char (t, v) ch).1 ws
    ∧ extends t (DAFSA.insert_char (t, v) ch).1
    ∧ is_Some (map_get (DAFSA.insert_char (t, v) ch).2
                 (DAFSA.nodes (DAFSA.insert_char (t, v) ch).1))
    ∧ label' (DAFSA.insert_char (t, v) ch).2 = label v ++ [ch]
    ∧ label' v = label v
    ∧ walk (DAFSA.nodes (DAFSA.insert_char (t, v) ch).1) v [ch]
      = Some (DAFSA.insert_char (t, v) ch).2.
Proof.
  intros Hinv Hwords [nv Hv].
  destruct t as [nid nds]. unfold DAFSA.insert_char. simpl in *.
  assert (DAFSA.ensureNode v nds = nds) as ->.
  { unfold DAFSA.ensureNode, map_has. by rewrite bool_decide_eq_true_2 by eauto. }
  rewrite Hv. simpl.
  destruct (DAFSA.edges nv !! ch) as [j|] eqn:Hj.
  - (* the edge exists *)
    destruct (ti_edge _ _ Hinv _ _ _ _ Hv Hj) as [(k & Hk & ->) Hlab].
    rewrite newId_truthy. simpl.
    assert (is_Some (map_get (DAFSA.newId k) nds)) as Hin.
    { apply (trie_inv_has label {| DAFSA.nextId := nid; DAFSA.nodes := nds |}); eauto. }
    assert (DAFSA.ensureNode (DAFSA.newId k) nds = nds) as ->.
    { unfold DAFSA.ensureNode, map_has. by rewrite bool_decide_eq_true_2. }
    exists label. split_and!; try done.
    + apply extends_refl.
    + rewrite Hv. simpl. by rewrite Hj.
  - (* a fresh node *)
    simpl. set (next := DAFSA.newId nid).
    set (nv' := {| DAFSA.node_id := DAFSA.node_id nv;
                   DAFSA.edges := <[ch := next]> (DAFSA.edges nv);
                   DAFSA.final := DAFSA.final nv |}).
    set (fresh := {| DAFSA.node_id := next; DAFSA.edges := ∅; DAFSA.final := false |}).
    unfold DAFSA.set_edge. rewrite Hv. fold nv'.
    assert (∀ i, map_get i nds = None ↔ ¬ ∃ k, k < nid ∧ i = DAFSA.newId k) as Hnone.
    { intros i.
      rewrite <-(trie_inv_has label {| DAFSA.nextId := nid; DAFSA.nodes := nds |}) by done.
      simpl. rewrite <-not_eq_None_Some. destruct (map_get i nds); naive_solver. }
    assert (map_get next nds = None) as Hnext.
    { apply Hnone. intros (k & Hk & Heq). apply newId_inj in Heq. lia. }
    assert (v ≠ next) as Hvn by (intros ->; congruence).
    assert (DAFSA.ensureNode next (map_set v nv' nds)
            = map_set next fresh (map_set v nv' nds)) as ->.
    { unfold DAFSA.ensureNode, map_has. rewrite bool_decide_eq_false_2; [done|].
      rewrite map_get_set, decide_False by done. rewrite Hnext. by intros [? ?]. }
    assert (∀ i, map_get i (map_set next fresh (map_set v nv' nds))
                 = if decide (i = next) then Some fresh
                   else if decide (i = v) then Some nv' else map_get i nds) as Hget.
    { intros i. by rewrite !map_get_set. }
    assert (extends {| DAFSA.nextId := nid; DAFSA.nodes := nds |}
              {| DAFSA.nextId := S nid;
                 DAFSA.nodes := map_set next fresh (map_set v nv' nds) |}) as Hext.
    { split; simpl.
      - intros i' n' Hn'. rewrite Hget.
        assert (i' ≠ next) by (intros ->; congruence).
        rewrite decide_False by done.
        destruct (decide (i' = v)) as [->|]; [|eauto].
        exists nv'. rewrite Hv in Hn'. injection Hn' as <-. split_and!; [done..|].
        intros c j Hc. simpl. destruct (decide (ch = c)) as [<-|]; [congruence|].
        by rewrite lookup_insert_ne.
      - intros i' n'. rewrite Hget. intros Hnn.
        destruct (decide (i' = next)); [by intros [= <-]|].
        destruct (decide (i' = v)) as [->|]; congruence. }
    exists (λ i, if decide (i = next) then label v ++ [ch] else label i).
    split_and!.
    + split; cbn [DAFSA.nodes DAFSA.nextId].
      * rewrite map_keys_set_new, map_keys_set_old.
        -- pose proof (ti_keys _ _ Hinv) as Hkeys. simpl in Hkeys.
           rewrite Hkeys. by rewrite seq_S, fmap_app.
        -- apply map_has_true. unfold map_has. by rewrite bool_decide_eq_true_2 by eauto.
        -- rewrite map_keys_set_old.
           ++ apply map_get_None, Hnext.
           ++ apply map_has_true. unfold map_has. by rewrite bool_decide_eq_true_2 by eauto.
      * lia.
      * intros i n. rewrite Hget. repeat case_decide; subst.
        -- by intros [= <-].
        -- intros [= <-]. simpl. by apply (ti_id _ _ Hinv).
        -- apply (ti_id _ _ Hinv).
      * intros i n c j. rewrite Hget.
        destruct (decide (i = next)) as [->|Hi]; [by intros [= <-]|].
        assert (∀ j', (∃ k, k < nid ∧ j' = DAFSA.newId k) → j' ≠ next) as Hold.
        { intros j' (k & Hk & ->) Heq. apply newId_inj in Heq. lia. }
        destruct (decide (i = v)) as [->|Hiv].
        -- intros [= <-]. simpl. destruct (decide (ch = c)) as [<-|Hc].
           ++ rewrite lookup_insert_eq. intros [= <-]. rewrite decide_True by done.
              split; [exists nid; split; [lia|done]|done].
           ++ rewrite lookup_insert_ne by done. intros Hj'.
              destruct (ti_edge _ _ Hinv _ _ _ _ Hv Hj') as [Hk Hlab]. simpl in Hk.
              rewrite decide_False by auto. split; [|done].
              destruct Hk as (k & ? & ?). exists k. split; [lia|done].
        -- intros Hn Hj'.
           destruct (ti_edge _ _ Hinv _ _ _ _ Hn Hj') as [Hk Hlab]. simpl in Hk.
           rewrite decide_False by auto. split; [|done].
           destruct Hk as (k & ? & ?). exists k. split; [lia|done].
      * intros i n c j. rewrite Hget.
        destruct (decide (i = next)) as [->|Hi]; [by intros [= <-]|].
        destruct (decide (i = v)) as [->|Hiv]; [|apply (ti_order _ _ Hinv)].
        intros [= <-]. simpl. destruct (decide (ch = c)) as [<-|Hc].
        -- rewrite lookup_insert_eq. intros [= <-].
           destruct (proj1 (trie_inv_has label {| DAFSA.nextId := nid; DAFSA.nodes := nds |}
                              v Hinv)) as (kv & Hkv & ->); [eauto|].
           exists kv, nid. done.
        -- rewrite lookup_insert_ne by done. by apply (ti_order _ _ Hinv).
      * rewrite decide_False; [apply (ti_root _ _ Hinv)|].
        intros Heq. apply newId_inj in Heq. pose proof (ti_pos _ _ Hinv). simpl in *. lia.
    + destruct Hwords as [Hfin Hall]. split; simpl.
      * intros i n. rewrite Hget.
        destruct (decide (i = next)) as [->|Hi]; [by intros [= <-]|].
        destruct (decide (i = v)) as [->|Hiv]; [intros [= <-]; simpl|]; eauto.
      * intros w Hw. destruct (Hall _ Hw) as (i & n & Hwalk & Hn & Hf). simpl in *.
        assert (i ≠ next) as Hi by (intros ->; congruence).
        exists i. rewrite Hget, !decide_False by done.
        destruct (decide (i = v)) as [->|].
        -- exists nv'. rewrite Hv in Hn. injection Hn as <-.
           split_and!; [|done..]. by apply (walk_extends _ _ _ _ _ Hext) in Hwalk.
        -- exists n. split_and!; [|done..]. by apply (walk_extends _ _ _ _ _ Hext) in Hwalk.
    + exact Hext.
    + rewrite Hget, decide_True by done. eauto.
    + by rewrite decide_True.
    + by rewrite decide_False.
    + rewrite Hget, decide_False, decide_True by done. simpl.
      by rewrite lookup_insert_eq.
Qed.

Lemma insert_chars_ok (cs : list string) : ∀ label t ws v p,
  trie_inv label t → trie_words label t ws →
  is_Some (map_get v (DAFSA.nodes t)) → label v = p →
  walk (DAFSA.nodes t) (DAFSA.newId 0) p = Some v →
  ∃ label',
    trie_inv label' (foldl DAFSA.insert_char (t, v) cs).1
    ∧ trie_words label' (foldl DAFSA.insert_char (t, v) cs).1 ws
    ∧ is_Some (map_get (foldl DAFSA.insert_char (t, v) cs).2
                 (DAFSA.nodes (foldl DAFSA.insert_char (t, v) cs).1))
    ∧ label' (foldl DAFSA.insert_char (t, v) cs).2 = p ++ cs
    ∧ walk (DAFSA.nodes (foldl DAFSA.insert_char (t, v) cs).1) (DAFSA.newId 0) (p ++ cs)
      = Some (foldl DAFSA.insert_char (t, v) cs).2.
Proof.
  induction cs as [|ch cs IH]; intros label t ws v p Hinv Hwords Hv Hlab Hwalk.
  - exists label. simpl. rewrite app_nil_r. done.
  - change (foldl DAFSA.insert_char (t, v) (ch :: cs))
      with (foldl DAFSA.insert_char (DAFSA.insert_char (t, v) ch) cs).
    destruct (insert_char_ok label t ws v ch Hinv Hwords Hv)
      as (label1 & Hinv1 & Hwords1 & Hext & Hv1 & Hlab1 & _ & Hstep).
    destruct (DAFSA.insert_char (t, v) ch) as [t1 v1]. simpl in *.
    assert (walk (DAFSA.nodes t1) (DAFSA.newId 0) (p ++ [ch]) = Some v1) as Hwalk1.
    { rewrite walk_app, (walk_extends _ _ _ _ _ Hext Hwalk). done. }
    destruct (IH label1 t1 ws v1 (p ++ [ch]) Hinv1 Hwords1 Hv1) as (label' & H');
      [by rewrite Hlab1, Hlab|done|].
    exists label'. rewrite <-!app_assoc in H'. exact H'.
Qed.

Lemma walk_set_final nodes v nv nvf : ∀ cs s,
  map_get v nodes = Some nv → DAFSA.edges nvf = DAFSA.edges nv →
  walk (map_set v nvf nodes) s cs = walk nodes s cs.
Proof.
  intros cs s Hv Hedges. revert s. induction cs as [|ch cs IH]; intros s; simpl; [done|].
  rewrite map_get_set. case_decide as Hs; [subst; rewrite Hv; simpl|].
  - rewrite Hedges. destruct (DAFSA.edges nv !! ch); simpl; auto.
  - destruct (map_get s nodes) as [n|]; simpl; [|done].
    destruct (DAFSA.edges n !! ch); simpl; auto.
Qed.

(** One word: its path is made, node by node, and its last node is marked. *)
Lemma insert_word_ok label t ws w :
  trie_inv label t → trie_words label t ws →
  ∃ label',
    trie_inv label' (DAFSA.insert_word (DAFSA.newId 0) t w)
    ∧ trie_words label' (DAFSA.insert_word (DAFSA.newId 0) t w) (ws ++ [w]).
Proof.
  intros Hinv Hwords. unfold DAFSA.insert_word.
  destruct (insert_chars_ok (chars w) label t ws (DAFSA.newId 0) [] Hinv Hwords)
    as (label' & Hinv' & Hwords' & [nv Hv] & Hlab & Hwalk).
  { apply (trie_inv_has label t); [done|]. exists 0. split; [apply (ti_pos _ _ Hinv)|done]. }
  { apply (ti_root _ _ Hinv). }
  { done. }
  destruct (foldl DAFSA.insert_char (t, DAFSA.newId 0) (chars w)) as [t' v].
  simpl in *. unfold DAFSA.set_final. rewrite Hv.
  set (nvf := {| DAFSA.node_id := DAFSA.node_id nv; DAFSA.edges := DAFSA.edges nv;
                 DAFSA.final := true |}).
  assert (v ∈ map_keys (DAFSA.nodes t')) as Hvk.
  { apply map_has_true. unfold map_has. by rewrite bool_decide_eq_true_2 by eauto. }
  exists label'. split.
  - split; cbn [DAFSA.nodes DAFSA.nextId].
    + rewrite map_keys_set_old by done. apply (ti_keys _ _ Hinv').
    + apply (ti_pos _ _ Hinv').
    + intros i n. rewrite map_get_set. case_decide; [subst; intros [= <-]; simpl|].
      * by apply (ti_id _ _ Hinv').
      * apply (ti_id _ _ Hinv').
    + intros i n ch j. rewrite map_get_set. case_decide; [subst; intros [= <-]; simpl|].
      * by apply (ti_edge _ _ Hinv').
      * apply (ti_edge _ _ Hinv').
    + intros i n ch j. rewrite map_get_set. case_decide; [subst; intros [= <-]; simpl|].
      * by apply (ti_order _ _ Hinv').
      * apply (ti_order _ _ Hinv').
    + apply (ti_root _ _ Hinv').
  - destruct Hwords' as [Hfin Hall]. split; cbn [DAFSA.nodes DAFSA.nextId].
    + intros i n. rewrite map_get_set. case_decide as Hi.
      * subst. intros _ _. exists w. split; [apply elem_of_app; right; left|done].
      * intros Hn Hf. destruct (Hfin _ _ Hn Hf) as (w0 & ? & ?).
        exists w0. split; [apply elem_of_app; by left|done].
    + intros w0 [Hw0| ->%list_elem_of_singleton]%elem_of_app.
      * destruct (Hall _ Hw0) as (i & n & Hwalk0 & Hn & Hf).
        exists i. rewrite (walk_set_final _ _ nv nvf) by done.
        rewrite map_get_set. case_decide; [subst; exists nvf|exists n]; done.
      * exists v, nvf. rewrite (walk_set_final _ _ nv nvf) by done.
        rewrite map_get_set, decide_True by done. done.
Qed.

Lemma insert_words_ok (ws2 : list string) : ∀ label t ws1,
  trie_inv label t → trie_words label t ws1 →
  ∃ label',
    trie_inv label' (foldl (DAFSA.insert_word (DAFSA.newId 0)) t ws2)
    ∧ trie_words label' (foldl (DAFSA.insert_word (DAFSA.newId 0)) t ws2) (ws1 ++ ws2).
Proof.
  induction ws2 as [|w ws2 IH]; intros label t ws1 Hinv Hwords; simpl.
  - exists label. by rewrite app_nil_r.
  - destruct (insert_word_ok label t ws1 w Hinv Hwords) as (label1 & Hinv1 & Hwords1).
    destruct (IH _ _ _ Hinv1 Hwords1) as (label' & H').
    exists label'. by rewrite <-app_assoc in H'.
Qed.

(** The trie that [buildTrieDFA] has after the insertion loop. *)
Lemma built_trie_ok (ws : list string) :
  ∃ label,
    trie_inv label
      (foldl (DAFSA.insert_word (DAFSA.newId 0))
         {| DAFSA.nextId := 1; DAFSA.nodes := DAFSA.ensureNode (DAFSA.newId 0) [] |} ws)
    ∧ trie_words label
        (foldl (DAFSA.insert_word (DAFSA.newId 0))
           {| DAFSA.nextId := 1; DAFSA.nodes := DAFSA.ensureNode (DAFSA.newId 0) [] |} ws)
        ws.
Proof.
  apply (insert_words_ok ws (λ _, []) _ []).
  - split; cbn; try done.
    + lia.
    + intros i n. case_decide; [by intros [= <-]|done].
    + intros i n ch j. case_decide; [intros [= <-]; simpl|done].
      by rewrite lookup_empty.
    + intros i n ch j. case_decide; [intros [= <-]; simpl|done].
      by rewrite lookup_empty.
  - split; cbn.
    + intros i n. case_decide; [by intros [= <-]|done].
    + by intros w ?%elem_of_nil.
Qed.

Lemma trie_inv_nodup label t : trie_inv label t → NoDup (map_keys (DAFSA.nodes t)).
Proof. intros Hinv. rewrite (ti_keys _ _ Hinv). apply NoDup_newIds. Qed.

Lemma trie_transitions_lookup (nodes : list (string * DAFSA.node)) i :
  NoDup (map_keys nodes) →
  (∀ k n, (k, n) ∈ nodes → DAFSA.node_id n = k) →
  DAFSA.trie_transitions (map_values nodes) !! i
  = (λ n, (λ to, [Some to]) <$> DAFSA.edges n) <$> map_get i nodes.
Proof.
  unfold DAFSA.trie_transitions, map_values, map_keys.
  induction nodes as [|[k n] nodes IH] using rev_ind; intros Hnd Hid.
  - simpl. by rewrite lookup_empty.
  - rewrite fmap_app, foldl_app. simpl. rewrite fmap_app in Hnd.
    apply NoDup_app in Hnd as (Hnd & Hk & _).
    rewrite (Hid k n) by (apply elem_of_app; right; left).
    rewrite map_get_app. simpl.
    destruct (decide (i = k)) as [->|Hne].
    + rewrite lookup_insert_eq.
      assert (map_get k nodes = None) as ->; [|done].
      apply map_get_None. intros Hin. apply (Hk _ Hin). left.
    + rewrite lookup_insert_ne by done. rewrite IH; [|done|].
      * by destruct (map_get i nodes).
      * intros k' n' Hin. apply Hid, elem_of_app. by left.
Qed.

Lemma trie_lookup label t i :
  trie_inv label t →
  DAFSA.trie_transitions (map_values (DAFSA.nodes t)) !! i
  = (λ n, (λ to, [Some to]) <$> DAFSA.edges n) <$> map_get i (DAFSA.nodes t).
Proof.
  intros Hinv. apply trie_transitions_lookup; [by eapply trie_inv_nodup|].
  intros k n Hin. apply (ti_id _ _ Hinv).
  apply map_get_of_elem; [by eapply trie_inv_nodup|done].
Qed.

Lemma trie_accept label t i :
  trie_inv label t →
  i ∈ DAFSA.node_id <$> filter (λ n, DAFSA.final n = true) (map_values (DAFSA.nodes t))
  ↔ ∃ n, map_get i (DAFSA.nodes t) = Some n ∧ DAFSA.final n = true.
Proof.
  intros Hinv. rewrite list_elem_of_fmap. unfold map_values. split.
  - intros (n & -> & [Hf Hn]%list_elem_of_filter).
    apply list_elem_of_fmap in Hn as ([k n'] & -> & Hin). simpl in *.
    apply map_get_of_elem in Hin; [|by eapply trie_inv_nodup].
    rewrite (ti_id _ _ Hinv _ _ Hin). eauto.
  - intros (n & Hn & Hf). exists n. split; [by rewrite (ti_id _ _ Hinv _ _ Hn)|].
    apply list_elem_of_filter. split; [done|].
    apply list_elem_of_fmap. exists (i, n). split; [done|]. by apply map_get_elem.
Qed.

Lemma includes_Some (s : string) (arr : list string) : includes (Some s) arr = true ↔ s ∈ arr.
Proof.
  unfold includes. rewrite bool_decide_eq_true, list_elem_of_fmap. split.
  - by intros (y & [= ->] & ?).
  - eauto.
Qed.

(** Running the built automaton is walking the trie. *)
Lemma run_walk label t (dfa : Automaton) (cs : list string) :
  trie_inv label t →
  transitions dfa = DAFSA.trie_transitions (map_values (DAFSA.nodes t)) →
  accept dfa = DAFSA.node_id <$> filter (λ n, DAFSA.final n = true)
                                   (map_values (DAFSA.nodes t)) →
  ∀ v, accepted (DAFSA.run dfa (Some v) cs) = true
       ↔ ∃ i n, walk (DAFSA.nodes t) v cs = Some i
                ∧ map_get i (DAFSA.nodes t) = Some n ∧ DAFSA.final n = true.
Proof.
  intros Hinv Htr Hacc. induction cs as [|ch cs IH]; intros v; simpl.
  - rewrite includes_Some, Hacc, (trie_accept label) by done. split.
    + intros (n & ? & ?). eauto.
    + intros (i & n & [= <-] & ? & ?). eauto.
  - rewrite Htr, (trie_lookup label) by done.
    destruct (map_get v (DAFSA.nodes t)) as [n|]; simpl.
    + rewrite lookup_fmap. destruct (DAFSA.edges n !! ch) as [j|]; simpl; [apply IH|].
      split; [done|]. by intros (? & ? & ? & _).
    + split; [done|]. by intros (? & ? & ? & _).
Qed.

Lemma first_foreign_ext (alpha alpha' : list string) (cs : list string) :
  (∀ x, x ∈ alpha ↔ x ∈ alpha') → first_foreign alpha cs = first_foreign alpha' cs.
Proof.
  intros Heq. induction cs as [|ch cs IH]; simpl; [done|].
  unfold set_has. rewrite (bool_decide_ext _ _ (Heq ch)). by rewrite IH.
Qed.

Lemma first_foreign_None (alpha : list string) (cs : list string) :
  first_foreign alpha cs = None ↔ ∀ ch, ch ∈ cs → ch ∈ alpha.
Proof.
  induction cs as [|ch cs IH]; simpl.
  - split; [|done]. by intros _ ch ?%elem_of_nil.
  - unfold set_has. case_bool_decide as Hch.
    + rewrite IH. split.
      * intros Hall x [->|?]%elem_of_cons; auto.
      * intros Hall x Hx. apply Hall. by right.
    + split; [done|]. intros Hall. destruct Hch. apply Hall. left.
Qed.

Lemma check_words_None (alpha : list string) (ws : list string) :
  DAFSA.check_words alpha ws = None
  ↔ ∀ w, w ∈ ws → first_foreign alpha (chars w) = None.
Proof.
  induction ws as [|w ws IH]; simpl.
  - split; [|done]. by intros _ w ?%elem_of_nil.
  - destruct (first_foreign alpha (chars w)) eqn:Hw.
    + split; [done|]. intros Hall. rewrite Hall in Hw; [done|left].
    + rewrite IH. split.
      * intros Hall x [->|?]%elem_of_cons; auto.
      * intros Hall x Hx. apply Hall. by right.
Qed.

(** What [buildTrieDFA] returns on a language that passes its checks. *)
Lemma buildTrieDFA_built (L : DAFSA.language) :
  DAFSA.lang_alphabet L ≠ [] →
  (∀ w ch, w ∈ DAFSA.lang_accept L → ch ∈ chars w → ch ∈ DAFSA.lang_alphabet L) →
  ∃ label t dfa,
    DAFSA.buildTrieDFA L = inr dfa
    ∧ trie_inv label t ∧ trie_words label t (DAFSA.lang_accept L)
    ∧ alphabet dfa = new_Set (DAFSA.lang_alphabet L)
    ∧ states dfa = map_keys (DAFSA.nodes t)
    ∧ start dfa = Some (DAFSA.newId 0)
    ∧ accept dfa = DAFSA.node_id <$> filter (λ n, DAFSA.final n = true)
                                       (map_values (DAFSA.nodes t))
    ∧ transitions dfa = DAFSA.trie_transitions (map_values (DAFSA.nodes t)).
Proof.
  intros Hne Hwords. unfold DAFSA.buildTrieDFA.
  rewrite bool_decide_eq_false_2 by (by destruct (DAFSA.lang_alphabet L)).
  assert (DAFSA.check_words (new_Set (DAFSA.lang_alphabet L)) (DAFSA.lang_accept L) = None)
    as ->.
  { apply check_words_None. intros w Hw. apply first_foreign_None.
    intros ch Hch. apply elem_of_new_Set. eauto. }
  destruct (built_trie_ok (DAFSA.lang_accept L)) as (label & Hinv & Hws).
  eexists label, _, _. split; [done|]. split_and!; done.
Qed.

(** C2. For a language whose alphabet is not empty and whose words use
    alphabet symbols only, [buildTrieDFA] returns an automaton that accepts a
    string exactly when it is one of the words; with the empty word among them
    the start state (the root) is an accept state. *)
Theorem trie_accepts_exactly_the_words (L : DAFSA.language) :
  DAFSA.lang_alphabet L ≠ [] →
  (∀ w ch, w ∈ DAFSA.lang_accept L → ch ∈ chars w → ch ∈ DAFSA.lang_alphabet L) →
  ∃ dfa,
    DAFSA.buildTrieDFA L = inr dfa
    ∧ (∀ w, accepted (DAFSA.accepts dfa w) = true ↔ w ∈ DAFSA.lang_accept L)
    ∧ ("" ∈ DAFSA.lang_accept L →
       ∃ root, start dfa = Some root ∧ root ∈ accept dfa).
Proof.
  intros Hne Hwords.
  destruct (buildTrieDFA_built L Hne Hwords)
    as (label & t & dfa & -> & Hinv & [Hfin Hall] & Halpha & _ & Hstart & Hacc & Htr).
  exists dfa. split; [done|]. split.
  - intros w. unfold DAFSA.accepts. rewrite Hstart.
    rewrite (first_foreign_ext _ (DAFSA.lang_alphabet L))
      by (intros x; by rewrite Halpha, !elem_of_new_Set).
    destruct (first_foreign (DAFSA.lang_alphabet L) (chars w)) as [ch|] eqn:Hff.
    + split; [done|]. intros Hw.
      assert (first_foreign (DAFSA.lang_alphabet L) (chars w) = None) as Hn
        by (apply first_foreign_None; eauto).
      congruence.
    + rewrite (run_walk label t) by done. split.
      * intros (i & n & Hwalk & Hn & Hf).
        destruct (Hfin _ _ Hn Hf) as (w0 & Hw0 & Hlab).
        apply (walk_label label t) in Hwalk; [|done].
        rewrite (ti_root _ _ Hinv) in Hwalk. simpl in Hwalk.
        rewrite Hwalk in Hlab. by apply chars_inj in Hlab as ->.
      * apply Hall.
  - intros Hempty. exists (DAFSA.newId 0). split; [done|].
    destruct (Hall _ Hempty) as (i & n & [= <-] & Hn & Hf).
    rewrite Hacc. apply (trie_accept label); eauto.
Qed.

Lemma words_over_alphabet (alpha ws : list string) :
  Forall (λ w, first_foreign alpha (chars w) = None) ws →
  ∀ w ch, w ∈ ws → ch ∈ chars w → ch ∈ alpha.
Proof.
  intros Hall w ch Hw Hch. rewrite Forall_forall in Hall.
  by apply (first_foreign_None alpha (chars w)); [apply Hall|].
Qed.

Lemma trie_example :
  ∃ dfa,
    DAFSA.buildTrieDFA example_language = inr dfa
    ∧ (∀ w, accepted (DAFSA.accepts dfa w) = true
            ↔ w ∈ DAFSA.lang_accept example_language)
    ∧ ("" ∈ DAFSA.lang_accept example_language →
       ∃ root, start dfa = Some root ∧ root ∈ accept dfa).
Proof.
  apply (trie_accepts_exactly_the_words example_language).
  - discriminate.
  - apply words_over_alphabet. apply (bool_decide_unpack _). vm_compute. exact I.
Defined.

(** The trie automaton refers to its own states only. *)
Lemma buildTrieDFA_integrity (L : DAFSA.language) :
  DAFSA.lang_alphabet L ≠ [] →
  (∀ w ch, w ∈ DAFSA.lang_accept L → ch ∈ chars w → ch ∈ DAFSA.lang_alphabet L) →
  ∃ dfa, DAFSA.buildTrieDFA L = inr dfa ∧ referential_integrity dfa.
Proof.
  intros Hne Hwords.
  destruct (buildTrieDFA_built L Hne Hwords)
    as (label & t & dfa & -> & Hinv & _ & _ & Hst & Hstart & Hacc & Htr).
  assert (∀ i, i ∈ states dfa ↔ is_Some (map_get i (DAFSA.nodes t))) as Hin.
  { intros i. rewrite Hst, <-map_has_true. unfold map_has. by rewrite bool_decide_eq_true. }
  exists dfa. split; [done|]. split_and!.
  - exists (DAFSA.newId 0). split; [done|]. apply Hin, (trie_inv_has label t); [done|].
    exists 0. split; [apply (ti_pos _ _ Hinv)|done].
  - intros s. rewrite Hacc, (trie_accept label), Hin by done. intros (n & -> & _). eauto.
  - intros s row. rewrite Htr, (trie_lookup label) by done.
    destruct (map_get s (DAFSA.nodes t)) as [n|] eqn:Hn; simpl; [|done].
    intros [= <-]. split; [apply Hin; eauto|].
    intros ch arr q. rewrite lookup_fmap.
    destruct (DAFSA.edges n !! ch) as [j|] eqn:Hj; simpl; [|done].
    intros [= <-] ->%list_elem_of_singleton. exists j. split; [done|].
    apply Hin, (trie_inv_has label t); [done|].
    by destruct (ti_edge _ _ Hinv _ _ _ _ Hn Hj) as [? _].
Qed.

(** ** The minimiser *)

Section Signatures.
Variable dfa : Automaton.

Lemma sig_parts_mono (sig sig' : ident → gmap ident string → option (string * gmap ident string))
    edges (syms : list string) :
  (∀ q memo r, sig q memo = Some r → sig' q memo = Some r) →
  ∀ memo r, DAFSA.sig_parts sig edges syms memo = Some r →
            DAFSA.sig_parts sig' edges syms memo = Some r.
Proof.
  intros Hsig. induction syms as [|a syms IH]; intros memo r; simpl; [done|].
  destruct (sig _ memo) as [[sg memo1]|] eqn:Hs; simpl; [|done].
  rewrite (Hsig _ _ _ Hs). simpl.
  destruct (DAFSA.sig_parts sig edges syms memo1) as [[parts memo2]|] eqn:Hp; simpl; [|done].
  by rewrite (IH _ _ Hp).
Qed.

(** More fuel does not change what [sig] returns. *)
Lemma sig_fuel_mono fuel : ∀ fuel' s memo r,
  fuel ≤ fuel' → DAFSA.sig_fuel fuel dfa s memo = Some r →
  DAFSA.sig_fuel fuel' dfa s memo = Some r.
Proof.
  induction fuel as [|fuel IH]; intros fuel' s memo r Hle; simpl; [done|].
  destruct fuel' as [|fuel']; [lia|]. simpl.
  destruct (memo !! s); [done|].
  destruct (DAFSA.sig_parts (DAFSA.sig_fuel fuel dfa) _ _ memo) as [[parts memo']|] eqn:Hp;
    simpl; [|done].
  rewrite (sig_parts_mono _ (DAFSA.sig_fuel fuel' dfa) _ _ (λ q m r, IH fuel' q m r ltac:(lia))
             _ _ Hp).
  done.
Qed.

Lemma sig_all_mono fuel fuel' (ss : list string) : ∀ memo r,
  fuel ≤ fuel' → DAFSA.sig_all fuel dfa ss memo = Some r →
  DAFSA.sig_all fuel' dfa ss memo = Some r.
Proof.
  induction ss as [|s ss IH]; intros memo r Hle; simpl; [done|].
  destruct (DAFSA.sig_fuel fuel dfa (Some s) memo) as [[sg memo1]|] eqn:Hs; simpl; [|done].
  rewrite (sig_fuel_mono _ _ _ _ _ Hle Hs). simpl. by apply IH.
Qed.

Lemma minimize_fuel_mono fuel fuel' m :
  fuel ≤ fuel' → DAFSA.minimize_fuel_own fuel dfa = Some m →
  DAFSA.minimize_fuel_own fuel' dfa = Some m.
Proof.
  intros Hle. unfold DAFSA.minimize_fuel_own.
  destruct (DAFSA.sig_all fuel dfa (states dfa) ∅) as [memo|] eqn:Hm; simpl; [|done].
  by rewrite (sig_all_mono _ _ _ _ _ Hle Hm).
Qed.

(** The call returns one automaton, whatever the depth allowed. *)
Lemma minimizeAcyclicDFA_unique m m' :
  DAFSA.minimizeAcyclicDFA_own dfa m → DAFSA.minimizeAcyclicDFA_own dfa m' → m = m'.
Proof.
  intros [f Hf] [f' Hf'].
  apply (minimize_fuel_mono _ (f `max` f')) in Hf; [|lia].
  apply (minimize_fuel_mono _ (f `max` f')) in Hf'; [|lia].
  congruence.
Qed.

Lemma signature_parts_mono (sig sig' : ident → option string) edges (syms : list string) :
  (∀ q r, sig q = Some r → sig' q = Some r) →
  ∀ r, signature_parts sig edges syms = Some r → signature_parts sig' edges syms = Some r.
Proof.
  intros Hsig. induction syms as [|a syms IH]; intros r; simpl; [done|].
  destruct (sig _) as [sg|] eqn:Hs; simpl; [|done].
  rewrite (Hsig _ _ Hs). simpl.
  destruct (signature_parts sig edges syms) as [parts|] eqn:Hp; simpl; [|done].
  by rewrite (IH _ eq_refl).
Qed.

Lemma signature_at_mono fuel : ∀ fuel' s sg,
  fuel ≤ fuel' → signature_at fuel dfa s = Some sg → signature_at fuel' dfa s = Some sg.
Proof.
  induction fuel as [|fuel IH]; intros fuel' s sg Hle; simpl; [done|].
  destruct fuel' as [|fuel']; [lia|]. simpl.
  destruct (signature_parts (signature_at fuel dfa) _ _) as [parts|] eqn:Hp; simpl; [|done].
  by rewrite (signature_parts_mono _ (signature_at fuel' dfa) _ _
                (λ q r, IH fuel' q r ltac:(lia)) _ Hp).
Qed.

Lemma signature_at_unique fuel fuel' s sg sg' :
  signature_at fuel dfa s = Some sg → signature_at fuel' dfa s = Some sg' → sg = sg'.
Proof.
  intros H H'.
  apply (signature_at_mono _ (fuel `max` fuel')) in H; [|lia].
  apply (signature_at_mono _ (fuel `max` fuel')) in H'; [|lia].
  congruence.
Qed.
End Signatures.

Section Memo.
Variable dfa : Automaton.

Lemma memo_ok_insert memo s sg fuel :
  memo_ok dfa memo → signature_at fuel dfa s = Some sg → memo_ok dfa (<[s := sg]> memo).
Proof.
  intros Hok Hsg q sg'. destruct (decide (s = q)) as [<-|Hne].
  - rewrite lookup_insert_eq. intros [= <-]. eauto.
  - rewrite lookup_insert_ne by done. apply Hok.
Qed.

Lemma memo_insert_subseteq memo s sg fuel :
  memo_ok dfa memo → signature_at fuel dfa s = Some sg → memo ⊆ <[s := sg]> memo.
Proof.
  intros Hok Hsg. destruct (memo !! s) as [sg'|] eqn:Hs.
  - destruct (Hok _ _ Hs) as [fuel' Hsg'].
    rewrite (signature_at_unique dfa _ _ _ _ _ Hsg Hsg'). by rewrite insert_id.
  - by apply insert_subseteq.
Qed.

(** The memo table only caches: with a table of signatures, [sig] returns
    the signature of the state and leaves a table of signatures. *)
Lemma sig_fuel_complete fuel : ∀ s memo sg,
  signature_at fuel dfa s = Some sg → memo_ok dfa memo →
  ∃ memo', DAFSA.sig_fuel fuel dfa s memo = Some (sg, memo')
           ∧ memo_ok dfa memo' ∧ memo ⊆ memo' ∧ memo' !! s = Some sg.
Proof.
  induction fuel as [|fuel IH]; intros s memo sg Hsg Hok; [done|].
  simpl. destruct (memo !! s) as [sg0|] eqn:Hhit.
  - destruct (Hok _ _ Hhit) as [fuel0 Hsg0].
    assert (sg0 = sg) as -> by (by eapply signature_at_unique).
    exists memo. split_and!; done.
  - pose proof Hsg as Hsg'. simpl in Hsg.
    set (edges := default ∅ (transitions dfa !! propKey s)) in *.
    destruct (signature_parts (signature_at fuel dfa) edges (DAFSA.sorted_keys edges))
      as [parts|] eqn:Hparts; simpl in Hsg; [|done].
    injection Hsg as <-.
    assert (∀ syms memo0 parts0,
      signature_parts (signature_at fuel dfa) edges syms = Some parts0 →
      memo_ok dfa memo0 →
      ∃ memo', DAFSA.sig_parts (DAFSA.sig_fuel fuel dfa) edges syms memo0
               = Some (parts0, memo')
               ∧ memo_ok dfa memo' ∧ memo0 ⊆ memo') as Hall.
    { induction syms as [|a syms IHs]; intros memo0 parts0; simpl.
      - intros [= <-] Hok0. eauto.
      - destruct (signature_at fuel dfa _) as [sga|] eqn:Hsga; simpl; [|done].
        destruct (signature_parts _ edges syms) as [ps|] eqn:Hps; simpl; [|done].
        intros [= <-] Hok0.
        destruct (IH _ _ _ Hsga Hok0) as (memo1 & -> & Hok1 & Hsub1 & _). simpl.
        destruct (IHs _ _ eq_refl Hok1) as (memo2 & -> & Hok2 & Hsub2). simpl.
        exists memo2. split_and!; [done..|]. by transitivity memo1. }
    destruct (Hall _ _ _ Hparts Hok) as (memo' & -> & Hok' & Hsub). simpl.
    eexists. split_and!; [done| | |apply lookup_insert_eq].
    + by eapply memo_ok_insert.
    + transitivity memo'; [done|]. by eapply memo_insert_subseteq.
Qed.

Lemma sig_all_complete fuel (ss : list string) : ∀ memo,
  (∀ s, s ∈ ss → is_Some (signature_at fuel dfa (Some s))) →
  memo_ok dfa memo →
  ∃ memo', DAFSA.sig_all fuel dfa ss memo = Some memo'
           ∧ memo_ok dfa memo' ∧ memo ⊆ memo'
           ∧ ∀ s, s ∈ ss → memo' !! Some s = signature_at fuel dfa (Some s).
Proof.
  induction ss as [|s ss IH]; intros memo Hss Hok; simpl.
  - exists memo. split_and!; [done..|]. by intros s ?%elem_of_nil.
  - destruct (Hss s) as [sg Hsg]; [left|].
    destruct (sig_fuel_complete _ _ _ _ Hsg Hok) as (memo1 & -> & Hok1 & Hsub1 & Hs1).
    simpl. destruct (IH memo1) as (memo' & -> & Hok' & Hsub' & Hall); [|done|].
    { intros s' Hs'. apply Hss. by right. }
    exists memo'. split_and!; [done..|by transitivity memo1|].
    intros s' [->|Hs']%elem_of_cons; [|auto].
    rewrite Hsg. by apply (lookup_weaken memo1).
Qed.
End Memo.

Section Reps.
Variable memo : gmap ident string.

Lemma assign_rep_inv seen acc s :
  reps_inv memo seen acc → reps_inv memo (seen ++ [s]) (DAFSA.assign_rep memo acc s).
Proof.
  destruct acc as [rep m2r]. intros [Hnd Hrep Hmap Hdom]. simpl in *.
  unfold DAFSA.assign_rep.
  set (k := memo !! Some s).
  destruct (map_has k rep) eqn:Hhas; simpl.
  - apply map_has_true in Hhas.
    destruct (map_get k rep) as [r|] eqn:Hr; [|by apply map_get_None in Hr].
    split; simpl; [done|..].
    + intros k' r' Hr'. destruct (Hrep _ _ Hr'). split; [|done].
      apply elem_of_app. by left.
    + intros s' [Hs'| ->%list_elem_of_singleton]%elem_of_app.
      * destruct (Hmap _ Hs') as (r' & Hm & Hg). exists r'. split; [|done].
        destruct (decide (s = s')) as [<-|].
        -- rewrite lookup_insert_eq. fold k in Hg. congruence.
        -- by rewrite lookup_insert_ne.
      * exists r. by rewrite lookup_insert_eq.
    + intros s'. destruct (decide (s = s')) as [<-|].
      * intros _. apply elem_of_app. right. left.
      * rewrite lookup_insert_ne by done. intros Hs'. apply elem_of_app. left. auto.
  - apply map_has_false in Hhas.
    assert (∀ k', map_get k' (map_set k s rep)
                  = if decide (k' = k) then Some s else map_get k' rep) as Hget
      by (intros; apply map_get_set).
    split; simpl.
    + rewrite map_keys_set_new by done. apply NoDup_app. split_and!; [done| |apply NoDup_singleton].
      intros k' Hk' ->%list_elem_of_singleton. done.
    + intros k' r'. rewrite Hget. case_decide as Hk.
      * intros [= <-]. split; [apply elem_of_app; right; left|by subst].
      * intros Hr'. destruct (Hrep _ _ Hr'). split; [|done]. apply elem_of_app. by left.
    + intros s' [Hs'| ->%list_elem_of_singleton]%elem_of_app.
      * destruct (Hmap _ Hs') as (r' & Hm & Hg). exists r'.
        assert (memo !! Some s' ≠ k) as Hne.
        { intros Heq. apply Hhas. rewrite <-Heq. apply map_has_true. unfold map_has.
          by rewrite bool_decide_eq_true_2 by eauto. }
        rewrite (Hget (memo !! Some s')), decide_False by done. split; [|done].
        destruct (decide (s = s')) as [<-|]; [done|]. by rewrite lookup_insert_ne.
      * exists s. rewrite lookup_insert_eq, !Hget. fold k.
        by rewrite !decide_True by done.
    + intros s'. destruct (decide (s = s')) as [<-|].
      * intros _. apply elem_of_app. right. left.
      * rewrite lookup_insert_ne by done. intros Hs'. apply elem_of_app. left. auto.
Qed.

Lemma assign_reps_inv (ss : list string) : ∀ seen acc,
  reps_inv memo seen acc → reps_inv memo (seen ++ ss) (foldl (DAFSA.assign_rep memo) acc ss).
Proof.
  induction ss as [|s ss IH]; intros seen acc Hinv; simpl.
  - by rewrite app_nil_r.
  - change (s :: ss) with ([s] ++ ss). rewrite (assoc_L (++)).
    by apply IH, assign_rep_inv.
Qed.

Lemma reps_inv_final (ss : list string) :
  reps_inv memo ss (foldl (DAFSA.assign_rep memo) ([], ∅) ss).
Proof.
  apply (assign_reps_inv ss [] ([], ∅)). split; simpl.
  - apply NoDup_nil_2.
  - done.
  - by intros s ?%elem_of_nil.
  - intros s. rewrite lookup_empty. by intros [? ?].
Qed.

(** When the signatures of the states are pairwise different, every state is
    its own representative. *)
Lemma assign_reps_distinct (ss : list string) : ∀ seen rep m2r,
  NoDup ((λ s, memo !! Some s) <$> (seen ++ ss)) →
  map_keys rep = (λ s, memo !! Some s) <$> seen →
  map_values rep = seen →
  map_values (foldl (DAFSA.assign_rep memo) (rep, m2r) ss).1 = seen ++ ss.
Proof.
  induction ss as [|s ss IH]; intros seen rep m2r Hnd Hkeys Hvals; simpl.
  - by rewrite app_nil_r.
  - assert (memo !! Some s ∉ map_keys rep) as Hnew.
    { rewrite Hkeys. rewrite fmap_app, fmap_cons in Hnd.
      apply NoDup_app in Hnd as (_ & Hnd & _). intros Hin. apply (Hnd _ Hin). left. }
    rewrite (proj2 (map_has_false _ _) Hnew). simpl.
    change (s :: ss) with ([s] ++ ss) in *. rewrite (assoc_L (++)). apply IH.
    + by rewrite <-(assoc_L (++)).
    + rewrite map_keys_set_new, Hkeys, fmap_app by done. done.
    + unfold map_values in *. rewrite map_set_absent, fmap_app, Hvals by done. done.
Qed.
End Reps.

Lemma new_Set_NoDup {A} `{EqDecision A} (l : list A) : NoDup l → new_Set l = l.
Proof.
  unfold new_Set. intros Hnd.
  assert (∀ s, NoDup (s ++ l) → set_add_all l s = s ++ l) as Hgen.
  { clear Hnd. induction l as [|x l IH]; intros s Hnd; simpl.
    - by rewrite app_nil_r.
    - unfold set_add_all in *. simpl. unfold set_add.
      rewrite decide_False.
      + rewrite IH; rewrite <-(assoc_L (++)); done.
      + apply NoDup_app in Hnd as (_ & Hnd & _). intros Hin. apply (Hnd _ Hin). left. }
  by apply (Hgen []).
Qed.

Lemma new_transitions_lookup dfa (m2r : gmap string ident) (ss : list string) s :
  DAFSA.new_transitions_own dfa m2r ss !! s
  = if decide (s ∈ ss)
    then Some ((λ arr, [DAFSA.rep_of m2r (DAFSA.first_dest arr)])
                 <$> default ∅ (transitions dfa !! s))
    else None.
Proof.
  unfold DAFSA.new_transitions_own.
  induction ss as [|s' ss IH] using rev_ind.
  - simpl. by rewrite lookup_empty.
  - rewrite foldl_app. simpl. destruct (decide (s' = s)) as [->|Hne].
    + rewrite lookup_insert_eq. rewrite decide_True; [done|].
      apply elem_of_app. right. left.
    + rewrite lookup_insert_ne by done. rewrite IH.
      destruct (decide (s ∈ ss)) as [Hin|Hnin].
      * rewrite decide_True; [done|]. apply elem_of_app. by left.
      * rewrite decide_False; [done|].
        intros [?| ->%list_elem_of_singleton]%elem_of_app; done.
Qed.

Lemma sorted_keys_fmap (f : list ident → list ident) (edges : gmap string (list ident)) :
  DAFSA.sorted_keys (f <$> edges) = DAFSA.sorted_keys edges.
Proof.
  unfold DAFSA.sorted_keys. by rewrite map_to_list_fmap, <-list_fmap_compose.
Qed.

Lemma elem_of_sorted_keys (edges : gmap string (list ident)) a :
  a ∈ DAFSA.sorted_keys edges ↔ is_Some (edges !! a).
Proof.
  unfold DAFSA.sorted_keys. rewrite merge_sort_Permutation, list_elem_of_fmap. split.
  - intros ([a' arr] & -> & Hin%elem_of_map_to_list). eauto.
  - intros [arr Harr]. exists (a, arr). split; [done|]. by apply elem_of_map_to_list.
Qed.

Lemma string_length_app (s1 s2 : string) :
  String.length (s1 +:+ s2) = String.length s1 + String.length s2.
Proof. induction s1 as [|c s1 IH]; simpl; [done|]. by rewrite IH. Qed.

Lemma string_length_concat_elem (sep : string) (parts : list string) part :
  part ∈ parts → String.length part ≤ String.length (String.concat sep parts).
Proof.
  induction parts as [|p parts IH]; [by intros ?%elem_of_nil|].
  intros [->|Hin]%elem_of_cons; simpl.
  - destruct parts; [done|]. rewrite string_length_app. lia.
  - destruct parts as [|p' parts]; [by apply elem_of_nil in Hin|].
    rewrite !string_length_app. specialize (IH Hin). lia.
Qed.

(** The automaton that [minimizeAcyclicDFA] returns once every state has a
    signature within the depth allowed. *)
Lemma minimize_result (dfa : Automaton) fuel :
  (∀ s, s ∈ states dfa → is_Some (signature_at fuel dfa (Some s))) →
  ∃ memo rep m2r,
    (∀ s, s ∈ states dfa → memo !! Some s = signature_at fuel dfa (Some s))
    ∧ foldl (DAFSA.assign_rep memo) ([], ∅) (states dfa) = (rep, m2r)
    ∧ reps_inv memo (states dfa) (rep, m2r)
    ∧ DAFSA.minimize_fuel_own fuel dfa = Some (minimized dfa rep m2r).
Proof.
  intros Hsig.
  destruct (sig_all_complete dfa fuel (states dfa) ∅ Hsig) as (memo & Hall & _ & _ & Hmemo).
  { intros q sg. by rewrite lookup_empty. }
  pose proof (reps_inv_final memo (states dfa)) as Hinv.
  destruct (foldl (DAFSA.assign_rep memo) ([], ∅) (states dfa)) as [rep m2r] eqn:Hfold.
  exists memo, rep, m2r. split_and!; [done..|].
  unfold DAFSA.minimize_fuel_own. rewrite Hall. simpl. by rewrite Hfold.
Qed.

Section Representatives.
Context (memo : gmap ident string) (ss : list string)
        (rep : list (ident * string)) (m2r : gmap string ident).
Hypothesis Hinv : reps_inv memo ss (rep, m2r).

Lemma rep_member r :
  r ∈ new_Set (map_values rep) ↔ ∃ k, map_get k rep = Some r.
Proof.
  rewrite elem_of_new_Set. unfold map_values. rewrite list_elem_of_fmap. split.
  - intros ([k r'] & -> & Hin). exists k.
    apply map_get_of_elem; [apply (ri_nodup _ _ _ Hinv)|done].
  - intros [k Hk]. exists (k, r). split; [done|]. by apply map_get_elem.
Qed.

Lemma rep_is_state r : r ∈ new_Set (map_values rep) → r ∈ ss.
Proof. intros [k Hk]%rep_member. by destruct (ri_rep _ _ _ Hinv _ _ Hk). Qed.

Lemma rep_of_state s :
  s ∈ ss →
  ∃ r, DAFSA.rep_of m2r (Some s) = Some r
       ∧ r ∈ new_Set (map_values rep)
       ∧ memo !! Some r = memo !! Some s.
Proof.
  intros Hs. destruct (ri_map _ _ _ Hinv _ Hs) as (r & Hm & Hg). simpl in *.
  exists r. split_and!.
  - by rewrite Hm.
  - apply rep_member. eauto.
  - by destruct (ri_rep _ _ _ Hinv _ _ Hg).
Qed.

Lemma rep_signature_inj r1 r2 :
  r1 ∈ new_Set (map_values rep) → r2 ∈ new_Set (map_values rep) →
  memo !! Some r1 = memo !! Some r2 → r1 = r2.
Proof.
  intros [k1 Hk1]%rep_member [k2 Hk2]%rep_member Heq.
  destruct (ri_rep _ _ _ Hinv _ _ Hk1) as [_ H1].
  destruct (ri_rep _ _ _ Hinv _ _ Hk2) as [_ H2]. simpl in *. congruence.
Qed.
End Representatives.

Lemma signature_at_S fuel (a : Automaton) s :
  signature_at (S fuel) a s
  = (parts ← signature_parts (signature_at fuel a)
               (default ∅ (transitions a !! propKey s))
               (DAFSA.sorted_keys (default ∅ (transitions a !! propKey s)));
     Some ((if includes s (accept a) then "1" else "0")
           +:+ "|" +:+ String.concat "," parts)).
Proof. done. Qed.

Local Arguments signature_at : simpl never.

Lemma includes_None (arr : list string) : includes None arr = false.
Proof.
  unfold includes. apply bool_decide_eq_false.
  rewrite list_elem_of_fmap. by intros (? & ? & _).
Qed.

Lemma signature_undefined (a : Automaton) fuel :
  default ∅ (transitions a !! "undefined") = ∅ →
  signature_at (S fuel) a None = Some "0|".
Proof.
  intros Hrow. rewrite signature_at_S. simpl. rewrite Hrow, includes_None.
  unfold DAFSA.sorted_keys. rewrite map_to_list_empty. done.
Qed.

Lemma signature_parts_is_Some (sig : ident → option string) edges (syms : list string) :
  (∀ a, a ∈ syms → is_Some (sig (DAFSA.first_dest (default [] (edges !! a))))) →
  is_Some (signature_parts sig edges syms).
Proof.
  induction syms as [|a syms IH]; intros Hall; simpl; [eauto|].
  destruct (Hall a) as [sg ->]; [left|]. simpl.
  destruct IH as [parts ->]; [|simpl; eauto].
  intros a' Ha'. apply Hall. by right.
Qed.

(** On an acyclic automaton every state has a signature. *)
Lemma signature_exists (a : Automaton) (rank : string → nat) :
  missing_dest_is_dead a → ranked rank a →
  ∀ s, is_Some (signature_at (2 + rank s) a (Some s)).
Proof.
  intros Hundef Hrank s.
  remember (rank s) as n eqn:Hn. revert s Hn.
  induction (lt_wf n) as [n _ IH]. intros s ->.
  change (2 + rank s) with (S (S (rank s))). rewrite signature_at_S. simpl.
  set (edges := default ∅ (transitions a !! s)).
  destruct (signature_parts_is_Some (signature_at (S (rank s)) a) edges
              (DAFSA.sorted_keys edges)) as [parts Hparts].
  - intros ch [arr Harr]%elem_of_sorted_keys. rewrite Harr. simpl.
    assert (transitions a !! s = Some edges) as Hrow.
    { unfold edges in *. destruct (transitions a !! s) as [row|]; simpl in *;
        [done|by rewrite lookup_empty in Harr]. }
    destruct (DAFSA.first_dest arr) as [t|] eqn:Ht.
    + assert (rank t < rank s) as Hlt by (by eapply Hrank).
      destruct (IH _ Hlt t eq_refl) as [sg Hsg]. exists sg.
      apply (signature_at_mono a (2 + rank t)); [lia|done].
    + rewrite signature_undefined; [eauto|]. by rewrite (Hundef _ _ _ _ Hrow Harr Ht).
  - rewrite Hparts. simpl. eauto.
Qed.

Lemma common_fuel (a : Automaton) (ss : list string) :
  (∀ s, s ∈ ss → ∃ fuel, is_Some (signature_at fuel a (Some s))) →
  ∃ fuel, ∀ s, s ∈ ss → is_Some (signature_at fuel a (Some s)).
Proof.
  induction ss as [|s ss IH]; intros Hall.
  - exists 0. by intros s ?%elem_of_nil.
  - destruct (Hall s) as (f1 & sg & Hsg); [left|].
    destruct IH as [f2 Hf2]; [intros s' Hs'; apply Hall; by right|].
    exists (f1 `max` f2). intros s' [->|Hs']%elem_of_cons.
    + exists sg. apply (signature_at_mono a f1); [lia|done].
    + destruct (Hf2 _ Hs') as [sg' Hsg']. exists sg'.
      apply (signature_at_mono a f2); [lia|done].
Qed.

Section Minimized.
Context (D : Automaton) (memo : gmap ident string)
        (rep : list (ident * string)) (m2r : gmap string ident).
Hypothesis Hdests : dests_in_states D.
Hypothesis Hdead : missing_dest_is_dead D.
Hypothesis Hmemo :
  ∀ s, s ∈ states D →
       ∃ fuel sg, signature_at fuel D (Some s) = Some sg ∧ memo !! Some s = Some sg.
Hypothesis Hinv : reps_inv memo (states D) (rep, m2r).

Local Abbreviation M := (minimized D rep m2r).

Lemma minimized_row r :
  r ∈ states M →
  default ∅ (transitions M !! r)
  = (λ arr, [DAFSA.rep_of m2r (DAFSA.first_dest arr)]) <$> default ∅ (transitions D !! r).
Proof.
  intros Hr. simpl. rewrite new_transitions_lookup. by rewrite decide_True.
Qed.

Lemma minimized_undefined :
  transitions D !! "undefined" = None → default ∅ (transitions M !! "undefined") = ∅.
Proof.
  intros Hundef. simpl. rewrite new_transitions_lookup, Hundef.
  case_decide; simpl; [apply fmap_empty|done].
Qed.

Lemma minimized_final r :
  r ∈ states M → includes (Some r) (accept M) = includes (Some r) (accept D).
Proof.
  intros Hr. simpl. destruct (includes (Some r) (accept D)) eqn:Hf.
  - apply includes_Some, list_elem_of_filter. done.
  - apply not_true_is_false. intros [Hf' _]%includes_Some%list_elem_of_filter.
    congruence.
Qed.

(** A representative has in the minimised automaton the signature it had in
    the source automaton. *)
Lemma signature_minimized n : ∀ r sg fuel,
  r ∈ states M → signature_at fuel D (Some r) = Some sg → String.length sg ≤ n →
  signature_at (S (S n)) M (Some r) = Some sg.
Proof.
  induction (lt_wf n) as [n _ IH]. intros r sg fuel Hr Hsg Hlen.
  destruct fuel as [|f]; [done|]. rewrite signature_at_S in Hsg |- *.
  change (propKey (Some r)) with r in *.
  rewrite (minimized_row r Hr), sorted_keys_fmap, (minimized_final r Hr).
  set (edges := default ∅ (transitions D !! r)) in *.
  destruct (signature_parts (signature_at f D) edges (DAFSA.sorted_keys edges))
    as [parts|] eqn:Hparts; simpl in Hsg; [|done].
  injection Hsg as <-.
  rewrite !string_length_app in Hlen.
  assert (String.length (if includes (Some r) (accept D) then "1" else "0") = 1) as Hflag
    by (by destruct (includes _ _)).
  rewrite Hflag in Hlen. simpl in Hlen.
  assert (∀ syms ps,
    signature_parts (signature_at f D) edges syms = Some ps →
    (∀ a, a ∈ syms → is_Some (edges !! a)) →
    (∀ p, p ∈ ps → String.length p ≤ String.length (String.concat "," parts)) →
    signature_parts (signature_at (S n) M)
      ((λ arr, [DAFSA.rep_of m2r (DAFSA.first_dest arr)]) <$> edges) syms = Some ps)
    as Hall.
  { induction syms as [|a syms IHs]; intros ps; simpl; [done|].
    destruct (signature_at f D _) as [sga|] eqn:Hsga; simpl; [|done].
    destruct (signature_parts (signature_at f D) edges syms) as [ps'|] eqn:Hps';
      simpl; [|done].
    intros [= <-] Hkeys Hlens.
    destruct (Hkeys a) as [arr Harr]; [left|].
    rewrite Harr in Hsga. simpl in Hsga. rewrite lookup_fmap, Harr.
    change (DAFSA.first_dest (default [] ((λ arr, [DAFSA.rep_of m2r (DAFSA.first_dest arr)])
                                            <$> Some arr)))
      with (DAFSA.rep_of m2r (DAFSA.first_dest arr)).
    assert (transitions D !! r = Some edges) as Hrow.
    { unfold edges in *. destruct (transitions D !! r) as [row|]; simpl in *;
        [done|by rewrite lookup_empty in Harr]. }
    assert (String.length sga < n) as Hsmall.
    { specialize (Hlens (a +:+ ">" +:+ sga)).
      rewrite !string_length_app in Hlens. simpl in Hlens.
      specialize (Hlens ltac:(left)). lia. }
    assert (signature_at (S n) M (DAFSA.rep_of m2r (DAFSA.first_dest arr)) = Some sga)
      as ->.
    { destruct (DAFSA.first_dest arr) as [t|] eqn:Ht; simpl.
      - assert (t ∈ states D) as Hin by (by eapply Hdests).
        destruct (rep_of_state memo (states D) rep m2r Hinv t Hin)
          as (r' & Hrep & Hr' & Heq).
        simpl in Hrep. rewrite Hrep.
        destruct (Hmemo t Hin) as (ft & sgt & Hsgt & Hmt).
        destruct (Hmemo r' (rep_is_state memo (states D) rep m2r Hinv r' Hr'))
          as (fr & sgr & Hsgr & Hmr).
        assert (sgt = sga) as -> by (by apply (signature_at_unique D ft f (Some t))).
        assert (sgr = sga) as -> by congruence.
        apply (signature_at_mono M (S (S (String.length sga)))); [lia|].
        by apply (IH _ Hsmall r' sga fr).
      - destruct f as [|f']; [done|].
        pose proof (Hdead _ _ _ _ Hrow Harr Ht) as Hundef.
        rewrite signature_undefined in Hsga by (by rewrite Hundef).
        injection Hsga as <-.
        apply signature_undefined. by apply minimized_undefined. }
    simpl. rewrite (IHs ps' eq_refl); [done| |].
    - intros a' Ha'. apply Hkeys. by right.
    - intros p Hp. apply Hlens. by right. }
  rewrite (Hall _ _ Hparts); [done| |].
  - intros a Ha. by apply elem_of_sorted_keys.
  - intros p Hp. by apply string_length_concat_elem.
Qed.

(** The second minimisation keeps every state of the first. *)
Lemma minimize_again :
  ∃ M', DAFSA.minimizeAcyclicDFA_own M M' ∧ states M' = states M.
Proof.
  assert (∀ r, r ∈ states M →
               ∃ sg, memo !! Some r = Some sg
                     ∧ signature_at (S (S (String.length sg))) M (Some r) = Some sg) as Hsig.
  { intros r Hr.
    destruct (Hmemo r (rep_is_state memo (states D) rep m2r Hinv r Hr))
      as (fr & sgr & Hsgr & Hmr).
    exists sgr. split; [done|]. by apply (signature_minimized _ r sgr fr). }
  destruct (common_fuel M (states M)) as [fuel Hfuel].
  { intros r Hr. destruct (Hsig r Hr) as (sg & _ & Hsg). eauto. }
  destruct (minimize_result M fuel Hfuel)
    as (memo' & rep' & m2r' & Hmemo' & Hfold & _ & Hmin).
  eexists. split; [by exists fuel|]. simpl.
  assert (NoDup (new_Set (map_values rep))) as Hnd by apply NoDup_new_Set.
  assert (map_values rep' = new_Set (map_values rep)) as ->; [|by apply new_Set_NoDup].
  assert (∀ r, r ∈ states M → memo' !! Some r = memo !! Some r) as Hsame.
  { intros r Hr. destruct (Hsig r Hr) as (sg & -> & Hsg). rewrite (Hmemo' r Hr).
    destruct (Hfuel r Hr) as [sg' Hsg']. rewrite Hsg'. f_equal.
    by eapply signature_at_unique. }
  pose proof (assign_reps_distinct memo' (states M) [] [] ∅) as Hd.
  rewrite Hfold in Hd. apply Hd; [|done..].
  apply NoDup_fmap_2_strong; [|done].
  intros r1 r2 Hr1 Hr2. rewrite !Hsame by done.
  by apply (rep_signature_inj memo (states D) rep m2r Hinv).
Qed.
End Minimized.

(** On own properties, minimising a second time keeps the states, for every
    acyclic automaton whose destinations (the first element of each
    transition entry, the only one the minimiser reads) are members of
    [states], and which has no row under the key ["undefined"] if one of its
    entries has no destination. *)
Lemma minimize_own_idempotent (D : Automaton) :
  dests_in_states D → missing_dest_is_dead D → acyclic D →
  ∃ M M',
    DAFSA.minimizeAcyclicDFA_own D M
    ∧ DAFSA.minimizeAcyclicDFA_own M M'
    ∧ length (states M') = length (states M)
    ∧ states M' = states M
    ∧ ∀ N N', DAFSA.minimizeAcyclicDFA_own D N → DAFSA.minimizeAcyclicDFA_own N N' →
              length (states N') = length (states N).
Proof.
  intros Hdests Hdead [rank Hrank].
  destruct (common_fuel D (states D)) as [fuel Hfuel].
  { intros s _. exists (2 + rank s). by apply signature_exists. }
  destruct (minimize_result D fuel Hfuel) as (memo & rep & m2r & Hmemo & _ & Hinv & Hmin).
  destruct (minimize_again D memo rep m2r Hdests Hdead) as (M' & HM' & Hstates); [|done|].
  { intros s Hs. destruct (Hfuel s Hs) as [sg Hsg]. exists fuel, sg.
    split; [done|]. by rewrite (Hmemo s Hs). }
  assert (DAFSA.minimizeAcyclicDFA_own D (minimized D rep m2r)) as HM by (by exists fuel).
  exists (minimized D rep m2r), M'. split_and!; [done|done|by rewrite Hstates|done|].
  intros N N' HN HN'.
  rewrite (minimizeAcyclicDFA_unique D _ _ HN HM) in HN' |- *.
  by rewrite (minimizeAcyclicDFA_unique _ _ _ HN' HM'), Hstates.
Qed.

(** Checks of the hypotheses on a given automaton. *)
Lemma dests_in_states_check (a : Automaton) :
  map_Forall (λ _ row,
    map_Forall (λ _ (arr : list ident),
      from_option (λ t, bool_decide (t ∈ states a)) true (DAFSA.first_dest arr) = true) row)
    (transitions a) →
  dests_in_states a.
Proof.
  intros Hall s row ch arr t Hrow Harr Ht.
  pose proof (Hall _ _ Hrow _ _ Harr) as H. simpl in H. rewrite Ht in H.
  by apply bool_decide_eq_true in H.
Qed.

Lemma ranked_check (rank : string → nat) (a : Automaton) :
  map_Forall (λ s row,
    map_Forall (λ _ (arr : list ident),
      from_option (λ t, bool_decide (rank t < rank s)) true (DAFSA.first_dest arr) = true)
      row)
    (transitions a) →
  ranked rank a.
Proof.
  intros Hall s row ch arr t Hrow Harr Ht.
  pose proof (Hall _ _ Hrow _ _ Harr) as H. simpl in H. rewrite Ht in H.
  by apply bool_decide_eq_true in H.
Qed.

Lemma no_empty_entry_check (a : Automaton) :
  map_Forall (λ _ row, map_Forall (λ _ (arr : list ident), arr ≠ []) row) (transitions a) →
  no_empty_entry a.
Proof. intros Hall s row ch arr Hrow Harr. exact (Hall _ _ Hrow _ _ Harr). Qed.

Lemma referential_integrity_check (a : Automaton) :
  (∃ s, start a = Some s ∧ s ∈ states a) →
  Forall (λ s, s ∈ states a) (accept a) →
  map_Forall (λ s row,
    s ∈ states a
    ∧ map_Forall (λ _ (arr : list ident),
        Forall (λ q, from_option (λ t, bool_decide (t ∈ states a)) false q = true) arr) row)
    (transitions a) →
  referential_integrity a.
Proof.
  intros Hstart Hacc Hall. split_and!; [done|by apply Forall_forall|].
  intros s row Hrow. destruct (Hall _ _ Hrow) as [Hs Hrow']. split; [done|].
  intros ch arr q Harr Hq. pose proof (Hrow' _ _ Harr) as Hf. simpl in Hf.
  rewrite Forall_forall in Hf. specialize (Hf _ Hq). destruct q as [t|]; [|done].
  simpl in Hf. apply bool_decide_eq_true in Hf. eauto.
Qed.

Lemma example_trie_built : DAFSA.buildTrieDFA example_language = inr example_trie.
Proof. vm_compute. reflexivity. Qed.

Lemma example_trie_ranked : ranked example_rank example_trie.
Proof. apply ranked_check. apply (bool_decide_unpack _). vm_compute. exact I. Qed.

(** C8 as stated fails on [undefined_row_dfa], which is deterministic, acyclic
    and refers to its own states only.  The missing destination of [p] on [b]
    is [undefined]: in the source automaton its signature is read from the
    row of the state named [undefined], in the minimised automaton that state
    is merged into [u1] and has no row, so [p] gets the signature of [p2].
    The first call returns five states and the second call four. *)
Lemma minimize_not_idempotent :
  deterministic undefined_row_dfa
  ∧ acyclic undefined_row_dfa
  ∧ referential_integrity undefined_row_dfa
  ∧ ∃ M M',
      DAFSA.minimizeAcyclicDFA undefined_row_dfa M
      ∧ DAFSA.minimizeAcyclicDFA M M'
      ∧ states M = ["u1"; "f"; "p"; "p2"; "d"]
      ∧ states M' = ["u1"; "f"; "p"; "d"]
      ∧ length (states M') ≠ length (states M).
Proof.
  split_and!.
  - apply deterministic_map_Forall. apply (bool_decide_unpack _). vm_compute. exact I.
  - exists example_rank. apply ranked_check. apply (bool_decide_unpack _). vm_compute. exact I.
  - apply referential_integrity_check.
    + exists "u1". split; [done|]. apply (bool_decide_unpack _). vm_compute. exact I.
    + apply (bool_decide_unpack _). vm_compute. exact I.
    + apply (bool_decide_unpack _). vm_compute. exact I.
  - eexists _, _. split; [exists 3; vm_compute; reflexivity|].
    split; [exists 3; vm_compute; reflexivity|]. split_and!; [done..|]. simpl. lia.
Qed.

(** The minimised automaton refers to its own states only, when the source
    automaton does and has no empty entry. *)
Lemma minimize_integrity (D : Automaton) :
  referential_integrity D → no_empty_entry D → acyclic D →
  ∃ M, DAFSA.minimizeAcyclicDFA_own D M ∧ referential_integrity M.
Proof.
  intros (Hstart & Hacc & Htr) Hne [rank Hrank].
  assert (∀ s row ch arr, transitions D !! s = Some row → row !! ch = Some arr →
            ∃ t, DAFSA.first_dest arr = Some t ∧ t ∈ states D) as Hfirst.
  { intros s row ch arr Hrow Harr. destruct arr as [|q arr]; [by destruct (Hne _ _ _ _ Hrow Harr)|].
    destruct (Htr _ _ Hrow) as [_ Hd].
    destruct (Hd ch _ q Harr ltac:(left)) as (t & -> & Ht). eauto. }
  assert (dests_in_states D) as Hdests.
  { intros s row ch arr t Hrow Harr Ht.
    destruct (Hfirst _ _ _ _ Hrow Harr) as (t' & Ht' & Hin). congruence. }
  assert (missing_dest_is_dead D) as Hdead.
  { intros s row ch arr Hrow Harr Hnone.
    destruct (Hfirst _ _ _ _ Hrow Harr) as (t' & Ht' & _). congruence. }
  destruct (common_fuel D (states D)) as [fuel Hfuel].
  { intros s _. exists (2 + rank s). by apply signature_exists. }
  destruct (minimize_result D fuel Hfuel) as (memo & rep & m2r & Hmemo & _ & Hinv & Hmin).
  eexists. split; [by exists fuel|]. split_and!; simpl.
  - destruct Hstart as (s & -> & Hs).
    destruct (rep_of_state memo (states D) rep m2r Hinv s Hs) as (r & Hr & Hin & _).
    eauto.
  - intros s [_ Hs]%list_elem_of_filter. done.
  - intros s row. rewrite new_transitions_lookup. case_decide as Hs; [|done].
    intros [= <-]. split; [done|]. intros ch arr q. rewrite lookup_fmap.
    destruct (default ∅ (transitions D !! s) !! ch) as [arrD|] eqn:HarrD; simpl; [|done].
    intros [= <-] ->%list_elem_of_singleton.
    assert (transitions D !! s = Some (default ∅ (transitions D !! s))) as Hrow.
    { destruct (transitions D !! s); simpl in *; [done|by rewrite lookup_empty in HarrD]. }
    destruct (Hfirst _ _ _ _ Hrow HarrD) as (t & -> & Ht).
    destruct (rep_of_state memo (states D) rep m2r Hinv t Ht) as (r & Hr & Hin & _).
    eauto.
Qed.

(** C10 as stated fails for [minimizeAcyclicDFA] on [dead_end_dfa], which is
    deterministic, acyclic and refers to its own states only: the empty entry
    of [q0] on [a] becomes [[undefined]] in the minimised automaton, a
    destination that is not a state. *)
Lemma minimize_breaks_integrity :
  deterministic dead_end_dfa
  ∧ acyclic dead_end_dfa
  ∧ referential_integrity dead_end_dfa
  ∧ ∃ M,
      DAFSA.minimizeAcyclicDFA dead_end_dfa M
      ∧ transitions M !! "q0" = Some {[ "a" := [None] ]}
      ∧ ¬ referential_integrity M.
Proof.
  split_and!.
  - apply deterministic_map_Forall. apply (bool_decide_unpack _). vm_compute. exact I.
  - exists example_rank. apply ranked_check. apply (bool_decide_unpack _). vm_compute. exact I.
  - apply referential_integrity_check.
    + exists "q0". split; [done|]. apply (bool_decide_unpack _). vm_compute. exact I.
    + apply (bool_decide_unpack _). vm_compute. exact I.
    + apply (bool_decide_unpack _). vm_compute. exact I.
  - eexists. split; [exists 2; vm_compute; reflexivity|].
    assert (∀ tr : gmap string (gmap string (list ident)),
              tr !! "q0" = Some {[ "a" := [None] ]} →
              ∀ a, transitions a = tr → ¬ referential_integrity a) as Hno.
    { intros tr Htr a <- (_ & _ & Hint).
      destruct (Hint _ _ Htr) as [_ Hd].
      destruct (Hd "a" [None] None) as (t & Ht & _); [done|left|done]. }
    split; [vm_compute; reflexivity|]. eapply Hno; [|reflexivity].
    vm_compute. reflexivity.
Qed.

(** ** The subset construction with keys that tell subsets apart *)

Section Soundness.
Variable nfa : Automaton.
Implicit Types (c : NFAtoDFA.conv) (S T : list ident).

Lemma row_done_mono sm sm' tr tr' k T (syms : list string) :
  row_done nfa sm tr k T syms →
  tr' !! k = tr !! k →
  (∀ k', is_Some (map_get k' sm) → is_Some (map_get k' sm')) →
  row_done nfa sm' tr' k T syms.
Proof.
  intros (row & Hrow & Hall) Htr Hsm. exists row. split; [congruence|].
  intros sym Hsym. destruct (Hall sym Hsym) as [Hent Hstored]. split; [done|auto].
Qed.

Lemma expand_sound S seen c sym :
  expand_inv nfa S seen c →
  expand_inv nfa S (seen ++ [sym]) (NFAtoDFA.expand_own nfa S (NFAtoDFA.keyOf S) c sym).
Proof.
  intros [Hkey Hstack Hself (row & Hrow & Hall) Hdone]. unfold NFAtoDFA.expand_own.
  set (Skey := NFAtoDFA.keyOf S) in *.
  set (T := move_set (transitions nfa) S sym).
  set (Tkey := NFAtoDFA.keyOf T).
  rewrite Hrow. simpl.
  assert (∀ entry sm',
    entry = entry_of T →
    (∀ k', is_Some (map_get k' (NFAtoDFA.statesMap c)) → is_Some (map_get k' sm')) →
    (T ≠ [] → is_Some (map_get Tkey sm')) →
    row_done nfa sm' (<[Skey := <[sym := entry]> row]> (NFAtoDFA.dfaTransitions c))
      Skey S (seen ++ [sym])) as Hrow'.
  { intros entry sm' -> Hmono HT. exists (<[sym := entry_of T]> row).
    split; [apply lookup_insert_eq|]. intros sym' Hsym'.
    destruct (decide (sym = sym')) as [<-|Hne].
    - rewrite lookup_insert_eq. done.
    - rewrite lookup_insert_ne by done.
      apply elem_of_app in Hsym' as [Hsym'|?%list_elem_of_singleton]; [|done].
      destruct (Hall _ Hsym') as [Hent Hstored]. split; [done|auto]. }
  assert (∀ entry sm' k T0,
    (∀ k', is_Some (map_get k' (NFAtoDFA.statesMap c)) → is_Some (map_get k' sm')) →
    k ≠ Skey →
    row_done nfa (NFAtoDFA.statesMap c) (NFAtoDFA.dfaTransitions c) k T0 (alphabet nfa) →
    row_done nfa sm' (<[Skey := <[sym := entry]> row]> (NFAtoDFA.dfaTransitions c))
      k T0 (alphabet nfa)) as Hothers.
  { intros entry sm' k T0 Hmono Hk Hd. eapply row_done_mono; [done| |done].
    by rewrite lookup_insert_ne. }
  assert (bool_decide (length T = 0) = true → [] = entry_of T) as Hentry0
    by (intros Hb; unfold entry_of; by rewrite Hb).
  assert (bool_decide (length T = 0) = false → [Some Tkey] = entry_of T) as Hentry1
    by (intros Hb; unfold entry_of; by rewrite Hb).
  destruct (bool_decide (length T = 0)) eqn:Hsize; simpl.
  { specialize (Hentry0 eq_refl).
    apply bool_decide_eq_true in Hsize. apply length_zero_iff_nil in Hsize.
    split; simpl; try done.
    - apply Hrow'; [done|done|]. by rewrite Hsize.
    - intros k T0 HT0 Hk. destruct (Hdone _ _ HT0 Hk) as [?|Hd]; [by left|right].
      by apply Hothers. }
  specialize (Hentry1 eq_refl). apply bool_decide_eq_false in Hsize.
  assert (T ≠ []) as Hne by (intros HT; by rewrite HT in Hsize).
  destruct (map_has Tkey (NFAtoDFA.statesMap c)) eqn:Hhas; simpl.
  { unfold map_has in Hhas. apply bool_decide_eq_true in Hhas.
    split; simpl; try done.
    - by apply Hrow'.
    - intros k T0 HT0 Hk. destruct (Hdone _ _ HT0 Hk) as [?|Hd]; [by left|right].
      by apply Hothers. }
  unfold map_has in Hhas. apply bool_decide_eq_false in Hhas.
  assert (map_get Tkey (NFAtoDFA.statesMap c) = None) as Hnone
    by (by destruct (map_get Tkey (NFAtoDFA.statesMap c)); [destruct Hhas|]).
  assert (∀ k', is_Some (map_get k' (NFAtoDFA.statesMap c)) →
                is_Some (map_get k' (map_set Tkey T (NFAtoDFA.statesMap c)))) as Hmono.
  { intros k' Hk'. rewrite map_get_set. case_decide; [eauto|done]. }
  assert (∀ k' T0, map_get k' (NFAtoDFA.statesMap c) = Some T0 →
                   map_get k' (map_set Tkey T (NFAtoDFA.statesMap c)) = Some T0) as Hkeep.
  { intros k' T0 Hk'. rewrite map_get_set. case_decide; [congruence|done]. }
  split; simpl.
  - intros k T0. rewrite map_get_set. case_decide as Hk; [|by apply Hkey].
    intros [= <-]. split_and!; [done|apply NoDup_move_set|done|].
    intros x (q & _ & Hx)%elem_of_move_set. by eapply moves_in_universe.
  - intros S' [->|HS']%elem_of_cons.
    + by rewrite map_get_set, decide_True.
    + apply Hkeep. auto.
  - by apply Hkeep.
  - apply Hrow'; [done|done|]. intros _. rewrite map_get_set, decide_True by done. eauto.
  - intros k T0. rewrite map_get_set. case_decide as Hk.
    + intros [= <-] _. left. left.
    + intros HT0 Hk'. destruct (Hdone _ _ HT0 Hk') as [?|Hd]; [left; by right|right].
      by apply Hothers.
Qed.

Lemma expand_all_sound S (syms : list string) : ∀ seen c,
  expand_inv nfa S seen c →
  expand_inv nfa S (seen ++ syms) (foldl (NFAtoDFA.expand_own nfa S (NFAtoDFA.keyOf S)) c syms).
Proof.
  induction syms as [|sym syms IH]; intros seen c Hc; simpl.
  - by rewrite app_nil_r.
  - change (sym :: syms) with ([sym] ++ syms). rewrite (assoc_L (++)).
    by apply IH, expand_sound.
Qed.

Lemma pop_expand_sound S rest c :
  conv_sound nfa c → NFAtoDFA.stack c = S :: rest →
  conv_sound nfa (NFAtoDFA.pop_expand_own nfa S rest c).
Proof.
  intros [Hkey Hstack Hdone] Hst. unfold NFAtoDFA.pop_expand_own.
  match goal with |- context [foldl _ ?c0 _] => set (c1 := c0) end.
  assert (map_get (NFAtoDFA.keyOf S) (NFAtoDFA.statesMap c) = Some S) as Hself.
  { apply Hstack. rewrite Hst. left. }
  assert (expand_inv nfa S [] c1) as Hc1.
  { split; simpl; try done.
    - intros S' HS'. apply Hstack. rewrite Hst. by right.
    - unfold NFAtoDFA.ensure_row_own.
      destruct (NFAtoDFA.dfaTransitions c !! NFAtoDFA.keyOf S) as [row|] eqn:Hrow.
      + exists row. split; [done|]. by intros sym ?%elem_of_nil.
      + exists ∅. split; [apply lookup_insert_eq|]. by intros sym ?%elem_of_nil.
    - intros k T HT Hk. destruct (Hdone _ _ HT) as [Hin|Hd].
      + left. rewrite Hst in Hin. apply elem_of_cons in Hin as [->|?]; [|done].
        destruct (Hkey _ _ HT) as [-> _]. done.
      + right. eapply row_done_mono; [done| |done].
        unfold NFAtoDFA.ensure_row_own.
        destruct (NFAtoDFA.dfaTransitions c !! NFAtoDFA.keyOf S); [done|].
        by rewrite lookup_insert_ne. }
  pose proof (expand_all_sound S (alphabet nfa) [] c1 Hc1) as [Hk' Hs' Hself' Hrow' Hd'].
  simpl in Hrow'. split; [done..|].
  intros k T HT. destruct (decide (k = NFAtoDFA.keyOf S)) as [->|Hne]; [|auto].
  right. rewrite Hself' in HT. by injection HT as <-.
Qed.

Lemma expand_keeps S Skey c sym k T :
  map_get k (NFAtoDFA.statesMap c) = Some T →
  map_get k (NFAtoDFA.statesMap (NFAtoDFA.expand_own nfa S Skey c sym)) = Some T.
Proof.
  intros HT. unfold NFAtoDFA.expand_own.
  destruct (negb _ && negb (map_has _ _)) eqn:Hcond; simpl; [|done].
  apply andb_true_iff in Hcond as [_ Hhas]. apply negb_true_iff in Hhas.
  unfold map_has in Hhas. apply bool_decide_eq_false in Hhas.
  rewrite map_get_set. case_decide as Hk; [|done]. subst. destruct Hhas. eauto.
Qed.

Lemma pop_expand_keeps S rest c k T :
  map_get k (NFAtoDFA.statesMap c) = Some T →
  map_get k (NFAtoDFA.statesMap (NFAtoDFA.pop_expand_own nfa S rest c)) = Some T.
Proof.
  intros HT. unfold NFAtoDFA.pop_expand_own.
  match goal with |- context [foldl _ ?c0 _] =>
    assert (map_get k (NFAtoDFA.statesMap c0) = Some T) as Hc0 by done;
    generalize dependent c0
  end.
  induction (alphabet nfa) as [|sym syms IHs]; intros c0 Hc0; simpl; [done|].
  by apply IHs, expand_keeps.
Qed.

Lemma while_stack_sound : ∀ fuel c c',
  conv_sound nfa c → NFAtoDFA.while_stack_own fuel nfa c = Some c' →
  conv_sound nfa c' ∧ NFAtoDFA.stack c' = []
  ∧ ∀ k T, map_get k (NFAtoDFA.statesMap c) = Some T →
           map_get k (NFAtoDFA.statesMap c') = Some T.
Proof.
  induction fuel as [|fuel IH]; intros c c' Hc; simpl;
    destruct (NFAtoDFA.stack c) as [|S rest] eqn:Hst; try done.
  - intros [= <-]. done.
  - intros [= <-]. done.
  - intros Hrun.
    destruct (IH _ _ (pop_expand_sound S rest c Hc Hst) Hrun) as (Hc' & Hst' & Hkeep).
    split_and!; [done..|]. intros k T HT. by apply Hkeep, pop_expand_keeps.
Qed.
End Soundness.

Lemma keyOf_singleton (q : ident) : NFAtoDFA.keyOf [q] = joinStr q.
Proof. done. Qed.

Lemma move_set_ext tr (S T : list ident) ch :
  (∀ x, x ∈ S ↔ x ∈ T) → ∀ x, x ∈ move_set tr S ch ↔ x ∈ move_set tr T ch.
Proof.
  intros Heq x. rewrite !elem_of_move_set. by setoid_rewrite Heq.
Qed.

Lemma same_members_nil {A} (S T : list A) : (∀ x, x ∈ S ↔ x ∈ T) → S = [] → T = [].
Proof.
  intros Heq ->. destruct T as [|x T]; [done|].
  by destruct (not_elem_of_nil x); apply Heq; left.
Qed.

Lemma existsb_elem_of {A} (f : A → bool) (l : list A) :
  existsb f l = true ↔ ∃ x, x ∈ l ∧ f x = true.
Proof. rewrite existsb_exists. by setoid_rewrite list_elem_of_In. Qed.

Lemma entry_of_nil (T : list ident) : T = [] → entry_of T = [].
Proof. by intros ->. Qed.

Lemma entry_of_cons (T : list ident) : T ≠ [] → entry_of T = [Some (NFAtoDFA.keyOf T)].
Proof. intros HT. unfold entry_of. by destruct T. Qed.

Lemma move_set_singleton tr (q : ident) ch :
  move_set tr [q] ch = new_Set (moves_of tr q ch).
Proof. done. Qed.

Lemma new_Set_entry_of (T : list ident) : new_Set (entry_of T) = entry_of T.
Proof. unfold entry_of. by case_bool_decide. Qed.

Section Simulation.
Context (nfa : Automaton) (c : NFAtoDFA.conv).
Hypothesis Hinj : keys_injective nfa.
Hypothesis Hok : conv_ok nfa c.
Hypothesis Hsound : conv_sound nfa c.
Hypothesis Hstack : NFAtoDFA.stack c = [].

Local Abbreviation sm := (NFAtoDFA.statesMap c).
Local Abbreviation tr := (NFAtoDFA.dfaTransitions c).

(** A step of the DFA from the key of [T] leads to the key of the moves of
    [T], stored with a subset that has the same members. *)
Lemma dfa_step k (T : list ident) ch :
  map_get k sm = Some T → ch ∈ alphabet nfa →
  move_set tr [Some k] ch = entry_of (move_set (transitions nfa) T ch)
  ∧ (move_set (transitions nfa) T ch ≠ [] →
     ∃ T', map_get (NFAtoDFA.keyOf (move_set (transitions nfa) T ch)) sm = Some T'
           ∧ ∀ x, x ∈ T' ↔ x ∈ move_set (transitions nfa) T ch).
Proof.
  intros HT Hch. destruct (cs_done _ _ Hsound _ _ HT) as [Hin|(row & Hrow & Hall)].
  { rewrite Hstack in Hin. by apply elem_of_nil in Hin. }
  destruct (Hall _ Hch) as [Hent Hstored]. split.
  - rewrite move_set_singleton. unfold moves_of. simpl. rewrite Hrow. simpl.
    rewrite Hent. simpl. apply new_Set_entry_of.
  - intros Hne. destruct (Hstored Hne) as [T' HT']. exists T'. split; [done|].
    destruct (cs_key _ _ Hsound _ _ HT') as (Hk' & Hnd' & Hne' & Hu').
    apply Hinj; try done.
    + apply NoDup_move_set.
    + intros x (q & _ & Hx)%elem_of_move_set. by eapply moves_in_universe.
Qed.

Lemma run_sim (cs : list string) : ∀ (S : list ident) k (T : list ident),
  map_get k sm = Some T → (∀ x, x ∈ S ↔ x ∈ T) →
  (∀ ch, ch ∈ cs → ch ∈ alphabet nfa) →
  match NFAtoDFA.run (transitions nfa) S cs with
  | None => NFAtoDFA.run tr [Some k] cs = None
  | Some S' =>
      ∃ k' T', NFAtoDFA.run tr [Some k] cs = Some [Some k']
               ∧ map_get k' sm = Some T' ∧ ∀ x, x ∈ S' ↔ x ∈ T'
  end.
Proof.
  induction cs as [|ch cs IH]; intros S k T HT Heq Hcs; simpl.
  - eauto.
  - destruct (dfa_step k T ch HT) as [Hstep Hstored]; [apply Hcs; left|].
    rewrite Hstep.
    pose proof (move_set_ext (transitions nfa) S T ch Heq) as Hmove.
    destruct (decide (move_set (transitions nfa) T ch = [])) as [Hnil|Hne].
    + assert (move_set (transitions nfa) S ch = []) as ->.
      { apply (same_members_nil (move_set (transitions nfa) T ch)); [|done].
        intros x. symmetry. apply Hmove. }
      by rewrite entry_of_nil.
    + assert (move_set (transitions nfa) S ch ≠ []) as Hne'.
      { intros HS. apply Hne.
        by apply (same_members_nil (move_set (transitions nfa) S ch)). }
      rewrite bool_decide_eq_false_2 by (by destruct (move_set (transitions nfa) S ch)).
      rewrite entry_of_cons by done. simpl.
      destruct (Hstored Hne) as (T' & HT' & Heq').
      apply (IH _ _ T'); [done| |].
      * intros x. by rewrite Hmove, Heq'.
      * intros ch' Hch'. apply Hcs. by right.
Qed.

Lemma dfa_accept_member k (T : list ident) (A : list string) :
  map_get k sm = Some T →
  includes (Some k) (new_Set (NFAtoDFA.dfa_accept A sm)) = true
  ↔ existsb (λ s, includes s A) T = true.
Proof.
  intros HT. rewrite includes_new_Set, includes_Some. unfold NFAtoDFA.dfa_accept.
  rewrite elem_of_new_Set. unfold map_keys. rewrite list_elem_of_fmap. split.
  - intros ([k' T'] & -> & [Hacc Hin]%list_elem_of_filter). simpl in *.
    apply Is_true_true in Hacc.
    apply map_get_of_elem in Hin; [|apply (ok_keys_nodup _ _ Hok)]. congruence.
  - intros Hacc. exists (k, T). split; [done|]. apply list_elem_of_filter.
    split; [by apply Is_true_true|]. by apply map_get_elem.
Qed.
End Simulation.

(** When the keys tell the subsets of the NFA apart, the automaton made by
    [nfaToDfa] gives every input the verdict of the NFA. *)
Lemma nfaToDfa_equivalent (nfa : Automaton) (w : string) :
  keys_injective nfa →
  ∃ dfa,
    NFAtoDFA.nfaToDfa_own nfa = Some dfa
    ∧ accepted (NFAtoDFA.accepts nfa w) = accepted (NFAtoDFA.accepts dfa w).
Proof.
  intros Hinj.
  destruct (nfaToDfa_terminates nfa) as (c & -> & Hok & _ & Hrun).
  eexists. split; [done|].
  assert (conv_sound nfa
            {| NFAtoDFA.statesMap := map_set (NFAtoDFA.keyOf [start nfa]) [start nfa] [];
               NFAtoDFA.stack := [[start nfa]];
               NFAtoDFA.dfaTransitions := ∅ |}) as Hinit.
  { split; simpl.
    - intros k T. case_decide; [|done]. intros [= <-]. split_and!; [done| |done|].
      + apply NoDup_singleton.
      + intros x ->%list_elem_of_singleton. left.
    - intros S ->%list_elem_of_singleton. by rewrite decide_True.
    - intros k T. case_decide; [|done]. intros [= <-]. left. left. }
  destruct (while_stack_sound nfa _ _ _ Hinit Hrun) as (Hsound & Hstack & Hkeep).
  unfold NFAtoDFA.accepts. simpl.
  destruct (first_foreign (new_Set (alphabet nfa)) (chars w)) eqn:Hff; [done|].
  assert (∀ ch, ch ∈ chars w → ch ∈ alphabet nfa) as Hcs.
  { intros ch Hch. apply elem_of_new_Set. by apply (first_foreign_None _ (chars w)). }
  change (negb (bool_decide (NFAtoDFA.keyOf [start nfa] = "")))
    with (truthy (Some (joinStr (start nfa)))).
  assert (truthy (Some (joinStr (start nfa))) = truthy (start nfa)) as ->
    by (by destruct (start nfa)).
  destruct (truthy (start nfa)) eqn:Htruthy; simpl; [|done].
  change (new_Set [start nfa]) with [start nfa].
  change (new_Set [Some (NFAtoDFA.keyOf [start nfa])])
    with [Some (NFAtoDFA.keyOf [start nfa])].
  assert (map_get (NFAtoDFA.keyOf [start nfa]) (NFAtoDFA.statesMap c) = Some [start nfa])
    as Hstart.
  { apply Hkeep. simpl. by rewrite decide_True. }
  pose proof (run_sim nfa c Hinj Hsound Hstack (chars w) [start nfa]
                (NFAtoDFA.keyOf [start nfa]) [start nfa] Hstart ltac:(done) Hcs) as Hsim.
  destruct (NFAtoDFA.run (transitions nfa) [start nfa] (chars w)) as [S'|].
  - destruct Hsim as (k' & T' & -> & HT' & Heq).
    simpl. rewrite orb_false_r.
    apply Bool.eq_iff_eq_true.
    rewrite (dfa_accept_member nfa c Hok k' T') by done.
    rewrite !existsb_elem_of. by setoid_rewrite Heq.
  - by rewrite Hsim.
Qed.

(** ** Keys of names without commas *)

Lemma comma_free_cons c (s : string) :
  comma_free (String c s) ↔ c ≠ ","%char ∧ comma_free s.
Proof.
  unfold comma_free. simpl. rewrite not_elem_of_cons. split.
  - intros [Hc Hs]. split; [|done]. intros ->. done.
  - intros [Hc Hs]. split; [|done]. intros [= <-]. done.
Qed.

Lemma comma_prefix_inj (s1 s2 r1 r2 : string) :
  comma_free s1 → comma_free s2 →
  s1 +:+ String "," r1 = s2 +:+ String "," r2 → s1 = s2 ∧ r1 = r2.
Proof.
  revert s2. induction s1 as [|c1 s1 IH]; intros [|c2 s2] H1 H2; simpl.
  - by intros [= ->].
  - intros [= <- _]. by apply comma_free_cons in H2 as [? _].
  - intros [= -> _]. by apply comma_free_cons in H1 as [? _].
  - intros [= -> Heq]. apply comma_free_cons in H1 as [_ H1].
    apply comma_free_cons in H2 as [_ H2].
    destruct (IH _ H1 H2 Heq) as [-> ->]. done.
Qed.

Lemma comma_free_no_comma (s1 s2 r : string) :
  comma_free s1 → s1 ≠ s2 +:+ String "," r.
Proof.
  revert s2. induction s1 as [|c1 s1 IH]; intros [|c2 s2] H1; simpl; try done.
  - intros [= -> _]. by apply comma_free_cons in H1 as [? _].
  - intros [= -> Heq]. apply comma_free_cons in H1 as [_ H1]. by apply (IH s2).
Qed.

Lemma concat_cons2 (x y : string) (l : list string) :
  String.concat "," (x :: y :: l) = x +:+ String "," (String.concat "," (y :: l)).
Proof. done. Qed.

(** Joining names without commas loses nothing, the empty list apart. *)
Lemma concat_comma_inj (l1 : list string) : ∀ l2 : list string,
  Forall comma_free l1 → Forall comma_free l2 → l1 ≠ [] → l2 ≠ [] →
  String.concat "," l1 = String.concat "," l2 → l1 = l2.
Proof.
  induction l1 as [|x [|x' l1] IH]; intros [|y [|y' l2]] H1 H2 Hn1 Hn2; try done.
  - simpl. by intros ->.
  - rewrite concat_cons2. simpl. intros Heq.
    apply Forall_cons in H1 as [Hx _]. by apply comma_free_no_comma in Heq.
  - rewrite concat_cons2. simpl. intros Heq. symmetry in Heq.
    apply Forall_cons in H2 as [Hy _]. by apply comma_free_no_comma in Heq.
  - rewrite !concat_cons2. intros Heq.
    apply Forall_cons in H1 as [Hx H1]. apply Forall_cons in H2 as [Hy H2].
    destruct (comma_prefix_inj _ _ _ _ Hx Hy Heq) as [-> Heq'].
    f_equal. by apply IH.
Qed.

Lemma fmap_joinStr_inj (l1 l2 : list ident) :
  Forall is_Some l1 → Forall is_Some l2 → joinStr <$> l1 = joinStr <$> l2 → l1 = l2.
Proof.
  revert l2. induction l1 as [|q1 l1 IH]; intros [|q2 l2] H1 H2; simpl; try done.
  intros [= Hq Hl]. apply Forall_cons in H1 as [[s1 ->] H1].
  apply Forall_cons in H2 as [[s2 ->] H2]. simpl in Hq. subst. f_equal. by apply IH.
Qed.

(** The half of C4 that holds: on non-empty sets of names without commas the
    key determines the members. *)
Lemma keyOf_inj_comma_free (S T : list ident) :
  (∀ q, q ∈ S → ∃ s, q = Some s ∧ comma_free s) →
  (∀ q, q ∈ T → ∃ s, q = Some s ∧ comma_free s) →
  S ≠ [] → T ≠ [] →
  NFAtoDFA.keyOf S = NFAtoDFA.keyOf T → S ≡ₚ T.
Proof.
  intros HS HT HnS HnT Hkey. unfold NFAtoDFA.keyOf, join in Hkey.
  assert (∀ U : list ident,
    (∀ q, q ∈ U → ∃ s, q = Some s ∧ comma_free s) → U ≠ [] →
    Forall comma_free (joinStr <$> sort U) ∧ Forall is_Some (sort U)
    ∧ joinStr <$> sort U ≠ []) as Hsorted.
  { intros U HU HnU.
    assert (∀ q, q ∈ sort U → ∃ s, q = Some s ∧ comma_free s) as HU'.
    { intros q Hq. apply HU. unfold sort in Hq. by rewrite merge_sort_Permutation in Hq. }
    split_and!.
    - apply Forall_fmap, Forall_forall. intros q Hq.
      destruct (HU' q Hq) as (s & -> & Hs). done.
    - apply Forall_forall. intros q Hq. destruct (HU' q Hq) as (s & -> & _). eauto.
    - intros Hnil. apply fmap_nil_inv in Hnil. apply HnU.
      apply Permutation_nil_r. rewrite <-Hnil. unfold sort.
      by rewrite merge_sort_Permutation. }
  destruct (Hsorted S HS HnS) as (HS1 & HS2 & HS3).
  destruct (Hsorted T HT HnT) as (HT1 & HT2 & HT3).
  apply concat_comma_inj in Hkey; [|done..].
  apply fmap_joinStr_inj in Hkey; [|done..].
  unfold sort in Hkey. by rewrite <-(merge_sort_Permutation ident_le S), Hkey,
    merge_sort_Permutation.
Qed.

Lemma plain_names_injective (nfa : Automaton) : plain_names nfa → keys_injective nfa.
Proof.
  intros Hplain S T _ _ HnS HnT HS HT Hkey x.
  assert (S ≡ₚ T) as Hperm by (apply keyOf_inj_comma_free; auto).
  by rewrite Hperm.
Qed.

Lemma plain_names_check (nfa : Automaton) :
  Forall (λ q, from_option (λ s, bool_decide (comma_free s)) false q = true)
    (NFAtoDFA.universe nfa) →
  plain_names nfa.
Proof.
  intros Hall q Hq. rewrite Forall_forall in Hall. specialize (Hall q Hq).
  destruct q as [s|]; [|done]. simpl in Hall. apply bool_decide_eq_true in Hall. eauto.
Qed.


(** ** More on the three constructions *)

(** The trie of [forked_language], on which the minimiser changes the
    language, is deterministic and acyclic and refers to its own states. *)
Lemma forked_trie_well_formed :
  ∃ dfa,
    DAFSA.buildTrieDFA forked_language = inr dfa
    ∧ deterministic dfa ∧ ranked forked_rank dfa ∧ referential_integrity dfa
    ∧ no_empty_entry dfa.
Proof.
  eexists. split; [vm_compute; reflexivity|]. split_and!.
  - apply deterministic_map_Forall. apply (bool_decide_unpack _). vm_compute. exact I.
  - apply ranked_check. apply (bool_decide_unpack _). vm_compute. exact I.
  - apply referential_integrity_check.
    + exists "q0". split; [done|]. apply (bool_decide_unpack _). vm_compute. exact I.
    + apply (bool_decide_unpack _). vm_compute. exact I.
    + apply (bool_decide_unpack _). vm_compute. exact I.
  - apply no_empty_entry_check. apply (bool_decide_unpack _). vm_compute. exact I.
Qed.

(** [buildTrieDFA] throws on an empty alphabet, and on the first word with a
    symbol outside the alphabet, naming the word and the symbol. *)
Lemma buildTrieDFA_rejects (L : DAFSA.language) :
  (DAFSA.lang_alphabet L = [] → DAFSA.buildTrieDFA L = inl DAFSA.EmptyAlphabet)
  ∧ (∀ ws w ch rest,
       DAFSA.lang_alphabet L ≠ [] →
       DAFSA.lang_accept L = ws ++ w :: rest →
       (∀ w' c, w' ∈ ws → c ∈ chars w' → c ∈ DAFSA.lang_alphabet L) →
       first_foreign (DAFSA.lang_alphabet L) (chars w) = Some ch →
       DAFSA.buildTrieDFA L = inl (DAFSA.ForeignSymbol w ch)).
Proof.
  split.
  - intros Hnil. unfold DAFSA.buildTrieDFA. by rewrite Hnil.
  - intros ws w ch rest Hne Hacc Hws Hw. unfold DAFSA.buildTrieDFA.
    rewrite bool_decide_eq_false_2 by (by destruct (DAFSA.lang_alphabet L)).
    rewrite Hacc.
    assert (∀ cs, first_foreign (new_Set (DAFSA.lang_alphabet L)) cs
                  = first_foreign (DAFSA.lang_alphabet L) cs) as Hff.
    { intros cs. apply first_foreign_ext. intros x. apply elem_of_new_Set. }
    assert (DAFSA.check_words (new_Set (DAFSA.lang_alphabet L)) (ws ++ w :: rest)
            = Some (DAFSA.ForeignSymbol w ch)) as ->; [|done].
    clear Hacc. induction ws as [|w' ws IH]; simpl.
    + by rewrite Hff, Hw.
    + rewrite Hff.
      assert (first_foreign (DAFSA.lang_alphabet L) (chars w') = None) as ->.
      { apply first_foreign_None. intros c Hc. apply (Hws w'); [left|done]. }
      apply IH. intros w'' c Hw'' Hc. apply (Hws w''); [by right|done].
Qed.

(** The scenarios of the specification on [ExampleNFA.json] and
    [ExampleLanguage.json]: the converted automaton accepts [a] and rejects
    [b] and [bbb]; the minimised trie has five states, one fewer than the trie. *)
Lemma example_scenarios :
  (∃ dfa, NFAtoDFA.nfaToDfa example_nfa = Some dfa
          ∧ dfa = example_dfa
          ∧ accepted (NFAtoDFA.accepts dfa "a") = true
          ∧ accepted (NFAtoDFA.accepts dfa "b") = false
          ∧ accepted (NFAtoDFA.accepts dfa "bbb") = false)
  ∧ (∃ m, DAFSA.minimizeAcyclicDFA example_trie m
          ∧ states m = ["q0"; "q1"; "q2"; "q3"; "q4"]
          ∧ length (states m) < length (states example_trie)).
Proof.
  split.
  - eexists. split; [vm_compute; reflexivity|]. split; [vm_compute; reflexivity|done].
  - eexists. split; [exists 5; vm_compute; reflexivity|]. split; [done|]. simpl. lia.
Qed.

(** The key of a subset does not depend on the order in which its members
    were added: two sets with the same members have the same key. *)
Theorem keyOf_order_independent (S T : list ident) :
  NoDup S → NoDup T → (∀ x, x ∈ S ↔ x ∈ T) → NFAtoDFA.keyOf S = NFAtoDFA.keyOf T.
Proof. apply keyOf_same_members. Qed.

Lemma keyOf_order_independent_example :
  NFAtoDFA.keyOf [Some "q2"; Some "q1"] = NFAtoDFA.keyOf [Some "q1"; Some "q2"].
Proof.
  apply (keyOf_order_independent [Some "q2"; Some "q1"] [Some "q1"; Some "q2"]).
  - apply (bool_decide_unpack _). vm_compute. exact I.
  - apply (bool_decide_unpack _). vm_compute. exact I.
  - intros x. rewrite !elem_of_cons, !elem_of_nil. tauto.
Defined.

(** Two non-empty sets of names without commas that have the same key have
    the same members. *)
Theorem keyOf_injective_without_commas (S T : list ident) :
  (∀ q, q ∈ S → ∃ s, q = Some s ∧ comma_free s) →
  (∀ q, q ∈ T → ∃ s, q = Some s ∧ comma_free s) →
  S ≠ [] → T ≠ [] →
  NFAtoDFA.keyOf S = NFAtoDFA.keyOf T → ∀ x, x ∈ S ↔ x ∈ T.
Proof.
  intros HS HT HnS HnT Hkey x.
  by rewrite (keyOf_inj_comma_free S T HS HT HnS HnT Hkey).
Qed.

Lemma names_check (S : list ident) :
  Forall (λ q, from_option (λ s, bool_decide (comma_free s)) false q = true) S →
  ∀ q, q ∈ S → ∃ s, q = Some s ∧ comma_free s.
Proof.
  intros Hall q Hq. rewrite Forall_forall in Hall. specialize (Hall q Hq).
  destruct q as [s|]; [|done]. simpl in Hall. apply bool_decide_eq_true in Hall. eauto.
Qed.

Lemma keyOf_injective_example :
  Some "q1" ∈ [Some "q2"; Some "q1"] ↔ Some "q1" ∈ [Some "q1"; Some "q2"].
Proof.
  apply (keyOf_injective_without_commas [Some "q2"; Some "q1"] [Some "q1"; Some "q2"]).
  - apply names_check. apply (bool_decide_unpack _). vm_compute. exact I.
  - apply names_check. apply (bool_decide_unpack _). vm_compute. exact I.
  - discriminate.
  - discriminate.
  - reflexivity.
Defined.

(** [buildTrieDFA] fails on the first word that has a symbol outside the
    alphabet, with that word and that symbol. *)
Theorem buildTrieDFA_alphabet_violation (L : DAFSA.language) (ws : list string)
    (w ch : string) (rest : list string) :
  DAFSA.lang_alphabet L ≠ [] →
  DAFSA.lang_accept L = ws ++ w :: rest →
  (∀ w' c, w' ∈ ws → c ∈ chars w' → c ∈ DAFSA.lang_alphabet L) →
  first_foreign (DAFSA.lang_alphabet L) (chars w) = Some ch →
  DAFSA.buildTrieDFA L = inl (DAFSA.ForeignSymbol w ch).
Proof. apply buildTrieDFA_rejects. Qed.

Lemma buildTrieDFA_alphabet_violation_example :
  DAFSA.buildTrieDFA foreign_language = inl (DAFSA.ForeignSymbol "ab" "b").
Proof.
  apply (buildTrieDFA_alphabet_violation foreign_language ["a"] "ab" "b" ["c"]).
  - discriminate.
  - reflexivity.
  - apply words_over_alphabet. apply (bool_decide_unpack _). vm_compute. exact I.
  - reflexivity.
Defined.


(** ** The trie, then the minimiser *)

Lemma rank_in_newIds (a n k : nat) :
  a ≤ k → k < a + n → rank_in (DAFSA.newId <$> seq a n) (DAFSA.newId k) = a + n - k.
Proof.
  revert a. induction n as [|n IH]; intros a Hak Hk; [lia|]. simpl.
  case_decide as Heq.
  - apply newId_inj in Heq as ->. rewrite length_fmap, length_seq. lia.
  - rewrite IH; [lia| |lia]. destruct (decide (a = k)) as [->|]; [done|lia].
Qed.

(** The trie automaton is deterministic, has no empty entry, and is acyclic:
    every edge leads to a node made after its source. *)
Lemma buildTrieDFA_well_formed (L : DAFSA.language) :
  DAFSA.lang_alphabet L ≠ [] →
  (∀ w ch, w ∈ DAFSA.lang_accept L → ch ∈ chars w → ch ∈ DAFSA.lang_alphabet L) →
  ∃ dfa, DAFSA.buildTrieDFA L = inr dfa
         ∧ deterministic dfa ∧ no_empty_entry dfa ∧ ranked (rank_in (states dfa)) dfa.
Proof.
  intros Hne Hwords.
  destruct (buildTrieDFA_built L Hne Hwords)
    as (label & t & dfa & -> & Hinv & _ & _ & Hst & Hstart & Hacc & Htr).
  exists dfa. split; [done|]. split_and!.
  - intros s row ch arr. rewrite Htr, (trie_lookup label) by done.
    destruct (map_get s (DAFSA.nodes t)) as [n|] eqn:Hn; simpl; [|done].
    intros [= <-]. rewrite lookup_fmap.
    destruct (DAFSA.edges n !! ch) as [j|]; simpl; [|done]. intros [= <-]. simpl. lia.
  - intros s row ch arr. rewrite Htr, (trie_lookup label) by done.
    destruct (map_get s (DAFSA.nodes t)) as [n|] eqn:Hn; simpl; [|done].
    intros [= <-]. rewrite lookup_fmap.
    destruct (DAFSA.edges n !! ch) as [j|]; simpl; [|done]. by intros [= <-].
  - intros s row ch arr j. rewrite Htr, (trie_lookup label) by done.
    destruct (map_get s (DAFSA.nodes t)) as [n|] eqn:Hn; simpl; [|done].
    intros [= <-]. rewrite lookup_fmap.
    destruct (DAFSA.edges n !! ch) as [j'|] eqn:Hj; simpl; [|done].
    intros [= <-] [= <-].
    destruct (ti_order _ _ Hinv _ _ _ _ Hn Hj) as (ki & kj & -> & -> & Hlt).
    destruct (ti_edge _ _ Hinv _ _ _ _ Hn Hj) as [(k & Hk & Heq) _].
    apply newId_inj in Heq as <-.
    rewrite Hst, (ti_keys _ _ Hinv), !rank_in_newIds by lia. lia.
Qed.
(** With referential integrity and no empty entry, every entry has a
    destination among the states. *)
Lemma integrity_dests (D : Automaton) :
  referential_integrity D → no_empty_entry D →
  dests_in_states D ∧ missing_dest_is_dead D.
Proof.
  intros (Hstart & Hacc & Htr) Hne.
  assert (∀ s row ch arr, transitions D !! s = Some row → row !! ch = Some arr →
            ∃ t, DAFSA.first_dest arr = Some t ∧ t ∈ states D) as Hfirst.
  { intros s row ch arr Hrow Harr. destruct arr as [|q arr]; [by destruct (Hne _ _ _ _ Hrow Harr)|].
    destruct (Htr _ _ Hrow) as [_ Hd].
    destruct (Hd ch _ q Harr ltac:(left)) as (t & -> & Ht). eauto. }
  split.
  - intros s row ch arr t Hrow Harr Ht.
    destruct (Hfirst _ _ _ _ Hrow Harr) as (t' & Ht' & Hin). congruence.
  - intros s row ch arr Hrow Harr Hnone.
    destruct (Hfirst _ _ _ _ Hrow Harr) as (t' & Ht' & _). congruence.
Qed.

(** The minimiser keeps a subset of the states, each once. *)
Lemma minimize_states_bound (D M : Automaton) :
  DAFSA.minimizeAcyclicDFA_own D M →
  states M ⊆ states D ∧ NoDup (states M) ∧ length (states M) ≤ length (states D).
Proof.
  intros [fuel HM]. unfold DAFSA.minimize_fuel_own in HM.
  destruct (DAFSA.sig_all fuel D (states D) ∅) as [memo|]; simpl in HM; [|done].
  pose proof (reps_inv_final memo (states D)) as Hinv.
  destruct (foldl (DAFSA.assign_rep memo) ([], ∅) (states D)) as [rep m2r].
  injection HM as <-. simpl.
  assert (new_Set (map_values rep) ⊆ states D) as Hsub.
  { intros r Hr. by apply (rep_is_state memo (states D) rep m2r Hinv). }
  split_and!; [done|apply NoDup_new_Set|].
  apply submseteq_length, NoDup_submseteq; [apply NoDup_new_Set|done].
Qed.

(** The trie automaton is deterministic, acyclic, refers to its own states
    only and has no empty entry; on own properties the minimiser returns on
    it, the result refers to its own states only and keeps a subset of the
    states of the trie, and minimising the result again gives the same
    states. *)
Lemma trie_then_minimize_own (L : DAFSA.language) :
  DAFSA.lang_alphabet L ≠ [] →
  (∀ w ch, w ∈ DAFSA.lang_accept L → ch ∈ chars w → ch ∈ DAFSA.lang_alphabet L) →
  ∃ D M M',
    DAFSA.buildTrieDFA L = inr D
    ∧ deterministic D ∧ acyclic D ∧ referential_integrity D ∧ no_empty_entry D
    ∧ DAFSA.minimizeAcyclicDFA_own D M
    ∧ referential_integrity M
    ∧ states M ⊆ states D
    ∧ length (states M) ≤ length (states D)
    ∧ DAFSA.minimizeAcyclicDFA_own M M'
    ∧ states M' = states M.
Proof.
  intros Hne Hwords.
  destruct (buildTrieDFA_well_formed L Hne Hwords) as (D & HD & Hdet & Hnoempty & Hrank).
  destruct (buildTrieDFA_integrity L Hne Hwords) as (D' & HD' & Hint).
  assert (D' = D) as -> by congruence.
  assert (acyclic D) as Hacyc by (by exists (rank_in (states D))).
  destruct (minimize_integrity D Hint Hnoempty Hacyc) as (M & HM & HintM).
  destruct (integrity_dests D Hint Hnoempty) as [Hdests Hdead].
  destruct Hacyc as [rank Hrk].
  destruct (common_fuel D (states D)) as [fuel Hfuel].
  { intros s _. exists (2 + rank s). by apply signature_exists. }
  destruct (minimize_result D fuel Hfuel) as (memo & rep & m2r & Hmemo & _ & Hri & Hmin).
  destruct (minimize_again D memo rep m2r Hdests Hdead) as (M' & HM' & Hstates); [|done|].
  { intros s Hs. destruct (Hfuel s Hs) as [sg Hsg]. exists fuel, sg.
    split; [done|]. by rewrite (Hmemo s Hs). }
  rewrite <-(minimizeAcyclicDFA_unique D _ _ HM (ex_intro _ fuel Hmin)) in HM', Hstates.
  destruct (minimize_states_bound D M HM) as (Hsub & _ & Hlen).
  exists D, M, M'. split_and!; try done. by exists rank.
Qed.

(** ** Converting a converted automaton *)

Lemma map_keys_as_singletons sm : map_keys (as_singletons sm) = map_keys sm.
Proof.
  unfold as_singletons, map_keys. rewrite <-list_fmap_compose. by apply list_fmap_ext.
Qed.

Lemma map_has_as_singletons k sm : map_has k (as_singletons sm) = map_has k sm.
Proof.
  apply Bool.eq_iff_eq_true. by rewrite !map_has_true, map_keys_as_singletons.
Qed.

Lemma map_set_as_singletons k (T : list ident) sm :
  map_set k [Some k] (as_singletons sm) = as_singletons (map_set k T sm).
Proof.
  induction sm as [|[k' T'] sm IH]; simpl; [done|].
  case_decide; simpl; [by subst|]. by rewrite IH.
Qed.

Section Replay.
Context (nfa dfa : Automaton) (cF : NFAtoDFA.conv).
Hypothesis Halpha : alphabet dfa = alphabet nfa.
Hypothesis Htr : transitions dfa = NFAtoDFA.dfaTransitions cF.
Implicit Types (c d : NFAtoDFA.conv) (S : list ident).

Lemma expand_replays S c d sym :
  NFAtoDFA.dfaTransitions cF !! NFAtoDFA.keyOf S ≫= (.!! sym)
    = Some (entry_of (move_set (transitions nfa) S sym)) →
  replays c d →
  replays (NFAtoDFA.expand_own nfa S (NFAtoDFA.keyOf S) c sym)
          (NFAtoDFA.expand_own dfa [Some (NFAtoDFA.keyOf S)] (NFAtoDFA.keyOf S) d sym).
Proof.
  intros Hrow [Hmap Hstack Hrows]. unfold NFAtoDFA.expand_own.
  rewrite move_set_singleton. unfold moves_of. simpl. rewrite Htr, Hrow. simpl.
  rewrite new_Set_entry_of, Hmap, Hrows, map_has_as_singletons.
  set (T := move_set (transitions nfa) S sym).
  unfold entry_of. destruct T as [|x T'] eqn:HT; simpl.
  - by split.
  - change (NFAtoDFA.keyOf [Some (NFAtoDFA.keyOf (x :: T'))])
      with (NFAtoDFA.keyOf (x :: T')).
    destruct (map_has (NFAtoDFA.keyOf (x :: T')) (NFAtoDFA.statesMap c)); simpl.
    + by split.
    + split; simpl; [apply map_set_as_singletons|by rewrite Hstack|done].
Qed.

Lemma expand_all_replays S (syms : list string) : ∀ c d,
  (∀ sym, sym ∈ syms →
     NFAtoDFA.dfaTransitions cF !! NFAtoDFA.keyOf S ≫= (.!! sym)
       = Some (entry_of (move_set (transitions nfa) S sym))) →
  replays c d →
  replays (foldl (NFAtoDFA.expand_own nfa S (NFAtoDFA.keyOf S)) c syms)
          (foldl (NFAtoDFA.expand_own dfa [Some (NFAtoDFA.keyOf S)] (NFAtoDFA.keyOf S)) d syms).
Proof.
  induction syms as [|sym syms IH]; intros c d Hrows Hcd; simpl; [done|].
  apply IH.
  - intros sym' Hsym'. apply Hrows. by right.
  - apply expand_replays; [apply Hrows; left|done].
Qed.

Lemma pop_expand_replays S rest c d :
  row_done nfa (NFAtoDFA.statesMap cF) (NFAtoDFA.dfaTransitions cF)
    (NFAtoDFA.keyOf S) S (alphabet nfa) →
  replays c d →
  replays (NFAtoDFA.pop_expand_own nfa S rest c)
          (NFAtoDFA.pop_expand_own dfa [Some (NFAtoDFA.keyOf S)]
             ((λ S, [Some (NFAtoDFA.keyOf S)]) <$> rest) d).
Proof.
  intros (row & Hrow & Hall) [Hmap Hstack Hrows]. unfold NFAtoDFA.pop_expand_own.
  change (NFAtoDFA.keyOf [Some (NFAtoDFA.keyOf S)]) with (NFAtoDFA.keyOf S).
  rewrite Halpha. apply expand_all_replays.
  - intros sym Hsym. rewrite Hrow. simpl. apply (Hall sym Hsym).
  - split; simpl; [done|done|by rewrite Hrows].
Qed.

Lemma while_stack_replays : ∀ fuel c,
  conv_sound nfa c → NFAtoDFA.while_stack_own fuel nfa c = Some cF →
  ∀ fuel' d dF,
    replays c d → NFAtoDFA.while_stack_own fuel' dfa d = Some dF → replays cF dF.
Proof.
  induction fuel as [|fuel IH]; intros c Hc Hrun fuel' d dF Hcd Hrun'; simpl in Hrun;
    destruct (NFAtoDFA.stack c) as [|S rest] eqn:Hst; try done.
  - injection Hrun as <-. destruct fuel'; simpl in Hrun';
      rewrite (rp_stack _ _ Hcd), Hst in Hrun'; simpl in Hrun'; by injection Hrun' as <-.
  - injection Hrun as <-. destruct fuel'; simpl in Hrun';
      rewrite (rp_stack _ _ Hcd), Hst in Hrun'; simpl in Hrun'; by injection Hrun' as <-.
  - destruct (while_stack_sound nfa _ _ _ (pop_expand_sound nfa S rest c Hc Hst) Hrun)
      as (HcF & HstF & Hkeep).
    assert (row_done nfa (NFAtoDFA.statesMap cF) (NFAtoDFA.dfaTransitions cF)
              (NFAtoDFA.keyOf S) S (alphabet nfa)) as Hrow.
    { assert (map_get (NFAtoDFA.keyOf S) (NFAtoDFA.statesMap cF) = Some S) as HS.
      { apply Hkeep, pop_expand_keeps. apply (cs_stack _ _ Hc). rewrite Hst. left. }
      destruct (cs_done _ _ HcF _ _ HS) as [Hin|?]; [|done].
      rewrite HstF in Hin. by apply elem_of_nil in Hin. }
    destruct fuel'; simpl in Hrun'; rewrite (rp_stack _ _ Hcd), Hst in Hrun';
      simpl in Hrun'; [done|].
    eapply (IH _ (pop_expand_sound nfa S rest c Hc Hst) Hrun); [|exact Hrun'].
    by apply pop_expand_replays.
Qed.
End Replay.

Lemma dfa_accept_as_singletons (A : list string) (sm : list (string * list ident)) :
  NoDup (map_keys sm) →
  NFAtoDFA.dfa_accept (new_Set (NFAtoDFA.dfa_accept A sm)) (as_singletons sm)
  = NFAtoDFA.dfa_accept A sm.
Proof.
  intros Hnd. unfold NFAtoDFA.dfa_accept at 1 3. f_equal.
  set (P := λ kv : string * list ident, existsb (λ s, includes s A) kv.2).
  assert (∀ k, includes (Some k) (new_Set (NFAtoDFA.dfa_accept A sm)) = true
               ↔ k ∈ map_keys (filter P sm)) as Hacc.
  { intros k. rewrite includes_new_Set, includes_Some. unfold NFAtoDFA.dfa_accept.
    by rewrite elem_of_new_Set. }
  assert (∀ l : list (string * list ident),
            (∀ kv, kv ∈ l → (kv.1 ∈ map_keys (filter P sm) ↔ P kv)) →
            map_keys (filter (λ kv, existsb (λ s, includes s
                        (new_Set (NFAtoDFA.dfa_accept A sm))) kv.2) (as_singletons l))
            = map_keys (filter P l)) as Hgen.
  { induction l as [|[k T] l IH]; intros Hl; [done|].
    unfold as_singletons. rewrite fmap_cons. fold (as_singletons l).
    rewrite !filter_cons. simpl.
    assert (∀ kv, kv ∈ l → kv.1 ∈ map_keys (filter P sm) ↔ P kv) as Hl'
      by (intros kv ?; apply Hl; by right).
    specialize (Hl (k, T) ltac:(left)). simpl in Hl.
    rewrite orb_false_r.
    destruct (decide (P (k, T))) as [HP|HP].
    - rewrite decide_True; [|apply Is_true_true, Hacc, Hl, HP]. simpl.
      by rewrite IH.
    - rewrite decide_False; [by apply IH|].
      intros Hin%Is_true_true%Hacc%Hl. done. }
  apply Hgen. intros kv Hkv. unfold map_keys. rewrite list_elem_of_fmap. split.
  - intros (kv' & Hk & [HP Hin]%list_elem_of_filter).
    destruct kv as [k T], kv' as [k' T']. simpl in Hk. subst k'.
    assert (T' = T) as ->; [|done].
    apply map_get_of_elem in Hin; [|done]. apply map_get_of_elem in Hkv; [|done].
    congruence.
  - intros HP. exists kv. split; [done|]. by apply list_elem_of_filter.
Qed.

Lemma conv_sound_init (nfa : Automaton) :
  conv_sound nfa
    {| NFAtoDFA.statesMap := map_set (NFAtoDFA.keyOf [start nfa]) [start nfa] [];
       NFAtoDFA.stack := [[start nfa]];
       NFAtoDFA.dfaTransitions := ∅ |}.
Proof.
  split; simpl.
  - intros k T. case_decide; [|done]. intros [= <-]. split_and!; [done| |done|].
    + apply NoDup_singleton.
    + intros x ->%list_elem_of_singleton. left.
  - intros S ->%list_elem_of_singleton. by rewrite decide_True.
  - intros k T. case_decide; [|done]. intros [= <-]. left. left.
Qed.

(** Converting the automaton made by [nfaToDfa] gives it back. *)
Lemma nfaToDfa_twice (nfa : Automaton) :
  ∃ dfa, NFAtoDFA.nfaToDfa_own nfa = Some dfa ∧ NFAtoDFA.nfaToDfa_own dfa = Some dfa.
Proof.
  destruct (nfaToDfa_terminates nfa) as (c & Hdfa & Hok & _ & Hrun).
  eexists. split; [exact Hdfa|].
  match goal with |- NFAtoDFA.nfaToDfa_own ?a = _ => set (dfa := a) end.
  destruct (nfaToDfa_terminates dfa) as (d & -> & _ & _ & Hrun').
  destruct (λ H, while_stack_replays nfa dfa c eq_refl eq_refl _ _
                   (conv_sound_init nfa) Hrun _ _ d H Hrun') as [Hmap _ Hrows];
    [by split|].
  unfold dfa. f_equal. f_equal; simpl.
  - by rewrite Hmap, map_keys_as_singletons.
  - rewrite Hmap. apply dfa_accept_as_singletons, (ok_keys_nodup _ _ Hok).
  - done.
Qed.

(** ** The table of the subset construction *)

Section RowKeys.
Variable nfa : Automaton.
Implicit Types (c : NFAtoDFA.conv) (S : list ident).

Lemma expand_row_keys S Skey c sym :
  sym ∈ alphabet nfa → row_keys_ok nfa c → row_keys_ok nfa (NFAtoDFA.expand_own nfa S Skey c sym).
Proof.
  intros Hsym Hc.
  assert (∀ entry s row ch,
    <[Skey := <[sym := entry]> (default ∅ (NFAtoDFA.dfaTransitions c !! Skey))]>
      (NFAtoDFA.dfaTransitions c) !! s = Some row →
    is_Some (row !! ch) → ch ∈ alphabet nfa) as Hgen.
  { intros entry s row ch. destruct (decide (Skey = s)) as [<-|Hne].
    - rewrite lookup_insert_eq. intros [= <-].
      destruct (decide (sym = ch)) as [<-|Hne]; [done|].
      rewrite lookup_insert_ne by done.
      destruct (NFAtoDFA.dfaTransitions c !! Skey) as [row|] eqn:Hrow; simpl.
      + by apply (Hc Skey).
      + rewrite lookup_empty. by intros [? ?].
    - rewrite lookup_insert_ne by done. apply Hc. }
  unfold NFAtoDFA.expand_own. destruct (negb _ && negb _); intros s row ch; apply Hgen.
Qed.

Lemma pop_expand_row_keys S rest c :
  row_keys_ok nfa c → row_keys_ok nfa (NFAtoDFA.pop_expand_own nfa S rest c).
Proof.
  intros Hc. unfold NFAtoDFA.pop_expand_own.
  match goal with |- context [foldl _ ?c0 _] => set (c1 := c0) end.
  assert (row_keys_ok nfa c1) as Hc1.
  { intros s row ch. simpl. unfold NFAtoDFA.ensure_row_own.
    destruct (NFAtoDFA.dfaTransitions c !! NFAtoDFA.keyOf S) eqn:Hk; [apply Hc|].
    destruct (decide (NFAtoDFA.keyOf S = s)) as [<-|Hne].
    - rewrite lookup_insert_eq. intros [= <-]. rewrite lookup_empty. by intros [? ?].
    - rewrite lookup_insert_ne by done. apply Hc. }
  assert (∀ syms : list string, (∀ sym, sym ∈ syms → sym ∈ alphabet nfa) →
            ∀ c, row_keys_ok nfa c →
                 row_keys_ok nfa (foldl (NFAtoDFA.expand_own nfa S (NFAtoDFA.keyOf S)) c syms))
    as Hfold.
  { induction syms as [|sym syms IH]; intros Hsyms c' Hc'; simpl; [done|].
    apply IH; [intros ? ?; apply Hsyms; by right|].
    apply expand_row_keys; [apply Hsyms; left|done]. }
  by apply Hfold.
Qed.

Lemma while_stack_row_keys : ∀ fuel c c',
  row_keys_ok nfa c → NFAtoDFA.while_stack_own fuel nfa c = Some c' → row_keys_ok nfa c'.
Proof.
  induction fuel as [|fuel IH]; intros c c' Hc; simpl;
    destruct (NFAtoDFA.stack c) as [|S rest] eqn:Hst; try done.
  - by intros [= <-].
  - by intros [= <-].
  - apply IH. by apply pop_expand_row_keys.
Qed.
End RowKeys.

(** The states that the loop on own properties ends with are pairwise
    different, and there are at most [2 ^ n] of them, where [n] counts the
    different identifiers among the start state and the destinations of the
    NFA. *)
Lemma nfaToDfa_own_state_bound (nfa : Automaton) :
  ∃ dfa,
    NFAtoDFA.nfaToDfa_own nfa = Some dfa
    ∧ NoDup (states dfa)
    ∧ length (states dfa) ≤ 2 ^ length (remove_dups (NFAtoDFA.universe nfa)).
Proof.
  destruct (nfaToDfa_terminates nfa) as (c & -> & Hok & _ & Hrun).
  eexists. split; [done|]. simpl. split.
  - apply (ok_keys_nodup _ _ Hok).
  - pose proof (conv_ok_size nfa c Hok) as Hsize.
    rewrite length_subset_keys in Hsize. unfold map_keys. by rewrite length_fmap.
Qed.

(** The table that the loop on own properties ends with is total: it has a
    row for every state and for nothing else, and every row has an entry for
    every symbol of the alphabet and for nothing else. *)
Lemma nfaToDfa_own_table_total (nfa : Automaton) :
  ∃ dfa,
    NFAtoDFA.nfaToDfa_own nfa = Some dfa
    ∧ alphabet dfa = alphabet nfa
    ∧ (∀ s, is_Some (transitions dfa !! s) ↔ s ∈ states dfa)
    ∧ (∀ s row sym, transitions dfa !! s = Some row →
         (is_Some (row !! sym) ↔ sym ∈ alphabet dfa)).
Proof.
  destruct (nfaToDfa_terminates nfa) as (c & -> & Hok & _ & Hrun).
  destruct (while_stack_sound nfa _ _ _ (conv_sound_init nfa) Hrun) as (Hsound & Hstack & _).
  assert (row_keys_ok nfa c) as Hkeys.
  { eapply while_stack_row_keys; [|exact Hrun]. intros s row ch. simpl.
    by rewrite lookup_empty. }
  assert (∀ s, s ∈ map_keys (NFAtoDFA.statesMap c) →
            ∃ T, row_done nfa (NFAtoDFA.statesMap c) (NFAtoDFA.dfaTransitions c)
                   s T (alphabet nfa)) as Hrows.
  { intros s Hs. apply map_has_true in Hs. unfold map_has in Hs.
    apply bool_decide_eq_true in Hs as [T HT]. exists T.
    destruct (cs_done _ _ Hsound _ _ HT) as [Hin|?]; [|done].
    rewrite Hstack in Hin. by apply elem_of_nil in Hin. }
  eexists. split; [done|]. simpl. split_and!.
  - done.
  - intros s. split; [apply (ok_sources _ _ Hok)|].
    intros Hs. destruct (Hrows s Hs) as (T & row & -> & _). done.
  - intros s row sym Hrow. split; [by apply (Hkeys s row)|].
    intros Hsym. destruct (Hrows s) as (T & row' & Hrow' & Hall).
    { apply (ok_sources _ _ Hok). by rewrite Hrow. }
    assert (row' = row) as -> by congruence.
    destruct (Hall sym Hsym) as [-> _]. done.
Qed.
(** ** The runs of an NFA and the two evaluators *)

(** The set kept by the simulation loop of [accepts] holds the states that
    some run reaches; the loop stops on a dead configuration exactly when no
    run exists. *)
Lemma run_paths tr (cs : list string) : ∀ current : list ident,
  match NFAtoDFA.run tr current cs with
  | Some S' => ∀ q', q' ∈ S' ↔ ∃ q, q ∈ current ∧ nfa_path tr q cs q'
  | None => ∀ q q', q ∈ current → ¬ nfa_path tr q cs q'
  end.
Proof.
  induction cs as [|ch cs IH]; intros current; simpl.
  - intros q'. split.
    + intros Hq'. exists q'. split; [done|constructor].
    + intros (q & Hq & Hpath). by inversion Hpath; subst.
  - case_bool_decide as Hlen.
    + intros q q' Hq Hpath. inversion Hpath as [|? ? t ? ? Ht Hrest]; subst.
      assert (t ∈ move_set tr current ch) as Hin by (apply elem_of_move_set; eauto).
      destruct (move_set tr current ch); [by apply elem_of_nil in Hin|done].
    + specialize (IH (move_set tr current ch)).
      destruct (NFAtoDFA.run tr (move_set tr current ch) cs) as [S'|].
      * intros q'. rewrite IH. split.
        -- intros (t & (q & Hq & Ht)%elem_of_move_set & Hpath).
           exists q. split; [done|]. by econstructor.
        -- intros (q & Hq & Hpath). inversion Hpath as [|? ? t ? ? Ht Hrest]; subst.
           exists t. split; [|done]. apply elem_of_move_set. eauto.
      * intros q q' Hq Hpath. inversion Hpath as [|? ? t ? ? Ht Hrest]; subst.
        apply (IH t q'); [|done]. apply elem_of_move_set. eauto.
Qed.

(** A run that ends in an accept state makes [accepts] accept. *)
Lemma accepts_of_path (a : Automaton) (w : string) q :
  (∀ ch, ch ∈ chars w → ch ∈ alphabet a) → truthy (start a) = true →
  nfa_path (transitions a) (start a) (chars w) q → includes q (accept a) = true →
  accepted (NFAtoDFA.accepts a w) = true.
Proof.
  intros Hall Htruthy Hpath Hacc. unfold NFAtoDFA.accepts.
  assert (first_foreign (new_Set (alphabet a)) (chars w) = None) as ->.
  { apply first_foreign_None. intros x Hx. apply elem_of_new_Set. auto. }
  rewrite Htruthy. simpl. change (new_Set [start a]) with [start a].
  pose proof (run_paths (transitions a) (chars w) [start a]) as Hrun.
  destruct (NFAtoDFA.run (transitions a) [start a] (chars w)) as [S'|]; simpl.
  - apply existsb_elem_of. exists q. split.
    + apply Hrun. exists (start a). split; [left|done].
    + by rewrite includes_new_Set.
  - destruct (Hrun (start a) q); [left|done].
Qed.

(** X12. [accepts] of NFAtoDFA.js accepts a string exactly when every
    character is in the alphabet, the start state is a non-empty string, and
    some run of the automaton on the string, taking at each symbol one of the
    listed moves, ends in an accept state. *)
Theorem accepts_iff_path (a : Automaton) (w : string) :
  accepted (NFAtoDFA.accepts a w) = true
  ↔ (∀ ch, ch ∈ chars w → ch ∈ alphabet a)
    ∧ truthy (start a) = true
    ∧ ∃ q, nfa_path (transitions a) (start a) (chars w) q ∧ includes q (accept a) = true.
Proof.
  split; [|intros (Hall & Htruthy & q & Hpath & Hacc); by eapply accepts_of_path].
  unfold NFAtoDFA.accepts.
  destruct (first_foreign (new_Set (alphabet a)) (chars w)) as [ch|] eqn:Hff; [done|].
  assert (∀ ch, ch ∈ chars w → ch ∈ alphabet a) as Hcs.
  { intros ch Hch. apply elem_of_new_Set. by apply (first_foreign_None _ (chars w)). }
  destruct (truthy (start a)) eqn:Htruthy; simpl; [|done].
  change (new_Set [start a]) with [start a].
  pose proof (run_paths (transitions a) (chars w) [start a]) as Hrun.
  destruct (NFAtoDFA.run (transitions a) [start a] (chars w)) as [S'|]; simpl; [|done].
  rewrite existsb_elem_of. intros (q & Hq & Hacc). split_and!; [done..|].
  apply Hrun in Hq as (q0 & ->%list_elem_of_singleton & Hpath).
  exists q. by rewrite includes_new_Set in Hacc.
Qed.

(** The walk of [accepts] of DAFSA.js along the first destinations is a run. *)
Lemma dafsa_run_path (a : Automaton) (cs : list string) : ∀ s,
  accepted (DAFSA.run a s cs) = true →
  ∃ q, nfa_path (transitions a) s cs q ∧ includes q (accept a) = true.
Proof.
  induction cs as [|ch cs IH]; intros s; simpl.
  - intros Hacc. exists s. split; [constructor|done].
  - destruct (transitions a !! propKey s ≫= (.!! ch)) as [[|t arr]|] eqn:Hrow; simpl;
      [done| |done].
    intros (q & Hpath & Hacc)%IH. exists q. split; [|done].
    apply (path_cons _ _ _ t); [|done].
    unfold moves_of. rewrite Hrow. simpl. left.
Qed.

(** X13. On every automaton with a non-empty start state, a string accepted
    by [accepts] of DAFSA.js, which follows the first destination of each
    entry, is accepted by [accepts] of NFAtoDFA.js, which follows them all. *)
Theorem first_destination_run_is_a_run (a : Automaton) (w : string) :
  truthy (start a) = true →
  accepted (DAFSA.accepts a w) = true → accepted (NFAtoDFA.accepts a w) = true.
Proof.
  intros Htruthy Hacc. unfold DAFSA.accepts in Hacc.
  destruct (first_foreign (new_Set (alphabet a)) (chars w)) as [ch|] eqn:Hff; [done|].
  apply dafsa_run_path in Hacc as (q & Hpath & Hq).
  apply (accepts_of_path a w q); [|done..].
  intros ch Hch. apply elem_of_new_Set. by apply (first_foreign_None _ (chars w)).
Qed.

Lemma first_destination_run_example :
  truthy (start example_dfa) = true
  ∧ accepted (DAFSA.accepts example_dfa "ba") = true
  ∧ accepted (NFAtoDFA.accepts example_dfa "ba") = true.
Proof.
  split_and!; [reflexivity|reflexivity|].
  apply (first_destination_run_is_a_run example_dfa "ba"); reflexivity.
Defined.
(** ** Every state of the DFA is reached *)

Section Discovery.
Context (nfa : Automaton) (startKey : string).
Implicit Types (c : NFAtoDFA.conv) (S : list ident).

Lemma discovered_snoc sm k0 T0 sym :
  discovered nfa startKey sm →
  (k0, T0) ∈ sm → sym ∈ alphabet nfa →
  move_set (transitions nfa) T0 sym ≠ [] →
  discovered nfa startKey
    (sm ++ [(NFAtoDFA.keyOf (move_set (transitions nfa) T0 sym),
             move_set (transitions nfa) T0 sym)]).
Proof.
  intros Hsm Hin Hsym Hne sm1 k T sm2 Heq.
  destruct sm2 as [|z sm2 _] using rev_ind.
  - apply app_inj_tail in Heq as [<- [= <- <-]]. right. by exists k0, T0, sym.
  - rewrite app_comm_cons, (assoc_L (++)) in Heq.
    apply app_inj_tail in Heq as [-> _]. by apply (Hsm sm1 k T sm2).
Qed.

Lemma expand_discovered S seen c sym :
  expand_inv nfa S seen c → sym ∈ alphabet nfa →
  discovered nfa startKey (NFAtoDFA.statesMap c) →
  discovered nfa startKey
    (NFAtoDFA.statesMap (NFAtoDFA.expand_own nfa S (NFAtoDFA.keyOf S) c sym)).
Proof.
  intros Hinv Hsym Hd. unfold NFAtoDFA.expand_own.
  destruct (negb _ && negb (map_has _ _)) eqn:Hcond; simpl; [|done].
  apply andb_true_iff in Hcond as [Hsize Hhas].
  apply negb_true_iff, map_has_false in Hhas.
  rewrite map_set_absent by done.
  apply (discovered_snoc _ (NFAtoDFA.keyOf S) S sym); [done| |done|].
  - apply map_get_elem, (ei_self _ _ _ _ Hinv).
  - intros Hnil. rewrite Hnil in Hsize. done.
Qed.

Lemma expand_all_discovered S (syms : list string) : ∀ seen c,
  expand_inv nfa S seen c → (∀ sym, sym ∈ syms → sym ∈ alphabet nfa) →
  discovered nfa startKey (NFAtoDFA.statesMap c) →
  discovered nfa startKey
    (NFAtoDFA.statesMap (foldl (NFAtoDFA.expand_own nfa S (NFAtoDFA.keyOf S)) c syms)).
Proof.
  induction syms as [|sym syms IH]; intros seen c Hinv Hsyms Hd; simpl; [done|].
  apply (IH (seen ++ [sym])).
  - by apply expand_sound.
  - intros sym' ?. apply Hsyms. by right.
  - eapply expand_discovered; [done|apply Hsyms; left|done].
Qed.

(** The invariant of the [for] loop holds when the loop starts. *)
Lemma pop_expand_init S rest c :
  conv_sound nfa c → NFAtoDFA.stack c = S :: rest →
  expand_inv nfa S []
    {| NFAtoDFA.statesMap := NFAtoDFA.statesMap c;
       NFAtoDFA.stack := rest;
       NFAtoDFA.dfaTransitions :=
         NFAtoDFA.ensure_row_own (NFAtoDFA.keyOf S) (NFAtoDFA.dfaTransitions c) |}.
Proof.
  intros [Hkey Hstack Hdone] Hst.
  assert (map_get (NFAtoDFA.keyOf S) (NFAtoDFA.statesMap c) = Some S) as Hself.
  { apply Hstack. rewrite Hst. left. }
  split; simpl; try done.
  - intros S' HS'. apply Hstack. rewrite Hst. by right.
  - unfold NFAtoDFA.ensure_row_own.
    destruct (NFAtoDFA.dfaTransitions c !! NFAtoDFA.keyOf S) as [row|] eqn:Hrow.
    + exists row. split; [done|]. by intros sym ?%elem_of_nil.
    + exists ∅. split; [apply lookup_insert_eq|]. by intros sym ?%elem_of_nil.
  - intros k T HT Hk. destruct (Hdone _ _ HT) as [Hin|Hd].
    + left. rewrite Hst in Hin. apply elem_of_cons in Hin as [->|?]; [|done].
      destruct (Hkey _ _ HT) as [-> _]. done.
    + right. eapply row_done_mono; [done| |done].
      unfold NFAtoDFA.ensure_row_own.
      destruct (NFAtoDFA.dfaTransitions c !! NFAtoDFA.keyOf S); [done|].
      by rewrite lookup_insert_ne.
Qed.

Lemma while_stack_discovered : ∀ fuel c c',
  conv_sound nfa c → discovered nfa startKey (NFAtoDFA.statesMap c) →
  NFAtoDFA.while_stack_own fuel nfa c = Some c' →
  discovered nfa startKey (NFAtoDFA.statesMap c').
Proof.
  induction fuel as [|fuel IH]; intros c c' Hc Hd; simpl;
    destruct (NFAtoDFA.stack c) as [|S rest] eqn:Hst; try done.
  - by intros [= <-].
  - by intros [= <-].
  - apply IH; [by apply pop_expand_sound|].
    unfold NFAtoDFA.pop_expand_own.
    eapply expand_all_discovered; [by apply pop_expand_init|done|done].
Qed.
End Discovery.

Lemma nfa_path_snoc tr q cs t ch q' :
  nfa_path tr q cs t → q' ∈ moves_of tr t ch → nfa_path tr q (cs ++ [ch]) q'.
Proof.
  induction 1 as [q|q c t1 cs t Hstep Hrest IH]; intros Hq'; simpl.
  - apply (path_cons _ _ _ q'); [done|constructor].
  - apply (path_cons _ _ _ t1); [done|by apply IH].
Qed.

(** Every state that the loop on own properties ends with is reached from
    the start state by a string over the alphabet. *)
Lemma nfaToDfa_own_states_reachable (nfa : Automaton) :
  ∃ dfa,
    NFAtoDFA.nfaToDfa_own nfa = Some dfa
    ∧ ∀ s, s ∈ states dfa →
        ∃ w, (∀ ch, ch ∈ w → ch ∈ alphabet dfa)
             ∧ nfa_path (transitions dfa) (start dfa) w (Some s).
Proof.
  destruct (nfaToDfa_terminates nfa) as (c & -> & Hok & _ & Hrun).
  destruct (while_stack_sound nfa _ _ _ (conv_sound_init nfa) Hrun) as (Hsound & Hstack & _).
  assert (discovered nfa (NFAtoDFA.keyOf [start nfa]) (NFAtoDFA.statesMap c)) as Hd.
  { eapply while_stack_discovered; [apply conv_sound_init| |exact Hrun].
    intros sm1 k T sm2. simpl. destruct sm1 as [|? [|? ?]]; [|done..].
    intros [= <- <-]. by left. }
  eexists. split; [done|]. simpl.
  assert (∀ n sm1 k T sm2, length sm1 = n →
            NFAtoDFA.statesMap c = sm1 ++ (k, T) :: sm2 →
            ∃ w, (∀ ch, ch ∈ w → ch ∈ alphabet nfa)
                 ∧ nfa_path (NFAtoDFA.dfaTransitions c)
                     (Some (NFAtoDFA.keyOf [start nfa])) w (Some k)) as Hall.
  { intros n. induction (lt_wf n) as [n _ IH]. intros sm1 k T sm2 Hlen Heq.
    destruct (Hd _ _ _ _ Heq) as [->|(k0 & T0 & sym & Hin & Hsym & HT & Hne & Hk)].
    { exists []. split; [by intros ch ?%elem_of_nil|constructor]. }
    rewrite HT in Hne, Hk.
    apply list_elem_of_split in Hin as (l1 & l2 & ->).
    destruct (IH (length l1)) with (sm1 := l1) (k := k0) (T := T0)
      (sm2 := l2 ++ (k, T) :: sm2) as (w & Hw & Hpath); [|done| |].
    { rewrite <-Hlen, length_app. simpl. lia. }
    { by rewrite Heq, <-(assoc_L (++)). }
    assert (map_get k0 (NFAtoDFA.statesMap c) = Some T0) as HT0.
    { apply map_get_of_elem; [apply (ok_keys_nodup _ _ Hok)|].
      rewrite Heq. apply elem_of_app. left. apply elem_of_app. right. left. }
    destruct (cs_done _ _ Hsound _ _ HT0) as [Hin|(row & Hrow & Hrows)].
    { rewrite Hstack in Hin. by apply elem_of_nil in Hin. }
    destruct (Hrows sym Hsym) as [Hent _].
    exists (w ++ [sym]). split.
    - intros ch [?| ->%list_elem_of_singleton]%elem_of_app; auto.
    - eapply nfa_path_snoc; [done|]. unfold moves_of. simpl. rewrite Hrow. simpl.
      rewrite Hent, entry_of_cons by done. rewrite Hk. left. }
  intros s Hs. unfold map_keys in Hs. apply list_elem_of_fmap in Hs as ([k T] & -> & Hin).
  apply list_elem_of_split in Hin as (l1 & l2 & Heq).
  by apply (Hall (length l1) l1 k T l2).
Qed.
(** ** The subset construction on a deterministic automaton *)

Lemma move_set_deterministic (nfa : Automaton) (x : string) sym :
  deterministic nfa → string_names nfa →
  move_set (transitions nfa) [Some x] sym = []
  ∨ ∃ y : string, move_set (transitions nfa) [Some x] sym = [Some y].
Proof.
  intros Hdet Hnames. rewrite move_set_singleton.
  destruct (moves_of (transitions nfa) (Some x) sym) as [|q [|q' arr]] eqn:Hmoves.
  - by left.
  - right. destruct (Hnames q) as [y ->]; [|by exists y].
    apply (moves_in_universe nfa (Some x) sym). rewrite Hmoves. left.
  - exfalso. unfold moves_of in Hmoves. simpl in Hmoves.
    destruct (transitions nfa !! x) as [row|] eqn:Hrow; simpl in Hmoves; [|done].
    destruct (row !! sym) as [arr'|] eqn:Harr; simpl in Hmoves; [|done].
    pose proof (Hdet _ _ _ _ Hrow Harr) as Hlen. rewrite Hmoves in Hlen. simpl in Hlen. lia.
Qed.

Lemma discovered_singletons (nfa : Automaton) (x0 : string) sm :
  deterministic nfa → string_names nfa → NoDup (map_keys sm) →
  map_get x0 sm = Some [Some x0] →
  discovered nfa x0 sm → stored_singletons sm.
Proof.
  intros Hdet Hnames Hnd Hstart Hd.
  assert (∀ n sm1 k T sm2, length sm1 = n → sm = sm1 ++ (k, T) :: sm2 →
            ∃ x : string, T = [Some x]) as Hall.
  { intros n. induction (lt_wf n) as [n _ IH]. intros sm1 k T sm2 Hlen Heq.
    destruct (Hd _ _ _ _ Heq) as [->|(k0 & T0 & sym & Hin & Hsym & HT & Hne & Hk)].
    - exists x0. assert (map_get x0 sm = Some T) as HT; [|congruence].
      apply map_get_of_elem; [done|]. rewrite Heq. apply elem_of_app. right. left.
    - apply list_elem_of_split in Hin as (l1 & l2 & ->).
      destruct (IH (length l1)) with (sm1 := l1) (k := k0) (T := T0)
        (sm2 := l2 ++ (k, T) :: sm2) as [x ->]; [|done| |].
      { rewrite <-Hlen, length_app. simpl. lia. }
      { by rewrite Heq, <-(assoc_L (++)). }
      destruct (move_set_deterministic nfa x sym Hdet Hnames) as [Hnil|[y Hy]];
        [congruence|]. exists y. congruence. }
  intros k T Hin. apply list_elem_of_split in Hin as (l1 & l2 & Heq).
  by apply (Hall (length l1) l1 k T l2).
Qed.

Section Deterministic.
Context (nfa : Automaton) (c : NFAtoDFA.conv).
Hypothesis Hdet : deterministic nfa.
Hypothesis Hnames : string_names nfa.
Hypothesis Hok : conv_ok nfa c.
Hypothesis Hsound : conv_sound nfa c.
Hypothesis Hstack : NFAtoDFA.stack c = [].
Hypothesis Hsingle : stored_singletons (NFAtoDFA.statesMap c).

Local Abbreviation sm := (NFAtoDFA.statesMap c).
Local Abbreviation tr := (NFAtoDFA.dfaTransitions c).

(** The key of a stored subset is the name of its state. *)
Lemma stored_singleton k T : map_get k sm = Some T → T = [Some k].
Proof.
  intros HT. destruct (Hsingle k T (map_get_elem _ _ _ HT)) as [x ->].
  by destruct (cs_key _ _ Hsound _ _ HT) as [-> _].
Qed.

(** A step of the DFA from the state [k] is the step of the automaton, and
    leads to a state of the DFA. *)
Lemma dfa_step_deterministic k ch :
  is_Some (map_get k sm) → ch ∈ alphabet nfa →
  move_set tr [Some k] ch = move_set (transitions nfa) [Some k] ch
  ∧ (move_set (transitions nfa) [Some k] ch = []
     ∨ ∃ k', move_set (transitions nfa) [Some k] ch = [Some k']
             ∧ is_Some (map_get k' sm)).
Proof.
  intros [T HT] Hch. pose proof (stored_singleton k T HT) as ->.
  destruct (cs_done _ _ Hsound _ _ HT) as [Hin|(row & Hrow & Hall)].
  { rewrite Hstack in Hin. by apply elem_of_nil in Hin. }
  destruct (Hall _ Hch) as [Hent Hstored].
  assert (move_set tr [Some k] ch
          = entry_of (move_set (transitions nfa) [Some k] ch)) as Hstep.
  { rewrite move_set_singleton. unfold moves_of. simpl. rewrite Hrow. simpl.
    rewrite Hent. simpl. apply new_Set_entry_of. }
  destruct (move_set_deterministic nfa k ch Hdet Hnames) as [Hnil|[y Hy]].
  - rewrite Hstep, Hnil. split; [done|by left].
  - rewrite Hy in Hstep, Hstored. split; [by rewrite Hstep, Hy|]. right.
    exists y. split; [done|]. by apply Hstored.
Qed.

Lemma run_deterministic (cs : list string) : ∀ k,
  is_Some (map_get k sm) → (∀ ch, ch ∈ cs → ch ∈ alphabet nfa) →
  NFAtoDFA.run tr [Some k] cs = NFAtoDFA.run (transitions nfa) [Some k] cs
  ∧ ∀ S', NFAtoDFA.run (transitions nfa) [Some k] cs = Some S' →
          ∃ k', S' = [Some k'] ∧ is_Some (map_get k' sm).
Proof.
  induction cs as [|ch cs IH]; intros k Hk Hcs; simpl.
  - split; [done|]. intros S' [= <-]. eauto.
  - destruct (dfa_step_deterministic k ch Hk) as [-> Hnext]; [apply Hcs; left|].
    destruct Hnext as [->|(k' & -> & Hk')]; simpl; [done|].
    apply IH; [done|]. intros ch' ?. apply Hcs. by right.
Qed.
End Deterministic.

(** On a deterministic automaton whose start state and destinations are
    strings, the automaton that the loop on own properties ends with gives
    every input the verdict of the automaton. *)
Lemma nfaToDfa_own_equivalent_deterministic (nfa : Automaton) (w : string) :
  deterministic nfa → string_names nfa →
  ∃ dfa,
    NFAtoDFA.nfaToDfa_own nfa = Some dfa
    ∧ accepted (NFAtoDFA.accepts nfa w) = accepted (NFAtoDFA.accepts dfa w).
Proof.
  intros Hdet Hnames.
  destruct (nfaToDfa_terminates nfa) as (c & -> & Hok & _ & Hrun).
  eexists. split; [done|].
  destruct (while_stack_sound nfa _ _ _ (conv_sound_init nfa) Hrun)
    as (Hsound & Hstack & Hkeep).
  destruct (Hnames (start nfa)) as [s0 Hs0]; [left|].
  assert (map_get s0 (NFAtoDFA.statesMap c) = Some [Some s0]) as Hstart.
  { specialize (Hkeep (NFAtoDFA.keyOf [start nfa]) [start nfa]). rewrite Hs0 in Hkeep.
    apply Hkeep. simpl. by rewrite decide_True. }
  assert (stored_singletons (NFAtoDFA.statesMap c)) as Hsingle.
  { apply (discovered_singletons nfa s0); [done|done|apply (ok_keys_nodup _ _ Hok)|done|].
    eapply while_stack_discovered; [apply conv_sound_init| |exact Hrun].
    intros sm1 k T sm2. simpl. rewrite Hs0. destruct sm1 as [|? [|? ?]]; [|done..].
    intros [= <- <-]. by left. }
  unfold NFAtoDFA.accepts. simpl. rewrite Hs0.
  destruct (first_foreign (new_Set (alphabet nfa)) (chars w)) eqn:Hff; [done|].
  assert (∀ ch, ch ∈ chars w → ch ∈ alphabet nfa) as Hcs.
  { intros ch Hch. apply elem_of_new_Set. by apply (first_foreign_None _ (chars w)). }
  change (NFAtoDFA.keyOf [Some s0]) with s0.
  change (negb (bool_decide (s0 = ""))) with (truthy (Some s0)).
  destruct (truthy (Some s0)) eqn:Htruthy; simpl; [|done].
  change (new_Set [Some s0]) with [Some s0].
  destruct (run_deterministic nfa c Hdet Hnames Hsound Hstack Hsingle (chars w) s0)
    as [-> Hend]; [eauto|done|].
  destruct (NFAtoDFA.run (transitions nfa) [Some s0] (chars w)) as [S'|]; [|done].
  destruct (Hend S' eq_refl) as (k' & -> & [T' HT']). simpl. rewrite !orb_false_r.
  apply Bool.eq_iff_eq_true.
  rewrite (dfa_accept_member nfa c Hok k' T') by done.
  rewrite (stored_singleton nfa c Hsound Hsingle k' T' HT'). simpl.
  by rewrite orb_false_r.
Qed.

Lemma string_names_check (nfa : Automaton) :
  Forall (λ q : ident, is_Some q) (NFAtoDFA.universe nfa) → string_names nfa.
Proof.
  intros Hall q Hq. rewrite Forall_forall in Hall. destruct (Hall q Hq) as [s ->]. eauto.
Qed.

(** ** The tester before and after a conversion *)

(** ** The minimiser on its own result *)

Lemma filter_ext_elem {A} (P Q : A → Prop) `{∀ x, Decision (P x)} `{∀ x, Decision (Q x)}
    (l : list A) :
  (∀ x, x ∈ l → P x ↔ Q x) → filter P l = filter Q l.
Proof.
  induction l as [|x l IH]; intros Hl; [done|]. rewrite !filter_cons.
  rewrite IH by (intros y ?; apply Hl; by right).
  destruct (decide (P x)) as [HP|HP].
  - rewrite decide_True; [done|]. apply Hl; [left|done].
  - rewrite decide_False; [done|]. intros HQ. apply HP, Hl; [left|done].
Qed.

Section FixedPoint.
Context (D : Automaton) (memo : gmap ident string)
        (rep : list (ident * string)) (m2r : gmap string ident).
Hypothesis Hdests : dests_in_states D.
Hypothesis Hdead : missing_dest_is_dead D.
Hypothesis Hmemo :
  ∀ s, s ∈ states D →
       ∃ fuel sg, signature_at fuel D (Some s) = Some sg ∧ memo !! Some s = Some sg.
Hypothesis Hinv : reps_inv memo (states D) (rep, m2r).

Local Abbreviation M := (minimized D rep m2r).

(** The representative of a state is a state of the minimised automaton, or
    [undefined]. *)
Lemma rep_of_minimized q :
  DAFSA.rep_of m2r q = None ∨ ∃ r, DAFSA.rep_of m2r q = Some r ∧ r ∈ states M.
Proof.
  destruct q as [s|]; simpl; [|by left].
  destruct (m2r !! s) as [x|] eqn:Hx; simpl; [|by left].
  assert (s ∈ states D) as Hs by (apply (ri_dom _ _ _ Hinv); simpl; eauto).
  destruct (rep_of_state memo (states D) rep m2r Hinv s Hs) as (r & Hr & Hin & _).
  simpl in Hr. rewrite Hx in Hr. simpl in Hr. subst x. right. eauto.
Qed.

(** The minimised automaton is a fixed point of the minimiser. *)
Lemma minimize_fixed : DAFSA.minimizeAcyclicDFA_own M M.
Proof.
  assert (∀ r, r ∈ states M →
               ∃ sg, memo !! Some r = Some sg
                     ∧ signature_at (S (S (String.length sg))) M (Some r) = Some sg) as Hsig.
  { intros r Hr.
    destruct (Hmemo r (rep_is_state memo (states D) rep m2r Hinv r Hr))
      as (fr & sgr & Hsgr & Hmr).
    exists sgr. split; [done|].
    by apply (signature_minimized D memo rep m2r Hdests Hdead Hmemo Hinv _ r sgr fr). }
  destruct (common_fuel M (states M)) as [fuel Hfuel].
  { intros r Hr. destruct (Hsig r Hr) as (sg & _ & Hsg). eauto. }
  destruct (minimize_result M fuel Hfuel)
    as (memo' & rep' & m2r' & Hmemo' & Hfold & Hinv' & Hmin).
  exists fuel. rewrite Hmin. f_equal.
  assert (NoDup (new_Set (map_values rep))) as Hnd by apply NoDup_new_Set.
  assert (∀ r, r ∈ states M → memo' !! Some r = memo !! Some r) as Hsame.
  { intros r Hr. destruct (Hsig r Hr) as (sg & -> & Hsg). rewrite (Hmemo' r Hr).
    destruct (Hfuel r Hr) as [sg' Hsg']. rewrite Hsg'. f_equal.
    by eapply signature_at_unique. }
  assert (map_values rep' = new_Set (map_values rep)) as Hvals.
  { pose proof (assign_reps_distinct memo' (states M) [] [] ∅) as Hd.
    rewrite Hfold in Hd. apply Hd; [|done..].
    apply NoDup_fmap_2_strong; [|done].
    intros r1 r2 Hr1 Hr2. rewrite !Hsame by done.
    by apply (rep_signature_inj memo (states D) rep m2r Hinv). }
  assert (new_Set (map_values rep') = new_Set (map_values rep)) as Hstates.
  { rewrite Hvals. by apply new_Set_NoDup. }
  assert (∀ r, r ∈ states M → DAFSA.rep_of m2r' (Some r) = Some r) as Hid.
  { intros r Hr.
    destruct (rep_of_state memo' (states M) rep' m2r' Hinv' r Hr) as (r' & Hrep & Hin & Heq).
    rewrite Hrep. f_equal. rewrite Hstates in Hin.
    rewrite !Hsame in Heq by done.
    by apply (rep_signature_inj memo (states D) rep m2r Hinv). }
  assert (∀ q, DAFSA.rep_of m2r' (DAFSA.rep_of m2r q) = DAFSA.rep_of m2r q) as Hid'.
  { intros q. destruct (rep_of_minimized q) as [->|(r & -> & Hr)]; [done|by apply Hid]. }
  unfold minimized at 1. rewrite Hstates. unfold minimized. f_equal.
  - apply Hid'.
  - apply filter_ext_elem. intros r Hr.
    pose proof (minimized_final D rep m2r r Hr) as Hf. simpl in Hf. simpl.
    by rewrite Hf.
  - apply map_eq. intros s. rewrite !new_transitions_lookup.
    case_decide as Hs; [|done]. f_equal.
    cbn [transitions].
    rewrite new_transitions_lookup, decide_True by done.
    change (default ∅ (Some ?x)) with x.
    rewrite <-map_fmap_compose. apply map_fmap_ext. intros a arr _. unfold compose.
    change (DAFSA.first_dest [?x]) with x. by rewrite Hid'.
Qed.
End FixedPoint.

(** The minimiser returns on an acyclic automaton, and returns its result
    unchanged when called on it. *)
Lemma minimize_returns_fixed (D : Automaton) :
  dests_in_states D → missing_dest_is_dead D → acyclic D →
  ∃ M, DAFSA.minimizeAcyclicDFA_own D M ∧ DAFSA.minimizeAcyclicDFA_own M M.
Proof.
  intros Hdests Hdead [rank Hrank].
  destruct (common_fuel D (states D)) as [fuel Hfuel].
  { intros s _. exists (2 + rank s). by apply signature_exists. }
  destruct (minimize_result D fuel Hfuel) as (memo & rep & m2r & Hmemo & _ & Hinv & Hmin).
  exists (minimized D rep m2r). split; [by exists fuel|].
  apply (minimize_fixed D memo rep m2r Hdests Hdead); [|done].
  intros s Hs. destruct (Hfuel s Hs) as [sg Hsg]. exists fuel, sg.
  split; [done|]. by rewrite (Hmemo s Hs).
Qed.

(** On own properties, the minimiser returns on every acyclic automaton
    whose destinations are members of [states] and which has no row under the
    key ["undefined"] if one of its entries has no destination, and on its
    result it returns that result unchanged. *)
Lemma minimize_own_fixpoint (D : Automaton) :
  dests_in_states D → missing_dest_is_dead D → acyclic D →
  (∃ M, DAFSA.minimizeAcyclicDFA_own D M)
  ∧ ∀ M, DAFSA.minimizeAcyclicDFA_own D M → DAFSA.minimizeAcyclicDFA_own M M.
Proof.
  intros Hdests Hdead Hacyc.
  destruct (minimize_returns_fixed D Hdests Hdead Hacyc) as (M0 & HM0 & Hfix).
  split; [eauto|]. intros M HM.
  by rewrite (minimizeAcyclicDFA_unique D _ _ HM HM0).
Qed.

(** ** The minimiser on an automaton with a cycle *)

Section Cycles.
Variable dfa : Automaton.

Lemma reaches_cycle_step q :
  reaches_cycle dfa q → ∃ q', sig_step dfa q q' ∧ reaches_cycle dfa q'.
Proof.
  intros (c & Hqc & Hcc). inversion Hqc as [|? q1 ? Hstep Hrest]; subst.
  - inversion Hcc as [? ? Hstep|? q1 ? Hstep Hrest]; subst.
    + exists c. split; [done|]. by exists c.
    + exists q1. split; [done|]. exists c. split; [by apply tc_rtc|done].
  - exists q1. split; [done|]. by exists c.
Qed.

Lemma sig_parts_cycle_free
    (sig : ident → gmap ident string → option (string * gmap ident string)) edges :
  (∀ q memo sg memo', cycle_free dfa memo → sig q memo = Some (sg, memo') →
                      ¬ reaches_cycle dfa q ∧ cycle_free dfa memo') →
  ∀ (syms : list string) memo parts memo',
    cycle_free dfa memo → DAFSA.sig_parts sig edges syms memo = Some (parts, memo') →
    cycle_free dfa memo'
    ∧ ∀ a, a ∈ syms → ¬ reaches_cycle dfa (DAFSA.first_dest (default [] (edges !! a))).
Proof.
  intros Hsig. induction syms as [|a syms IH]; intros memo parts memo' Hmemo; simpl.
  - intros [= <- <-]. split; [done|]. by intros a ?%elem_of_nil.
  - destruct (sig _ memo) as [[sg memo1]|] eqn:Hs; simpl; [|done].
    destruct (DAFSA.sig_parts sig edges syms memo1) as [[ps memo2]|] eqn:Hp; simpl; [|done].
    intros [= <- <-].
    destruct (Hsig _ _ _ _ Hmemo Hs) as [Hq Hmemo1].
    destruct (IH _ _ _ Hmemo1 Hp) as [Hmemo2 Hrest].
    split; [done|]. intros a' [->|?]%elem_of_cons; auto.
Qed.

(** A call of [sig] that returns was made on a state that reaches no cycle,
    and leaves only such states in the memo table. *)
Lemma sig_fuel_cycle_free fuel : ∀ q memo sg memo',
  cycle_free dfa memo → DAFSA.sig_fuel fuel dfa q memo = Some (sg, memo') →
  ¬ reaches_cycle dfa q ∧ cycle_free dfa memo'.
Proof.
  induction fuel as [|fuel IH]; intros q memo sg memo' Hmemo; simpl; [done|].
  destruct (memo !! q) as [sg0|] eqn:Hq.
  - intros [= <- <-]. split; [|done]. apply Hmemo. by rewrite Hq.
  - set (edges := default ∅ (transitions dfa !! propKey q)).
    destruct (DAFSA.sig_parts _ edges _ memo) as [[parts memo1]|] eqn:Hp; simpl; [|done].
    intros [= <- <-].
    destruct (sig_parts_cycle_free _ edges IH _ _ _ _ Hmemo Hp) as [Hmemo1 Hdests].
    assert (¬ reaches_cycle dfa q) as Hnot.
    { intros (q' & (row & a & arr & Hrow & Harr & Hd) & Hq')%reaches_cycle_step.
      apply (Hdests a).
      - apply elem_of_sorted_keys. unfold edges. rewrite Hrow. simpl. by rewrite Harr.
      - unfold edges. rewrite Hrow. simpl. rewrite Harr. simpl. by rewrite Hd. }
    split; [done|]. intros q0. destruct (decide (q = q0)) as [<-|Hne]; [done|].
    rewrite lookup_insert_ne by done. apply Hmemo1.
Qed.

Lemma sig_all_cycle_free fuel (ss : list string) : ∀ memo memo',
  cycle_free dfa memo → DAFSA.sig_all fuel dfa ss memo = Some memo' →
  ∀ s, s ∈ ss → ¬ reaches_cycle dfa (Some s).
Proof.
  induction ss as [|s ss IH]; intros memo memo' Hmemo; simpl.
  - by intros _ s ?%elem_of_nil.
  - destruct (DAFSA.sig_fuel fuel dfa (Some s) memo) as [[sg memo1]|] eqn:Hs; simpl; [|done].
    intros Hall s' Hs'. destruct (sig_fuel_cycle_free _ _ _ _ _ Hmemo Hs) as [Hnot Hmemo1].
    apply elem_of_cons in Hs' as [->|Hs']; [done|]. by apply (IH _ _ Hmemo1 Hall).
Qed.
End Cycles.

(** No depth allowed to [sig] gives a result on an automaton in which a
    member of [states] reaches a cycle along first destinations. *)
Lemma minimize_own_cyclic_no_result (dfa : Automaton) (s : string) :
  s ∈ states dfa → reaches_cycle dfa (Some s) →
  ∀ M, ¬ DAFSA.minimizeAcyclicDFA_own dfa M.
Proof.
  intros Hs Hcycle M [fuel Hmin]. unfold DAFSA.minimize_fuel_own in Hmin.
  destruct (DAFSA.sig_all fuel dfa (states dfa) ∅) as [memo|] eqn:Hall; [|done].
  apply (sig_all_cycle_free dfa fuel (states dfa) ∅ memo) with s; [|done..].
  intros q. rewrite lookup_empty. by intros [? ?].
Qed.

(** ** The shape of the minimised automaton *)

(** The result on own properties has the alphabet of the source, its states
    are states of the source, each listed once, its accept states are its
    states that the source accepts, it has a row for each of its states and
    for nothing else, with the symbols of the source row, and every entry
    holds exactly one destination. *)
Lemma minimize_own_shape (D M : Automaton) :
  DAFSA.minimizeAcyclicDFA_own D M →
  alphabet M = alphabet D
  ∧ NoDup (states M)
  ∧ (∀ s, s ∈ states M → s ∈ states D)
  ∧ length (states M) ≤ length (states D)
  ∧ (∀ s, s ∈ accept M ↔ s ∈ states M ∧ s ∈ accept D)
  ∧ (∀ s, is_Some (transitions M !! s) ↔ s ∈ states M)
  ∧ (∀ s row a, transitions M !! s = Some row →
       (is_Some (row !! a) ↔ is_Some (transitions D !! s ≫= (.!! a))))
  ∧ (∀ s row a arr, transitions M !! s = Some row → row !! a = Some arr →
       length arr = 1).
Proof.
  intros [fuel HM]. unfold DAFSA.minimize_fuel_own in HM.
  destruct (DAFSA.sig_all fuel D (states D) ∅) as [memo|]; simpl in HM; [|done].
  pose proof (reps_inv_final memo (states D)) as Hinv.
  destruct (foldl (DAFSA.assign_rep memo) ([], ∅) (states D)) as [rep m2r].
  injection HM as <-. simpl.
  assert (∀ r, r ∈ new_Set (map_values rep) → r ∈ states D) as Hsub.
  { intros r Hr. by apply (rep_is_state memo (states D) rep m2r Hinv). }
  split_and!.
  - done.
  - apply NoDup_new_Set.
  - done.
  - apply submseteq_length, NoDup_submseteq; [apply NoDup_new_Set|done].
  - intros s. rewrite list_elem_of_filter, includes_Some. tauto.
  - intros s. rewrite new_transitions_lookup. by case_decide; split; try done.
  - intros s row a. rewrite new_transitions_lookup. case_decide; [|done].
    intros [= <-]. rewrite lookup_fmap, fmap_is_Some.
    by destruct (transitions D !! s) as [rowD|]; simpl; [|rewrite lookup_empty].
  - intros s row a arr. rewrite new_transitions_lookup. case_decide; [|done].
    intros [= <-]. rewrite lookup_fmap.
    destruct (default ∅ (transitions D !! s) !! a); simpl; [|done]. by intros [= <-].
Qed.

(** ** The states of the trie and the prefixes of the words *)

Lemma map_get_set_is_Some {V} (k : string) (x : V) m i :
  is_Some (map_get i (map_set k x m)) → i = k ∨ is_Some (map_get i m).
Proof. rewrite map_get_set. case_decide; auto. Qed.

Lemma ensureNode_is_Some k nodes i :
  is_Some (map_get i (DAFSA.ensureNode k nodes)) → i = k ∨ is_Some (map_get i nodes).
Proof.
  unfold DAFSA.ensureNode. destruct (map_has k nodes); [auto|].
  apply map_get_set_is_Some.
Qed.

Lemma insert_char_keys t v ch i :
  is_Some (map_get v (DAFSA.nodes t)) →
  is_Some (map_get i (DAFSA.nodes (DAFSA.insert_char (t, v) ch).1)) →
  is_Some (map_get i (DAFSA.nodes t)) ∨ i = (DAFSA.insert_char (t, v) ch).2.
Proof.
  intros Hv. unfold DAFSA.insert_char. cbn [fst snd DAFSA.nodes].
  intros [->|Hi]%ensureNode_is_Some; [by right|]. left.
  assert (∀ nodes, is_Some (map_get v nodes) → ∀ next,
            is_Some (map_get i (DAFSA.set_edge v ch next nodes)) →
            is_Some (map_get i nodes)) as Hedge.
  { intros nodes Hvn next. unfold DAFSA.set_edge.
    destruct (map_get v nodes) as [n|] eqn:Hn; [|done].
    intros [->|?]%map_get_set_is_Some; [by rewrite Hn|done]. }
  assert (is_Some (map_get i (DAFSA.ensureNode v (DAFSA.nodes t)))) as Hi'.
  { case_bool_decide; [|done]. revert Hi. apply Hedge.
    unfold DAFSA.ensureNode, map_has. by rewrite bool_decide_eq_true_2. }
  by apply ensureNode_is_Some in Hi' as [->|?].
Qed.

Lemma word_prefix_mono ws ws' p :
  (∀ w, w ∈ ws → w ∈ ws') → word_prefix ws p → word_prefix ws' p.
Proof. intros Hsub [->|(w & Hw & Hp)]; [by left|right; eauto]. Qed.

Lemma insert_chars_reached (cs : list string) : ∀ label t ws v p w,
  trie_inv label t → trie_words label t ws →
  is_Some (map_get v (DAFSA.nodes t)) → label v = p →
  walk (DAFSA.nodes t) (DAFSA.newId 0) p = Some v →
  chars w = p ++ cs →
  trie_reached t (ws ++ [w]) →
  trie_reached (foldl DAFSA.insert_char (t, v) cs).1 (ws ++ [w]).
Proof.
  induction cs as [|ch cs IH]; intros label t ws v p w Hinv Hwords Hv Hlab Hwalk Hw Hr;
    [done|].
  change (foldl DAFSA.insert_char (t, v) (ch :: cs))
    with (foldl DAFSA.insert_char (DAFSA.insert_char (t, v) ch) cs).
  destruct (insert_char_ok label t ws v ch Hinv Hwords Hv)
    as (label1 & Hinv1 & Hwords1 & Hext & Hv1 & Hlab1 & _ & Hstep).
  pose proof (insert_char_keys t v ch) as Hkeys.
  destruct (DAFSA.insert_char (t, v) ch) as [t1 v1]. simpl in *.
  assert (walk (DAFSA.nodes t1) (DAFSA.newId 0) (p ++ [ch]) = Some v1) as Hwalk1.
  { rewrite walk_app, (walk_extends _ _ _ _ _ Hext Hwalk). done. }
  apply (IH label1 t1 ws v1 (p ++ [ch]) w); try done.
  - by rewrite Hlab1, Hlab.
  - by rewrite <-(assoc_L (++)).
  - intros i Hi. destruct (Hkeys i Hv Hi) as [Hold| ->].
    + destruct (Hr i Hold) as (p0 & Hp0 & Hpre). exists p0. split; [|done].
      by apply (walk_extends t t1).
    + exists (p ++ [ch]). split; [done|]. right. exists w. split.
      * apply elem_of_app. right. left.
      * rewrite Hw. exists cs. by rewrite <-(assoc_L (++)).
Qed.

Lemma insert_word_reached label t ws w :
  trie_inv label t → trie_words label t ws → trie_reached t ws →
  trie_reached (DAFSA.insert_word (DAFSA.newId 0) t w) (ws ++ [w]).
Proof.
  intros Hinv Hwords Hr. unfold DAFSA.insert_word.
  assert (is_Some (map_get (DAFSA.newId 0) (DAFSA.nodes t))) as Hroot.
  { apply (trie_inv_has label t); [done|]. exists 0. split; [apply (ti_pos _ _ Hinv)|done]. }
  pose proof (insert_chars_reached (chars w) label t ws (DAFSA.newId 0) [] w Hinv Hwords
                Hroot (ti_root _ _ Hinv) eq_refl eq_refl) as Hr'.
  destruct (insert_chars_ok (chars w) label t ws (DAFSA.newId 0) [] Hinv Hwords Hroot
              (ti_root _ _ Hinv) eq_refl) as (label' & Hinv' & Hwords' & [nv Hv] & Hlab & Hwalk).
  destruct (foldl DAFSA.insert_char (t, DAFSA.newId 0) (chars w)) as [t' v].
  simpl in *. unfold DAFSA.set_final. rewrite Hv.
  intros i Hi. cbn [DAFSA.nodes] in *.
  destruct (Hr' ltac:(intros j Hj; destruct (Hr j Hj) as (p & ? & ?); exists p;
                      split; [done|]; eapply word_prefix_mono; [|done];
                      intros ? ?; apply elem_of_app; by left) i) as (p & Hp & Hpre).
  { apply map_get_set_is_Some in Hi as [->|?]; eauto. }
  exists p. split; [|done]. by rewrite (walk_set_final _ _ nv).
Qed.

Lemma insert_words_reached (ws2 : list string) : ∀ label t ws1,
  trie_inv label t → trie_words label t ws1 → trie_reached t ws1 →
  trie_reached (foldl (DAFSA.insert_word (DAFSA.newId 0)) t ws2) (ws1 ++ ws2).
Proof.
  induction ws2 as [|w ws2 IH]; intros label t ws1 Hinv Hwords Hr; simpl.
  - by rewrite app_nil_r.
  - destruct (insert_word_ok label t ws1 w Hinv Hwords) as (label1 & Hinv1 & Hwords1).
    pose proof (insert_word_reached label t ws1 w Hinv Hwords Hr) as Hr1.
    change (w :: ws2) with ([w] ++ ws2). rewrite (assoc_L (++)).
    by apply (IH label1).
Qed.

Lemma built_trie_reached (ws : list string) :
  trie_reached
    (foldl (DAFSA.insert_word (DAFSA.newId 0))
       {| DAFSA.nextId := 1; DAFSA.nodes := DAFSA.ensureNode (DAFSA.newId 0) [] |} ws)
    ws.
Proof.
  apply (insert_words_reached ws (λ _, []) _ []).
  - split; cbn; try done.
    + lia.
    + intros i n. case_decide; [by intros [= <-]|done].
    + intros i n ch j. case_decide; [intros [= <-]; simpl|done].
      by rewrite lookup_empty.
    + intros i n ch j. case_decide; [intros [= <-]; simpl|done].
      by rewrite lookup_empty.
  - split; cbn.
    + intros i n. case_decide; [by intros [= <-]|done].
    + by intros w ?%elem_of_nil.
  - intros i. cbn. case_decide as Hi; [|by intros [? ?]]. subst i.
    intros _. exists []. split; [done|by left].
Qed.

Lemma walk_node label t v cs i :
  trie_inv label t → is_Some (map_get v (DAFSA.nodes t)) →
  walk (DAFSA.nodes t) v cs = Some i → is_Some (map_get i (DAFSA.nodes t)).
Proof.
  intros Hinv. revert v. induction cs as [|ch cs IH]; intros v Hv; simpl.
  - by intros [= <-].
  - destruct (map_get v (DAFSA.nodes t)) as [n|] eqn:Hn; simpl; [|done].
    destruct (DAFSA.edges n !! ch) as [j|] eqn:Hj; simpl; [|done].
    apply IH. apply (trie_inv_has label t); [done|].
    destruct (ti_edge _ _ Hinv _ _ _ _ Hn Hj) as [(k & ? & ?) _]. eauto.
Qed.

Lemma path_walk label t (tr : gmap string (gmap string (list ident))) (cs : list string) :
  trie_inv label t →
  tr = DAFSA.trie_transitions (map_values (DAFSA.nodes t)) →
  ∀ v q, nfa_path tr (Some v) cs q
         ↔ ∃ i, q = Some i ∧ walk (DAFSA.nodes t) v cs = Some i.
Proof.
  intros Hinv ->. induction cs as [|ch cs IH]; intros v q.
  - split.
    + intros Hpath. inversion Hpath; subst. eauto.
    + intros (i & -> & [= <-]). constructor.
  - assert (∀ x, x ∈ moves_of (DAFSA.trie_transitions (map_values (DAFSA.nodes t)))
                        (Some v) ch
                 ↔ ∃ n j, map_get v (DAFSA.nodes t) = Some n
                          ∧ DAFSA.edges n !! ch = Some j ∧ x = Some j) as Hmoves.
    { intros x. unfold moves_of. simpl. rewrite (trie_lookup label) by done.
      destruct (map_get v (DAFSA.nodes t)) as [n|]; simpl.
      - rewrite lookup_fmap. destruct (DAFSA.edges n !! ch) as [j|] eqn:Hj; simpl.
        + rewrite list_elem_of_singleton. split.
          * intros ->. by exists n, j.
          * intros (? & ? & [= <-] & Hj' & ->). congruence.
        + rewrite elem_of_nil. split; [done|]. intros (? & ? & [= <-] & ? & _).
          congruence.
      - rewrite elem_of_nil. split; [done|]. by intros (? & ? & ? & _). }
    simpl. split.
    + intros Hpath. inversion Hpath as [|? ? x ? ? Hx Hrest]; subst.
      apply Hmoves in Hx as (n & j & Hn & Hj & ->).
      apply IH in Hrest as (i & -> & Hwalk). exists i. split; [done|].
      rewrite Hn. simpl. rewrite Hj. done.
    + intros (i & -> & Hwalk).
      destruct (map_get v (DAFSA.nodes t)) as [n|] eqn:Hn; simpl in Hwalk; [|done].
      destruct (DAFSA.edges n !! ch) as [j|] eqn:Hj; simpl in Hwalk; [|done].
      apply (path_cons _ _ _ (Some j)).
      * apply Hmoves. eauto.
      * apply IH. eauto.
Qed.

(** What [buildTrieDFA] returns, with the prefixes that reach its nodes. *)
Lemma buildTrieDFA_reached (L : DAFSA.language) :
  DAFSA.lang_alphabet L ≠ [] →
  (∀ w ch, w ∈ DAFSA.lang_accept L → ch ∈ chars w → ch ∈ DAFSA.lang_alphabet L) →
  ∃ label t dfa,
    DAFSA.buildTrieDFA L = inr dfa
    ∧ trie_inv label t ∧ trie_words label t (DAFSA.lang_accept L)
    ∧ trie_reached t (DAFSA.lang_accept L)
    ∧ states dfa = map_keys (DAFSA.nodes t)
    ∧ start dfa = Some (DAFSA.newId 0)
    ∧ accept dfa = DAFSA.node_id <$> filter (λ n, DAFSA.final n = true)
                                       (map_values (DAFSA.nodes t))
    ∧ transitions dfa = DAFSA.trie_transitions (map_values (DAFSA.nodes t)).
Proof.
  intros Hne Hwords. unfold DAFSA.buildTrieDFA.
  rewrite bool_decide_eq_false_2 by (by destruct (DAFSA.lang_alphabet L)).
  assert (DAFSA.check_words (new_Set (DAFSA.lang_alphabet L)) (DAFSA.lang_accept L) = None)
    as ->.
  { apply check_words_None. intros w Hw. apply first_foreign_None.
    intros ch Hch. apply elem_of_new_Set. eauto. }
  destruct (built_trie_ok (DAFSA.lang_accept L)) as (label & Hinv & Hws).
  pose proof (built_trie_reached (DAFSA.lang_accept L)) as Hr.
  eexists label, _, _. split; [done|]. split_and!; done.
Qed.

(** X17. The states of the trie automaton correspond one to one to the
    prefixes of the words, the empty prefix included: every state is reached
    from the start state by a prefix, every prefix reaches a state, a run from
    the start state reads a prefix and ends in a state, no state is reached by
    two strings and no string reaches two states.  The state reached by a
    string is an accept state exactly when the string is one of the words. *)
Theorem trie_states_are_prefixes (L : DAFSA.language) :
  DAFSA.lang_alphabet L ≠ [] →
  (∀ w ch, w ∈ DAFSA.lang_accept L → ch ∈ chars w → ch ∈ DAFSA.lang_alphabet L) →
  ∃ D,
    DAFSA.buildTrieDFA L = inr D
    ∧ (∀ s, s ∈ states D →
         ∃ p, nfa_path (transitions D) (start D) p (Some s)
              ∧ word_prefix (DAFSA.lang_accept L) p)
    ∧ (∀ p, word_prefix (DAFSA.lang_accept L) p →
         ∃ s, s ∈ states D ∧ nfa_path (transitions D) (start D) p (Some s))
    ∧ (∀ p q, nfa_path (transitions D) (start D) p q →
         word_prefix (DAFSA.lang_accept L) p ∧ ∃ s, q = Some s ∧ s ∈ states D)
    ∧ (∀ p p' q, nfa_path (transitions D) (start D) p q →
         nfa_path (transitions D) (start D) p' q → p = p')
    ∧ (∀ p q q', nfa_path (transitions D) (start D) p q →
         nfa_path (transitions D) (start D) p q' → q = q')
    ∧ (∀ p s, nfa_path (transitions D) (start D) p (Some s) →
         (s ∈ accept D ↔ ∃ w, w ∈ DAFSA.lang_accept L ∧ chars w = p)).
Proof.
  intros Hne Hwords.
  destruct (buildTrieDFA_reached L Hne Hwords)
    as (label & t & D & -> & Hinv & [Hfin Hall] & Hr & Hst & Hstart & Hacc & Htr).
  assert (∀ i, i ∈ states D ↔ is_Some (map_get i (DAFSA.nodes t))) as Hin.
  { intros i. rewrite Hst, <-map_has_true. unfold map_has. by rewrite bool_decide_eq_true. }
  assert (is_Some (map_get (DAFSA.newId 0) (DAFSA.nodes t))) as Hroot.
  { apply (trie_inv_has label t); [done|]. exists 0. split; [apply (ti_pos _ _ Hinv)|done]. }
  pose proof (λ cs, path_walk label t (transitions D) cs Hinv Htr (DAFSA.newId 0)) as Hpw.
  assert (∀ p i, walk (DAFSA.nodes t) (DAFSA.newId 0) p = Some i → label i = p) as Hlabel.
  { intros p i Hw. rewrite (walk_label label t _ _ _ Hinv Hw), (ti_root _ _ Hinv). done. }
  exists D. split; [done|]. rewrite Hstart. split_and!.
  - intros s [p [Hp Hpre]]%Hin%Hr. exists p. split; [|done]. apply Hpw. eauto.
  - intros p Hpre.
    assert (∃ i, walk (DAFSA.nodes t) (DAFSA.newId 0) p = Some i) as [i Hi].
    { destruct Hpre as [->|(w & Hw & [r Hr'])]; [by exists (DAFSA.newId 0)|].
      destruct (Hall w Hw) as (i & _ & Hwalk & _). rewrite Hr', walk_app in Hwalk.
      destruct (walk (DAFSA.nodes t) (DAFSA.newId 0) p); [eauto|done]. }
    exists i. split; [|apply Hpw; eauto].
    apply Hin. by apply (walk_node label t (DAFSA.newId 0) p).
  - intros p q (i & -> & Hwalk)%Hpw.
    assert (is_Some (map_get i (DAFSA.nodes t))) as Hi
      by (by apply (walk_node label t (DAFSA.newId 0) p)).
    split; [|exists i; split; [done|by apply Hin]].
    destruct (Hr i Hi) as (p0 & Hp0 & Hpre).
    by rewrite <-(Hlabel _ _ Hwalk), (Hlabel _ _ Hp0).
  - intros p p' q (i & -> & Hwalk)%Hpw (i' & [= <-] & Hwalk')%Hpw.
    by rewrite <-(Hlabel _ _ Hwalk), (Hlabel _ _ Hwalk').
  - intros p q q' (i & -> & Hwalk)%Hpw (i' & -> & Hwalk')%Hpw. congruence.
  - intros p s (i & [= <-] & Hwalk)%Hpw. rewrite Hacc, (trie_accept label) by done.
    split.
    + intros (n & Hn & Hf). destruct (Hfin _ _ Hn Hf) as (w & Hw & Hlab).
      exists w. split; [done|]. by rewrite Hlab, (Hlabel _ _ Hwalk).
    + intros (w & Hw & <-). destruct (Hall w Hw) as (i' & n & Hwalk' & Hn & Hf).
      exists n. split; [congruence|done].
Qed.

Lemma trie_states_are_prefixes_example :
  ∃ D,
    DAFSA.buildTrieDFA example_language = inr D
    ∧ (∀ s, s ∈ states D →
         ∃ p, nfa_path (transitions D) (start D) p (Some s)
              ∧ word_prefix (DAFSA.lang_accept example_language) p)
    ∧ (∀ p, word_prefix (DAFSA.lang_accept example_language) p →
         ∃ s, s ∈ states D ∧ nfa_path (transitions D) (start D) p (Some s))
    ∧ (∀ p q, nfa_path (transitions D) (start D) p q →
         word_prefix (DAFSA.lang_accept example_language) p ∧ ∃ s, q = Some s ∧ s ∈ states D)
    ∧ (∀ p p' q, nfa_path (transitions D) (start D) p q →
         nfa_path (transitions D) (start D) p' q → p = p')
    ∧ (∀ p q q', nfa_path (transitions D) (start D) p q →
         nfa_path (transitions D) (start D) p q' → q = q')
    ∧ (∀ p s, nfa_path (transitions D) (start D) p (Some s) →
         (s ∈ accept D ↔ ∃ w, w ∈ DAFSA.lang_accept example_language ∧ chars w = p)).
Proof.
  apply (trie_states_are_prefixes example_language).
  - discriminate.
  - apply words_over_alphabet. apply (bool_decide_unpack _). vm_compute. exact I.
Defined.
(** ** What the two loaders accept *)

Lemma first_foreign_Some (alpha cs : list string) ch :
  first_foreign alpha cs = Some ch → ch ∈ cs ∧ ch ∉ alpha.
Proof.
  induction cs as [|c cs IH]; simpl; [done|]. unfold set_has.
  case_bool_decide as Hc.
  - intros [? ?]%IH. split; [by right|done].
  - intros [= <-]. split; [left|done].
Qed.

Lemma check_words_Some (alpha ws : list string) e :
  DAFSA.check_words alpha ws = Some e →
  ∃ w ch, e = DAFSA.ForeignSymbol w ch ∧ w ∈ ws ∧ ch ∈ chars w ∧ ch ∉ alpha.
Proof.
  induction ws as [|w ws IH]; simpl; [done|].
  destruct (first_foreign alpha (chars w)) as [ch|] eqn:Hff.
  - intros [= <-]. apply first_foreign_Some in Hff as [? ?].
    exists w, ch. split_and!; [done|left|done..].
  - intros (w' & ch & ? & ? & ? & ?)%IH. exists w', ch. split_and!; [done|by right|done..].
Qed.

(** X18. The load button of the DAFSA page, on a parsed language description:
    it alerts no error exactly when the alphabet is not empty and every
    character of every word is in it, and then the trie is both the current
    and the original automaton and the controls are enabled.  Otherwise the
    error is the empty alphabet, whatever the words are, or else a word of the
    list with a character of it that is outside the alphabet; the two
    automata of the page stay what they were and the controls are disabled. *)
Theorem load_click_outcome (p : DAFSA.page) (L : DAFSA.language) :
  match (DAFSA.load_click p L).2 with
  | None =>
      DAFSA.lang_alphabet L ≠ []
      ∧ (∀ w ch, w ∈ DAFSA.lang_accept L → ch ∈ chars w → ch ∈ DAFSA.lang_alphabet L)
      ∧ ∃ dfa,
          DAFSA.buildTrieDFA L = inr dfa
          ∧ (DAFSA.load_click p L).1
            = {| DAFSA.currentDFA := Some dfa; DAFSA.originalDFA := Some dfa;
                 DAFSA.controls := true |}
  | Some e =>
      (DAFSA.load_click p L).1
      = {| DAFSA.currentDFA := DAFSA.currentDFA p;
           DAFSA.originalDFA := DAFSA.originalDFA p; DAFSA.controls := false |}
      ∧ match e with
        | DAFSA.EmptyAlphabet => DAFSA.lang_alphabet L = []
        | DAFSA.ForeignSymbol w ch =>
            DAFSA.lang_alphabet L ≠ [] ∧ w ∈ DAFSA.lang_accept L
            ∧ ch ∈ chars w ∧ ch ∉ DAFSA.lang_alphabet L
        end
  end.
Proof.
  unfold DAFSA.load_click, DAFSA.buildTrieDFA.
  destruct (DAFSA.lang_alphabet L) as [|x alpha] eqn:Halpha; simpl; [done|].
  destruct (DAFSA.check_words _ (DAFSA.lang_accept L)) as [e|] eqn:Hcheck; simpl.
  - split; [done|].
    apply check_words_Some in Hcheck as (w & ch & -> & Hw & Hch & Hout).
    split_and!; [done..|]. by rewrite elem_of_new_Set in Hout.
  - split; [done|]. split; [|eauto].
    intros w ch Hw Hch.
    pose proof (proj1 (check_words_None _ _) Hcheck w Hw) as Hff.
    apply (elem_of_new_Set (x :: alpha)). by apply (first_foreign_None _ (chars w)).
Qed.

(** X21. The load button of the NFA page, on a parsed object.  The load
    succeeds exactly when the five required keys are present, [states],
    [alphabet] and [accept] are arrays, there is no key [epsilon] and the
    rendering of the object returns; the object is then both the current
    automaton and the kept original, and the controls are enabled.  When a
    check fails, the page keeps its automata, the controls are disabled, and
    the message names the first required key that is missing, in the order
    states, alphabet, start, accept, transitions; if none is missing it is the
    arrays message, and the epsilon message only when the three are arrays.
    When the checks pass and the rendering throws, its message is alerted and
    the controls are disabled, but the object is already the current
    automaton and the kept original. *)
Theorem load_outcome (env : NFAtoDFA.surroundings) (p : NFAtoDFA.page)
    (fields : list (string * NFAtoDFA.json)) :
  match (NFAtoDFA.load env p (NFAtoDFA.JObj fields)).2 with
  | None =>
      (∀ k, k ∈ NFAtoDFA.required → NFAtoDFA.has_key k fields = true)
      ∧ NFAtoDFA.is_array "states" fields = true
      ∧ NFAtoDFA.is_array "alphabet" fields = true
      ∧ NFAtoDFA.is_array "accept" fields = true
      ∧ NFAtoDFA.has_key "epsilon" fields = false
      ∧ NFAtoDFA.render_error env = None
      ∧ (NFAtoDFA.load env p (NFAtoDFA.JObj fields)).1
        = {| NFAtoDFA.automaton := Some (NFAtoDFA.JObj fields);
             NFAtoDFA.originalNFA := Some (NFAtoDFA.JObj fields);
             NFAtoDFA.loaded := true |}
  | Some msg =>
      (∃ m, first_failure fields m
            ∧ msg = "Failed to load automaton: " +:+ m
            ∧ (NFAtoDFA.load env p (NFAtoDFA.JObj fields)).1
              = {| NFAtoDFA.automaton := NFAtoDFA.automaton p;
                   NFAtoDFA.originalNFA := NFAtoDFA.originalNFA p;
                   NFAtoDFA.loaded := false |})
      ∨ ((∀ k, k ∈ NFAtoDFA.required → NFAtoDFA.has_key k fields = true)
         ∧ NFAtoDFA.is_array "states" fields = true
         ∧ NFAtoDFA.is_array "alphabet" fields = true
         ∧ NFAtoDFA.is_array "accept" fields = true
         ∧ NFAtoDFA.has_key "epsilon" fields = false
         ∧ ∃ m, NFAtoDFA.render_error env = Some m
                ∧ msg = "Failed to load automaton: " +:+ m
                ∧ (NFAtoDFA.load env p (NFAtoDFA.JObj fields)).1
                  = {| NFAtoDFA.automaton := Some (NFAtoDFA.JObj fields);
                       NFAtoDFA.originalNFA := Some (NFAtoDFA.JObj fields);
                       NFAtoDFA.loaded := false |})
  end.
Proof.
  pose proof (validate_cases env fields) as Hv. unfold NFAtoDFA.load.
  destruct (NFAtoDFA.validate env (NFAtoDFA.JObj fields)) as [m|]; cbn [fst snd].
  - left. eauto.
  - destruct Hv as (Hreq & H1 & H2 & H3 & Hno).
    destruct (NFAtoDFA.render_error env) as [m|]; cbn [fst snd].
    + right. split_and!; [done..|]. eauto.
    + done.
Qed.

(** ** The text of the input field *)

Lemma trimStart_starts (s : string) : starts_with_space (trimStart s) = false.
Proof.
  induction s as [|c r IH]; simpl; [done|].
  destruct (is_space c) eqn:Hc; [done|]. simpl. done.
Qed.

Lemma trimEnd_ends (s : string) : ends_with_space (trimEnd s) = false.
Proof.
  induction s as [|c r IH]; simpl; [done|].
  destruct (trimEnd r) as [|c' r'] eqn:Hr.
  - destruct (is_space c) eqn:Hc; simpl; done.
  - exact IH.
Qed.

Lemma trimEnd_starts (s : string) :
  starts_with_space s = false → starts_with_space (trimEnd s) = false.
Proof.
  destruct s as [|c r]; simpl; [done|]. intros Hc.
  destruct (trimEnd r); [by rewrite Hc|done].
Qed.

Lemma trimStart_fixed (s : string) : starts_with_space s = false → trimStart s = s.
Proof. destruct s as [|c r]; simpl; [done|]. by intros ->. Qed.

Lemma trimEnd_fixed (s : string) : ends_with_space s = false → trimEnd s = s.
Proof.
  induction s as [|c r IH]; simpl; [done|].
  destruct r as [|c' r'].
  - simpl. by intros ->.
  - intros Hr. rewrite (IH Hr). done.
Qed.

Lemma trim_ends (s : string) :
  starts_with_space (trim s) = false ∧ ends_with_space (trim s) = false.
Proof.
  unfold trim. split; [apply trimEnd_starts, trimStart_starts|apply trimEnd_ends].
Qed.

Lemma trim_fixed (s : string) :
  starts_with_space s = false → ends_with_space s = false → trim s = s.
Proof. intros Hs He. unfold trim. by rewrite (trimStart_fixed s Hs), trimEnd_fixed. Qed.

Lemma trim_trim (s : string) : trim (trim s) = trim s.
Proof. destruct (trim_ends s). by apply trim_fixed. Qed.

(** ** The buttons of the DAFSA page *)

(** The trie automaton accepts the words of the language and nothing else. *)
Lemma trie_language (L : DAFSA.language) :
  DAFSA.lang_alphabet L ≠ [] →
  (∀ w ch, w ∈ DAFSA.lang_accept L → ch ∈ chars w → ch ∈ DAFSA.lang_alphabet L) →
  ∃ dfa,
    DAFSA.buildTrieDFA L = inr dfa
    ∧ ∀ w, accepted (DAFSA.accepts dfa w) = true ↔ w ∈ DAFSA.lang_accept L.
Proof.
  intros Hne Hwords.
  destruct (buildTrieDFA_built L Hne Hwords)
    as (label & t & dfa & -> & Hinv & [Hfin Hall] & Halpha & _ & Hstart & Hacc & Htr).
  exists dfa. split; [done|].
  intros w. unfold DAFSA.accepts. rewrite Hstart.
  rewrite (first_foreign_ext _ (DAFSA.lang_alphabet L))
    by (intros x; by rewrite Halpha, !elem_of_new_Set).
  destruct (first_foreign (DAFSA.lang_alphabet L) (chars w)) as [ch|] eqn:Hff.
  - split; [done|]. intros Hw.
    assert (first_foreign (DAFSA.lang_alphabet L) (chars w) = None) as Hn
      by (apply first_foreign_None; eauto).
    congruence.
  - rewrite (run_walk label t) by done. split.
    + intros (i & n & Hwalk & Hn & Hf).
      destruct (Hfin _ _ Hn Hf) as (w0 & Hw0 & Hlab).
      apply (walk_label label t) in Hwalk; [|done].
      rewrite (ti_root _ _ Hinv) in Hwalk. simpl in Hwalk.
      rewrite Hwalk in Hlab. by apply chars_inj in Hlab as ->.
    + apply Hall.
Qed.

(** X19. After the load of a language whose alphabet is not empty and whose
    words use alphabet symbols only, the tester of the DAFSA page shows
    acceptance for an input exactly when the input without the white space
    around it is one of the words: the string tested never begins or ends
    with white space. *)
Theorem loaded_language_tested (p : DAFSA.page) (L : DAFSA.language) (value : string) :
  DAFSA.lang_alphabet L ≠ [] →
  (∀ w ch, w ∈ DAFSA.lang_accept L → ch ∈ chars w → ch ∈ DAFSA.lang_alphabet L) →
  ∃ dfa r,
    DAFSA.load_click p L
    = ({| DAFSA.currentDFA := Some dfa; DAFSA.originalDFA := Some dfa;
          DAFSA.controls := true |}, None)
    ∧ DAFSA.test_click (DAFSA.load_click p L).1 value = Some r
    ∧ (accepted r = true ↔ trim value ∈ DAFSA.lang_accept L)
    ∧ starts_with_space (trim value) = false
    ∧ ends_with_space (trim value) = false.
Proof.
  intros Hne Hwords. destruct (trie_language L Hne Hwords) as (dfa & Hdfa & Hlang).
  exists dfa, (DAFSA.accepts dfa (trim value)).
  unfold DAFSA.load_click. rewrite Hdfa. simpl.
  split_and!; [done|done|apply Hlang|apply trim_ends..].
Qed.

Lemma loaded_language_tested_example :
  ∃ dfa r,
    DAFSA.load_click
      {| DAFSA.currentDFA := None; DAFSA.originalDFA := None; DAFSA.controls := false |}
      example_language
    = ({| DAFSA.currentDFA := Some dfa; DAFSA.originalDFA := Some dfa;
          DAFSA.controls := true |}, None)
    ∧ DAFSA.test_click
        (DAFSA.load_click
           {| DAFSA.currentDFA := None; DAFSA.originalDFA := None;
              DAFSA.controls := false |} example_language).1 " ab " = Some r
    ∧ (accepted r = true ↔ trim " ab " ∈ DAFSA.lang_accept example_language)
    ∧ starts_with_space (trim " ab ") = false
    ∧ ends_with_space (trim " ab ") = false.
Proof.
  apply (loaded_language_tested _ example_language " ab ").
  - discriminate.
  - apply words_over_alphabet. apply (bool_decide_unpack _). vm_compute. exact I.
Defined.

(** The first state of the list is its own representative. *)
Lemma first_state_rep memo s0 (rest : list string) :
  (foldl (DAFSA.assign_rep memo) ([], ∅) (s0 :: rest)).2 !! s0 = Some (Some s0).
Proof.
  assert (∀ ss acc,
    map_get (memo !! Some s0) acc.1 = Some s0 → acc.2 !! s0 = Some (Some s0) →
    (foldl (DAFSA.assign_rep memo) acc ss).2 !! s0 = Some (Some s0)) as Hgen.
  { induction ss as [|s ss IH]; intros [rep m2r] Hrep Hmap; simpl in *; [done|].
    apply IH; unfold DAFSA.assign_rep.
    - simpl. destruct (map_has (memo !! Some s) rep) eqn:Hhas; simpl; [done|].
      rewrite map_get_set. case_decide as Heq; [|done].
      apply map_has_false in Hhas. rewrite <-Heq in Hhas.
      apply map_get_None in Hhas. congruence.
    - cbn [snd]. destruct (decide (s = s0)) as [->|Hne].
      + rewrite lookup_insert_eq. f_equal.
        destruct (map_has (memo !! Some s0) rep) eqn:Hhas; simpl; [done|].
        by rewrite map_get_set, decide_True.
      + by rewrite lookup_insert_ne. }
  simpl. apply Hgen; unfold DAFSA.assign_rep; simpl.
  - by rewrite decide_True.
  - rewrite lookup_insert_eq. by rewrite decide_True.
Qed.

Lemma minimize_start (D M : Automaton) s0 rest :
  states D = s0 :: rest → start D = Some s0 →
  DAFSA.minimizeAcyclicDFA_own D M → start M = Some s0.
Proof.
  intros Hst Hstart [fuel HM]. unfold DAFSA.minimize_fuel_own in HM.
  destruct (DAFSA.sig_all fuel D (states D) ∅) as [memo|]; simpl in HM; [|done].
  pose proof (first_state_rep memo s0 rest) as Hfirst. rewrite <-Hst in Hfirst.
  destruct (foldl (DAFSA.assign_rep memo) ([], ∅) (states D)) as [rep m2r].
  injection HM as <-. simpl in *. rewrite Hstart. simpl. by rewrite Hfirst.
Qed.

(** ** The nodes of the graph *)

Lemma buildNodes_ids (a : Automaton) :
  vis_id <$> NFAtoDFA.buildNodes a
  = states a ++ (if truthy (start a) then ["__start"] else []).
Proof.
  unfold NFAtoDFA.buildNodes. rewrite fmap_app, <-list_fmap_compose.
  rewrite (list_fmap_ext _ id (states a)) by done. rewrite list_fmap_id.
  by destruct (truthy (start a)).
Qed.

Lemma buildNodes_ids_dafsa (a : Automaton) :
  vis_id <$> DAFSA.buildNodes a
  = states a ++ (if truthy (start a) then ["__start"] else []).
Proof.
  unfold DAFSA.buildNodes. rewrite fmap_app, <-list_fmap_compose.
  rewrite (list_fmap_ext _ id (states a)) by done. rewrite list_fmap_id.
  by destruct (truthy (start a)).
Qed.

Lemma NoDup_ids (ss : list string) (b : bool) :
  NoDup (ss ++ (if b then ["__start"] else []))
  ↔ NoDup ss ∧ (b = true → "__start" ∉ ss).
Proof.
  destruct b.
  - rewrite NoDup_app. split.
    + intros (Hnd & Hdisj & _). split; [done|]. intros _ Hin.
      apply (Hdisj _ Hin). left.
    + intros [Hnd Hnot]. split_and!; [done| |apply NoDup_singleton].
      intros x Hx ->%list_elem_of_singleton. by apply Hnot.
  - rewrite app_nil_r. naive_solver.
Qed.

(** X22. [buildNodes], in both files, makes one node per entry of [states],
    in their order, and one more for the start marker when the start state is
    a non-empty string.  The ids of the nodes are pairwise different exactly
    when [states] lists no state twice and, with a start marker, no state is
    named [__start]. *)
Theorem buildNodes_distinct_ids (a : Automaton) :
  (NoDup (vis_id <$> NFAtoDFA.buildNodes a)
   ↔ NoDup (states a) ∧ (truthy (start a) = true → "__start" ∉ states a))
  ∧ (NoDup (vis_id <$> DAFSA.buildNodes a)
     ↔ NoDup (states a) ∧ (truthy (start a) = true → "__start" ∉ states a))
  ∧ length (NFAtoDFA.buildNodes a)
    = length (states a) + (if truthy (start a) then 1 else 0)
  ∧ length (DAFSA.buildNodes a)
    = length (states a) + (if truthy (start a) then 1 else 0).
Proof.
  split_and!.
  - rewrite buildNodes_ids. apply NoDup_ids.
  - rewrite buildNodes_ids_dafsa. apply NoDup_ids.
  - unfold NFAtoDFA.buildNodes. rewrite length_app, length_fmap.
    by destruct (truthy (start a)).
  - unfold DAFSA.buildNodes. rewrite length_app, length_fmap.
    by destruct (truthy (start a)).
Qed.

Lemma start_marker_not_newId k : "__start" ≠ DAFSA.newId k.
Proof. unfold DAFSA.newId. simpl. discriminate. Qed.

(** The nodes that [buildNodes] makes of a trie automaton, and of a result
    of the minimiser on own properties, have pairwise different ids. *)
Lemma trie_nodes_distinct_own (L : DAFSA.language) :
  DAFSA.lang_alphabet L ≠ [] →
  (∀ w ch, w ∈ DAFSA.lang_accept L → ch ∈ chars w → ch ∈ DAFSA.lang_alphabet L) →
  ∃ D,
    DAFSA.buildTrieDFA L = inr D
    ∧ NoDup (vis_id <$> DAFSA.buildNodes D)
    ∧ length (DAFSA.buildNodes D) = S (length (states D))
    ∧ ∀ M, DAFSA.minimizeAcyclicDFA_own D M → NoDup (vis_id <$> DAFSA.buildNodes M).
Proof.
  intros Hne Hwords.
  destruct (buildTrieDFA_built L Hne Hwords)
    as (label & t & D & -> & Hinv & _ & _ & Hst & Hstart & _).
  assert ("__start" ∉ states D) as Hnot.
  { rewrite Hst, (ti_keys _ _ Hinv). intros (k & _ & Hk)%elem_of_newIds.
    by apply start_marker_not_newId in Hk. }
  exists D. split; [done|]. split_and!.
  - rewrite buildNodes_ids_dafsa. apply NoDup_ids. split; [|done].
    rewrite Hst. by eapply trie_inv_nodup.
  - unfold DAFSA.buildNodes. rewrite length_app, length_fmap, Hstart, newId_truthy.
    simpl. lia.
  - intros M HM. destruct (minimize_states_bound D M HM) as (Hsub & Hnd & _).
    rewrite buildNodes_ids_dafsa. apply NoDup_ids. split; [done|].
    intros _ Hin. apply Hnot, Hsub, Hin.
Qed.

(** ** The calls of [nfaToDfa] that meet no inherited name *)

Lemma inherited_comma_free (k : string) : inherited k = true → comma_free k.
Proof.
  unfold inherited. intros Hk%bool_decide_eq_true.
  assert (Forall comma_free inherited_names) as Hall.
  { apply (bool_decide_unpack _). vm_compute. exact I. }
  rewrite Forall_forall in Hall. by apply Hall.
Qed.

Lemma join_comma (x y : ident) (l : list ident) : ¬ comma_free (join "," (x :: y :: l)).
Proof.
  unfold comma_free, join. cbn [fmap list_fmap String.concat].
  intros Hno. apply Hno. rewrite !chars_app. simpl.
  apply elem_of_app. right. left.
Qed.

Lemma keyOf_not_inherited (S : list ident) :
  S ≠ [] → (∀ q, q ∈ S → inherited (propKey q) = false) →
  inherited (NFAtoDFA.keyOf S) = false.
Proof.
  intros Hne HS. destruct S as [|x [|y S]]; [done| |].
  - rewrite keyOf_singleton. destruct x as [s|]; simpl; [|done].
    apply (HS (Some s)). left.
  - destruct (inherited (NFAtoDFA.keyOf (x :: y :: S))) eqn:Hin; [|done].
    apply inherited_comma_free in Hin. unfold NFAtoDFA.keyOf in Hin.
    assert (length (sort (x :: y :: S)) = length (x :: y :: S)) as Hlen.
    { unfold sort. by rewrite merge_sort_Permutation. }
    destruct (sort (x :: y :: S)) as [|a [|b l]]; [done..|].
    by destruct (join_comma a b l).
Qed.

Section Ordinary.
Variable nfa : Automaton.
Hypothesis Hord : ordinary_names nfa.
Implicit Types (c : NFAtoDFA.conv) (S T : list ident).

Lemma ordinary_symbol sym : sym ∈ alphabet nfa → inherited sym = false.
Proof. destruct Hord as [_ Hsym]. rewrite Forall_forall in Hsym. apply Hsym. Qed.

Lemma ordinary_state q : q ∈ NFAtoDFA.universe nfa → inherited (propKey q) = false.
Proof. destruct Hord as [Hq _]. rewrite Forall_forall in Hq. apply Hq. Qed.

Lemma moves_ordinary q sym :
  q ∈ NFAtoDFA.universe nfa → sym ∈ alphabet nfa →
  NFAtoDFA.moves (transitions nfa) q sym = Returns (moves_of (transitions nfa) q sym).
Proof.
  intros Hq Hsym. unfold NFAtoDFA.moves, moves_of.
  rewrite (ordinary_symbol _ Hsym).
  destruct (transitions nfa !! propKey q) as [row|]; simpl.
  - by destruct (row !! sym).
  - by rewrite (ordinary_state _ Hq).
Qed.

Lemma collect_ordinary sym S : ∀ T,
  (∀ q, q ∈ S → q ∈ NFAtoDFA.universe nfa) → sym ∈ alphabet nfa →
  NFAtoDFA.collect (transitions nfa) sym T S
  = Returns (foldl (λ T q, set_add_all (moves_of (transitions nfa) q sym) T) T S).
Proof.
  induction S as [|q S IH]; intros T HS Hsym; simpl; [done|].
  rewrite moves_ordinary; [|apply HS; left|done]. simpl.
  apply IH; [|done]. intros q' ?. apply HS. by right.
Qed.

Lemma expand_ordinary S Skey c sym :
  (∀ q, q ∈ S → q ∈ NFAtoDFA.universe nfa) → sym ∈ alphabet nfa →
  NFAtoDFA.expand nfa S Skey c sym = Returns (NFAtoDFA.expand_own nfa S Skey c sym).
Proof.
  intros HS Hsym. unfold NFAtoDFA.expand, NFAtoDFA.expand_own.
  rewrite collect_ordinary by done. simpl.
  fold (move_set (transitions nfa) S sym).
  rewrite bool_decide_eq_false_2.
  - by destruct (negb _ && negb _).
  - intros ->. by pose proof (ordinary_symbol _ Hsym).
Qed.

Lemma expand_all_ordinary S Skey (syms : list string) : ∀ c,
  (∀ q, q ∈ S → q ∈ NFAtoDFA.universe nfa) →
  (∀ sym, sym ∈ syms → sym ∈ alphabet nfa) →
  foldl (λ oc sym, c' ← oc; NFAtoDFA.expand nfa S Skey c' sym) (Returns c) syms
  = Returns (foldl (NFAtoDFA.expand_own nfa S Skey) c syms).
Proof.
  induction syms as [|sym syms IH]; intros c HS Hsyms; simpl; [done|].
  rewrite expand_ordinary; [|done|apply Hsyms; left].
  apply IH; [done|]. intros sym' ?. apply Hsyms. by right.
Qed.

Lemma pop_expand_ordinary S rest c :
  S ≠ [] → (∀ q, q ∈ S → q ∈ NFAtoDFA.universe nfa) →
  NFAtoDFA.pop_expand nfa S rest c = Returns (NFAtoDFA.pop_expand_own nfa S rest c).
Proof.
  intros Hne HS. unfold NFAtoDFA.pop_expand, NFAtoDFA.pop_expand_own.
  assert (NFAtoDFA.ensure_row (NFAtoDFA.keyOf S) (NFAtoDFA.dfaTransitions c)
          = Some (NFAtoDFA.ensure_row_own (NFAtoDFA.keyOf S) (NFAtoDFA.dfaTransitions c)))
    as ->.
  { unfold NFAtoDFA.ensure_row, NFAtoDFA.ensure_row_own.
    destruct (NFAtoDFA.dfaTransitions c !! NFAtoDFA.keyOf S); [done|].
    rewrite keyOf_not_inherited; [done..|]. intros q Hq. by apply ordinary_state, HS. }
  by apply expand_all_ordinary.
Qed.

Lemma while_stack_ordinary : ∀ fuel c c',
  conv_sound nfa c → NFAtoDFA.while_stack_own fuel nfa c = Some c' →
  NFAtoDFA.while_stack fuel nfa c = Returns c'.
Proof.
  induction fuel as [|fuel IH]; intros c c' Hc; simpl;
    destruct (NFAtoDFA.stack c) as [|S rest] eqn:Hst; try done.
  - by intros [= <-].
  - by intros [= <-].
  - intros Hrun.
    destruct (cs_key _ _ Hc (NFAtoDFA.keyOf S) S) as (_ & _ & Hne & HS).
    { apply (cs_stack _ _ Hc). rewrite Hst. left. }
    rewrite pop_expand_ordinary by done. simpl.
    apply IH; [|done]. by apply pop_expand_sound.
Qed.

(** On an NFA with ordinary names the call returns what the loop on own
    properties computes. *)
Lemma nfaToDfa_ordinary : NFAtoDFA.nfaToDfa nfa = NFAtoDFA.nfaToDfa_own nfa.
Proof.
  destruct (nfaToDfa_terminates nfa) as (c & Hown & _ & _ & Hrun).
  rewrite Hown. unfold NFAtoDFA.nfaToDfa, NFAtoDFA.nfaToDfa_outcome, NFAtoDFA.nfaToDfa_fuel.
  change (new_Set [start nfa]) with [start nfa].
  rewrite (while_stack_ordinary _ _ c (conv_sound_init nfa) Hrun). done.
Qed.

Lemma nfaToDfa_outcome_ordinary dfa :
  NFAtoDFA.nfaToDfa_own nfa = Some dfa → NFAtoDFA.nfaToDfa_outcome nfa = Returns dfa.
Proof.
  intros Hown. pose proof nfaToDfa_ordinary as Heq. rewrite Hown in Heq.
  unfold NFAtoDFA.nfaToDfa in Heq. by destruct (NFAtoDFA.nfaToDfa_outcome nfa); simplify_eq.
Qed.

End Ordinary.

(** A call that returns, returns what the loop on own properties computes. *)

Lemma moves_returns tr (q : ident) sym arr :
  NFAtoDFA.moves tr q sym = Returns arr → arr = moves_of tr q sym.
Proof.
  unfold NFAtoDFA.moves, moves_of.
  destruct (tr !! propKey q) as [row|]; simpl.
  - destruct (row !! sym); simpl; [by intros [= <-]|].
    by destruct (inherited sym); intros [= <-].
  - destruct (inherited (propKey q)); [by case_bool_decide|].
    by destruct (inherited sym); intros [= <-].
Qed.

Lemma collect_returns tr sym (S : list ident) : ∀ T T',
  NFAtoDFA.collect tr sym T S = Returns T' →
  T' = foldl (λ T q, set_add_all (moves_of tr q sym) T) T S.
Proof.
  induction S as [|q S IH]; intros T T'; simpl; [by intros [= <-]|].
  destruct (NFAtoDFA.moves tr q sym) as [arr| |] eqn:Hm; simpl; [|done..].
  apply moves_returns in Hm as ->. apply IH.
Qed.

Lemma expand_returns nfa (S : list ident) Skey c sym c' :
  NFAtoDFA.expand nfa S Skey c sym = Returns c' →
  c' = NFAtoDFA.expand_own nfa S Skey c sym.
Proof.
  unfold NFAtoDFA.expand, NFAtoDFA.expand_own.
  destruct (NFAtoDFA.collect (transitions nfa) sym [] S) as [T| |] eqn:HT; simpl; [|done..].
  apply collect_returns in HT. fold (move_set (transitions nfa) S sym) in HT. subst T.
  case_bool_decide; [done|].
  by destruct (negb _ && negb _); intros [= <-].
Qed.

Lemma expand_all_returns nfa (S : list ident) Skey (syms : list string) : ∀ oc c',
  foldl (λ oc sym, c' ← oc; NFAtoDFA.expand nfa S Skey c' sym) oc syms = Returns c' →
  ∃ c, oc = Returns c ∧ c' = foldl (NFAtoDFA.expand_own nfa S Skey) c syms.
Proof.
  induction syms as [|sym syms IH]; intros oc c'; simpl; [eauto|].
  intros (c1 & Hc1 & ->)%IH. destruct oc as [c| |]; simpl in Hc1; [|done..].
  apply expand_returns in Hc1 as ->. eauto.
Qed.

Lemma pop_expand_returns nfa (S : list ident) rest c c' :
  NFAtoDFA.pop_expand nfa S rest c = Returns c' →
  c' = NFAtoDFA.pop_expand_own nfa S rest c.
Proof.
  unfold NFAtoDFA.pop_expand, NFAtoDFA.pop_expand_own, NFAtoDFA.ensure_row,
    NFAtoDFA.ensure_row_own.
  destruct (NFAtoDFA.dfaTransitions c !! NFAtoDFA.keyOf S) as [row|].
  - intros (c0 & [= <-] & ->)%expand_all_returns. done.
  - destruct (inherited (NFAtoDFA.keyOf S)).
    + destruct (alphabet nfa) as [|sym syms]; [done|].
      by destruct (NFAtoDFA.collect _ _ _ _).
    + intros (c0 & [= <-] & ->)%expand_all_returns. done.
Qed.

Lemma while_stack_returns nfa : ∀ fuel c c',
  NFAtoDFA.while_stack fuel nfa c = Returns c' →
  NFAtoDFA.while_stack_own fuel nfa c = Some c'.
Proof.
  induction fuel as [|fuel IH]; intros c c'; simpl;
    destruct (NFAtoDFA.stack c) as [|S rest]; try done.
  - by intros [= <-].
  - by intros [= <-].
  - destruct (NFAtoDFA.pop_expand nfa S rest c) as [c1| |] eqn:Hpop; simpl; [|done..].
    apply pop_expand_returns in Hpop as ->. apply IH.
Qed.

Lemma nfaToDfa_own_of (nfa dfa : Automaton) :
  NFAtoDFA.nfaToDfa nfa = Some dfa → NFAtoDFA.nfaToDfa_own nfa = Some dfa.
Proof.
  unfold NFAtoDFA.nfaToDfa, NFAtoDFA.nfaToDfa_outcome, NFAtoDFA.nfaToDfa_fuel,
    NFAtoDFA.nfaToDfa_own, NFAtoDFA.nfaToDfa_fuel_own.
  cbv zeta. change (new_Set [start nfa]) with [start nfa].
  destruct (NFAtoDFA.while_stack _ nfa _) as [c| |] eqn:Hrun; [|done..].
  apply while_stack_returns in Hrun. rewrite Hrun. by intros [= <-].
Qed.

Lemma elem_of_universe (nfa : Automaton) (x : ident) :
  x ∈ NFAtoDFA.universe nfa →
  x = start nfa
  ∨ ∃ k row ch arr, transitions nfa !! k = Some row ∧ row !! ch = Some arr ∧ x ∈ arr.
Proof.
  unfold NFAtoDFA.universe. intros [->|Hx]%elem_of_cons; [by left|]. right.
  apply list_elem_of_bind in Hx as (row & Hx & Hrow).
  apply list_elem_of_fmap in Hrow as ([k row'] & -> & Hrow%elem_of_map_to_list).
  apply list_elem_of_bind in Hx as (arr & Hx & Harr).
  apply list_elem_of_fmap in Harr as ([ch arr'] & -> & Harr%elem_of_map_to_list).
  simpl in *. eauto 8.
Qed.

(** The automaton made of an NFA with ordinary names has ordinary names: a
    key of several members holds a comma, and the key of one member is its
    name. *)
Lemma ordinary_names_converted (nfa dfa : Automaton) :
  ordinary_names nfa → NFAtoDFA.nfaToDfa_own nfa = Some dfa → ordinary_names dfa.
Proof.
  intros Hord Hdfa.
  destruct (nfaToDfa_terminates nfa) as (c & Hc & Hok & Hstart & Hrun).
  rewrite Hc in Hdfa. injection Hdfa as <-.
  destruct (while_stack_sound nfa _ _ c (conv_sound_init nfa) Hrun) as (Hsound & _ & _).
  assert (∀ k, k ∈ map_keys (NFAtoDFA.statesMap c) → inherited k = false) as Hkeys.
  { intros k Hk. apply map_has_true in Hk. unfold map_has in Hk.
    apply bool_decide_eq_true in Hk as [T HT].
    destruct (cs_key _ _ Hsound k T HT) as (-> & _ & Hne & HT').
    apply keyOf_not_inherited; [done|]. intros q Hq. by apply (ordinary_state nfa Hord), HT'. }
  split; [|by destruct Hord].
  apply Forall_forall. intros x Hx.
  apply elem_of_universe in Hx as [->|(k & row & ch & arr & Hrow & Harr & Hx)]; simpl in *.
  - by apply Hkeys.
  - destruct (ok_entries _ _ Hok _ _ _ _ Hrow Harr) as [->|(k' & -> & Hk')].
    + by apply elem_of_nil in Hx.
    + apply list_elem_of_singleton in Hx as ->. by apply Hkeys.
Qed.

(** C6 at its failing input: the NFA whose one state is named [constructor],
    over the symbol [length].  The table has no row for the state, so
    [nfa.transitions["constructor"]] is the function [Object] that every
    object inherits, [Object["length"]] is the number 1, and
    [for (const t of moves)] throws a [TypeError]: [nfaToDfa] returns no
    automaton, and the click on Convert leaves the NFA in place.  A symbol
    with an inherited name ends the call in the same way. *)
Lemma nfaToDfa_throws_on_inherited_name :
  NFAtoDFA.moves (transitions constructor_nfa) (Some "constructor") "length" = Throws
  ∧ NFAtoDFA.nfaToDfa_outcome constructor_nfa = Throws
  ∧ NFAtoDFA.nfaToDfa constructor_nfa = None
  ∧ NFAtoDFA.convert_click (Some constructor_nfa) = Returns (Some constructor_nfa)
  ∧ NFAtoDFA.nfaToDfa_outcome toString_nfa = Throws
  ∧ NFAtoDFA.nfaToDfa toString_nfa = None.
Proof. by vm_compute. Qed.

(** X26. For every NFA in which no state (start state or destination) and no
    symbol has the name of an inherited property, [nfaToDfa] returns an
    automaton in which every transition entry is an array of length 0 or 1:
    every state has at most one destination per symbol. *)
Theorem nfaToDfa_deterministic (nfa : Automaton) :
  ordinary_names nfa →
  ∃ dfa, NFAtoDFA.nfaToDfa nfa = Some dfa ∧ deterministic dfa.
Proof.
  intros Hord. rewrite (nfaToDfa_ordinary nfa Hord). apply nfaToDfa_own_deterministic.
Qed.

Lemma nfaToDfa_deterministic_example :
  ∃ dfa, NFAtoDFA.nfaToDfa example_nfa = Some dfa ∧ deterministic dfa.
Proof.
  apply (nfaToDfa_deterministic example_nfa).
  split; apply (bool_decide_unpack _); vm_compute; exact I.
Defined.

(** X1. For an NFA whose start state and destinations are strings without a
    comma, and in which no state and no symbol has the name of an inherited
    property, the automaton made by [nfaToDfa] gives every input the
    verdict of the NFA. *)
Theorem nfaToDfa_equivalent_plain_names (nfa : Automaton) (w : string) :
  ordinary_names nfa → plain_names nfa →
  ∃ dfa,
    NFAtoDFA.nfaToDfa nfa = Some dfa
    ∧ accepted (NFAtoDFA.accepts nfa w) = accepted (NFAtoDFA.accepts dfa w).
Proof.
  intros Hord Hplain. rewrite (nfaToDfa_ordinary nfa Hord).
  by apply nfaToDfa_equivalent, plain_names_injective.
Qed.

Lemma nfaToDfa_equivalent_example :
  ∃ dfa,
    NFAtoDFA.nfaToDfa example_nfa = Some dfa
    ∧ accepted (NFAtoDFA.accepts example_nfa "aab")
      = accepted (NFAtoDFA.accepts dfa "aab").
Proof.
  apply (nfaToDfa_equivalent_plain_names example_nfa "aab").
  - split; apply (bool_decide_unpack _); vm_compute; exact I.
  - apply plain_names_check. apply (bool_decide_unpack _). vm_compute. exact I.
Defined.

(** X8. On an NFA in which no state and no symbol has the name of an
    inherited property, [nfaToDfa] returns, and converting its result again
    returns the same automaton: same states in the same order, same start
    state, same accept states and same transitions.  A second click on
    Convert leaves the automaton as the first click made it. *)
Theorem convert_twice (nfa : Automaton) :
  ordinary_names nfa →
  ∃ dfa,
    NFAtoDFA.nfaToDfa nfa = Some dfa
    ∧ NFAtoDFA.nfaToDfa dfa = Some dfa
    ∧ NFAtoDFA.convert_click (Some nfa) = Returns (Some dfa)
    ∧ NFAtoDFA.convert_click (Some dfa) = Returns (Some dfa).
Proof.
  intros Hord. destruct (nfaToDfa_twice nfa) as (dfa & H1 & H2). exists dfa.
  pose proof (ordinary_names_converted nfa dfa Hord H1) as Hord'.
  rewrite (nfaToDfa_ordinary nfa Hord), (nfaToDfa_ordinary dfa Hord').
  unfold NFAtoDFA.convert_click.
  rewrite (nfaToDfa_outcome_ordinary nfa Hord dfa H1).
  rewrite (nfaToDfa_outcome_ordinary dfa Hord' dfa H2). done.
Qed.

Lemma convert_twice_example :
  ∃ dfa,
    NFAtoDFA.nfaToDfa example_nfa = Some dfa
    ∧ NFAtoDFA.nfaToDfa dfa = Some dfa
    ∧ NFAtoDFA.convert_click (Some example_nfa) = Returns (Some dfa)
    ∧ NFAtoDFA.convert_click (Some dfa) = Returns (Some dfa).
Proof.
  apply (convert_twice example_nfa).
  split; apply (bool_decide_unpack _); vm_compute; exact I.
Defined.

(** X9. On an NFA in which no state and no symbol has the name of an
    inherited property, the states of the automaton made by [nfaToDfa] are
    pairwise different, and there are at most [2 ^ n] of them, where [n]
    counts the different identifiers among the start state and the
    destinations of the NFA. *)
Theorem nfaToDfa_state_bound (nfa : Automaton) :
  ordinary_names nfa →
  ∃ dfa,
    NFAtoDFA.nfaToDfa nfa = Some dfa
    ∧ NoDup (states dfa)
    ∧ length (states dfa) ≤ 2 ^ length (remove_dups (NFAtoDFA.universe nfa)).
Proof.
  intros Hord. rewrite (nfaToDfa_ordinary nfa Hord). apply nfaToDfa_own_state_bound.
Qed.

Lemma nfaToDfa_state_bound_example :
  ∃ dfa,
    NFAtoDFA.nfaToDfa example_nfa = Some dfa
    ∧ NoDup (states dfa)
    ∧ length (states dfa) ≤ 2 ^ length (remove_dups (NFAtoDFA.universe example_nfa)).
Proof.
  apply (nfaToDfa_state_bound example_nfa).
  split; apply (bool_decide_unpack _); vm_compute; exact I.
Defined.

(** X10. On an NFA in which no state and no symbol has the name of an
    inherited property, the transition table of the automaton made by
    [nfaToDfa] is total: it has a row for every state and for nothing else,
    and every row has an entry for every symbol of the alphabet and for
    nothing else.  The alphabet is that of the NFA. *)
Theorem nfaToDfa_table_total (nfa : Automaton) :
  ordinary_names nfa →
  ∃ dfa,
    NFAtoDFA.nfaToDfa nfa = Some dfa
    ∧ alphabet dfa = alphabet nfa
    ∧ (∀ s, is_Some (transitions dfa !! s) ↔ s ∈ states dfa)
    ∧ (∀ s row sym, transitions dfa !! s = Some row →
         (is_Some (row !! sym) ↔ sym ∈ alphabet dfa)).
Proof.
  intros Hord. rewrite (nfaToDfa_ordinary nfa Hord). apply nfaToDfa_own_table_total.
Qed.

Lemma nfaToDfa_table_total_example :
  ∃ dfa,
    NFAtoDFA.nfaToDfa example_nfa = Some dfa
    ∧ alphabet dfa = alphabet example_nfa
    ∧ (∀ s, is_Some (transitions dfa !! s) ↔ s ∈ states dfa)
    ∧ (∀ s row sym, transitions dfa !! s = Some row →
         (is_Some (row !! sym) ↔ sym ∈ alphabet dfa)).
Proof.
  apply (nfaToDfa_table_total example_nfa).
  split; apply (bool_decide_unpack _); vm_compute; exact I.
Defined.

(** X11. On an NFA in which no state and no symbol has the name of an
    inherited property, every state of the automaton made by [nfaToDfa] is
    reached from its start state by a string over the alphabet. *)
Theorem nfaToDfa_states_reachable (nfa : Automaton) :
  ordinary_names nfa →
  ∃ dfa,
    NFAtoDFA.nfaToDfa nfa = Some dfa
    ∧ ∀ s, s ∈ states dfa →
        ∃ w, (∀ ch, ch ∈ w → ch ∈ alphabet dfa)
             ∧ nfa_path (transitions dfa) (start dfa) w (Some s).
Proof.
  intros Hord. rewrite (nfaToDfa_ordinary nfa Hord). apply nfaToDfa_own_states_reachable.
Qed.

Lemma nfaToDfa_states_reachable_example :
  ∃ dfa,
    NFAtoDFA.nfaToDfa example_nfa = Some dfa
    ∧ ∀ s, s ∈ states dfa →
        ∃ w, (∀ ch, ch ∈ w → ch ∈ alphabet dfa)
             ∧ nfa_path (transitions dfa) (start dfa) w (Some s).
Proof.
  apply (nfaToDfa_states_reachable example_nfa).
  split; apply (bool_decide_unpack _); vm_compute; exact I.
Defined.

(** X25. On a deterministic automaton whose start state and destinations
    are strings, none of them and no symbol with the name of an inherited
    property, the automaton made by [nfaToDfa] gives every input the verdict
    of the automaton, commas in the names or not. *)
Theorem nfaToDfa_equivalent_deterministic (nfa : Automaton) (w : string) :
  ordinary_names nfa → deterministic nfa → string_names nfa →
  ∃ dfa,
    NFAtoDFA.nfaToDfa nfa = Some dfa
    ∧ accepted (NFAtoDFA.accepts nfa w) = accepted (NFAtoDFA.accepts dfa w).
Proof.
  intros Hord Hdet Hnames. rewrite (nfaToDfa_ordinary nfa Hord).
  by apply nfaToDfa_own_equivalent_deterministic.
Qed.

Lemma nfaToDfa_equivalent_deterministic_example :
  ∃ dfa,
    NFAtoDFA.nfaToDfa example_dfa = Some dfa
    ∧ accepted (NFAtoDFA.accepts example_dfa "aba")
      = accepted (NFAtoDFA.accepts dfa "aba").
Proof.
  apply (nfaToDfa_equivalent_deterministic example_dfa "aba").
  - split; apply (bool_decide_unpack _); vm_compute; exact I.
  - apply deterministic_map_Forall. apply (bool_decide_unpack _). vm_compute. exact I.
  - apply string_names_check. apply (bool_decide_unpack _). vm_compute. exact I.
Defined.

(** X24. For an NFA whose start state and destinations are strings without a
    comma, and in which no state and no symbol has the name of an inherited
    property, the tester shows the same verdict for every input before and
    after a click on Convert: it tests the input without the white space
    around it. *)
Theorem convert_keeps_verdicts (nfa : Automaton) (value : string) :
  ordinary_names nfa → plain_names nfa →
  ∃ dfa r r',
    NFAtoDFA.test_click (Some nfa) value = Some r
    ∧ NFAtoDFA.convert_click (Some nfa) = Returns (Some dfa)
    ∧ NFAtoDFA.test_click (Some dfa) value = Some r'
    ∧ accepted r = accepted r'
    ∧ r = NFAtoDFA.accepts nfa (trim value).
Proof.
  intros Hord Hplain.
  destruct (nfaToDfa_equivalent nfa (trim value) (plain_names_injective nfa Hplain))
    as (dfa & Hdfa & Heq).
  exists dfa. eexists _, _. split; [done|]. split_and!; [|done|exact Heq|done].
  unfold NFAtoDFA.convert_click. by rewrite (nfaToDfa_outcome_ordinary nfa Hord dfa Hdfa).
Qed.

Lemma convert_keeps_verdicts_example :
  ∃ dfa r r',
    NFAtoDFA.test_click (Some example_nfa) " aab " = Some r
    ∧ NFAtoDFA.convert_click (Some example_nfa) = Returns (Some dfa)
    ∧ NFAtoDFA.test_click (Some dfa) " aab " = Some r'
    ∧ accepted r = accepted r'
    ∧ r = NFAtoDFA.accepts example_nfa (trim " aab ").
Proof.
  apply (convert_keeps_verdicts example_nfa " aab ").
  - split; apply (bool_decide_unpack _); vm_compute; exact I.
  - apply plain_names_check. apply (bool_decide_unpack _). vm_compute. exact I.
Defined.

(** ** The calls of [minimizeAcyclicDFA] that meet no key [__proto__] *)

Lemma new_transitions_stuck dfa (m2r : gmap string ident) (ss : list string) :
  foldl (λ (ont : outcome (gmap string (gmap string (list ident)))) s,
           nt ← ont;
           let edges := default ∅ (transitions dfa !! s) in
           if bool_decide (s = "__proto__") || bool_decide (is_Some (edges !! "__proto__"))
           then Unmodelled
           else Returns (<[s := (λ arr, [DAFSA.rep_of m2r (DAFSA.first_dest arr)]) <$> edges]> nt))
        Unmodelled ss = Unmodelled.
Proof. induction ss as [|s ss IH]; simpl; [done|apply IH]. Qed.

Lemma new_transitions_spec dfa (m2r : gmap string ident) (ss : list string) :
  DAFSA.new_transitions dfa m2r ss
  = if bool_decide (Forall (λ s, s ≠ "__proto__"
                                 ∧ default ∅ (transitions dfa !! s) !! "__proto__" = None) ss)
    then Returns (DAFSA.new_transitions_own dfa m2r ss)
    else Unmodelled.
Proof.
  unfold DAFSA.new_transitions, DAFSA.new_transitions_own.
  generalize (∅ : gmap string (gmap string (list ident))).
  induction ss as [|s ss IH]; intros acc; cbn [foldl]; [done|].
  destruct (decide (s = "__proto__")) as [->|Hs].
  - cbn [mbind outcome_bind]. rewrite (bool_decide_eq_true_2 ("__proto__" = "__proto__")) by done.
    cbn [orb]. rewrite new_transitions_stuck.
    rewrite bool_decide_eq_false_2; [done|]. intros [[? _] _]%Forall_cons. done.
  - cbn [mbind outcome_bind].
    rewrite (bool_decide_eq_false_2 (s = "__proto__")) by done. cbn [orb].
    destruct (default ∅ (transitions dfa !! s) !! "__proto__") as [arr|] eqn:Hp.
    + rewrite (bool_decide_eq_true_2 (is_Some _)) by eauto. rewrite new_transitions_stuck.
      rewrite bool_decide_eq_false_2; [done|]. intros [[_ ?] _]%Forall_cons. congruence.
    + rewrite (bool_decide_eq_false_2 (is_Some _)) by (by intros [? ?]).
      rewrite IH. symmetry. erewrite bool_decide_ext; [done|].
      rewrite Forall_cons. naive_solver.
Qed.

(** A result of the call is the result on own properties. *)
Lemma minimize_fuel_own_of fuel (D M : Automaton) :
  DAFSA.minimize_fuel fuel D = Some M → DAFSA.minimize_fuel_own fuel D = Some M.
Proof.
  unfold DAFSA.minimize_fuel, DAFSA.minimize_fuel_own.
  destruct (DAFSA.sig_all fuel D (states D) ∅) as [memo|]; simpl; [|done].
  destruct (foldl (DAFSA.assign_rep memo) ([], ∅) (states D)) as [rep m2r].
  rewrite new_transitions_spec. by case_bool_decide.
Qed.

Lemma minimizeAcyclicDFA_own_of (D M : Automaton) :
  DAFSA.minimizeAcyclicDFA D M → DAFSA.minimizeAcyclicDFA_own D M.
Proof. intros [fuel H]. exists fuel. by apply minimize_fuel_own_of. Qed.

Lemma proto_free_row (D : Automaton) s :
  proto_free D → default ∅ (transitions D !! s) !! "__proto__" = None.
Proof.
  intros [_ Hrows]. destruct (transitions D !! s) as [row|] eqn:Hrow; simpl; [|done].
  by apply (Hrows s row).
Qed.

(** Without the key [__proto__] the call returns the result on own
    properties. *)
Lemma minimizeAcyclicDFA_of_own (D M : Automaton) :
  proto_free D → DAFSA.minimizeAcyclicDFA_own D M → DAFSA.minimizeAcyclicDFA D M.
Proof.
  intros Hfree HM. destruct (minimize_states_bound D M HM) as (Hsub & _ & _).
  destruct HM as [fuel HM]. exists fuel. revert HM Hsub.
  unfold DAFSA.minimize_fuel, DAFSA.minimize_fuel_own.
  destruct (DAFSA.sig_all fuel D (states D) ∅) as [memo|]; simpl; [|done].
  destruct (foldl (DAFSA.assign_rep memo) ([], ∅) (states D)) as [rep m2r].
  intros [= <-]. simpl. intros Hsub.
  rewrite new_transitions_spec. rewrite bool_decide_eq_true_2; [done|].
  apply Forall_forall. intros s Hs. split.
  - intros ->. destruct Hfree as [Hno _]. apply Hno. by apply Hsub.
  - by apply proto_free_row.
Qed.

Lemma minimized_proto_free (D M : Automaton) :
  proto_free D → DAFSA.minimizeAcyclicDFA_own D M → proto_free M.
Proof.
  intros Hfree HM. destruct (minimize_states_bound D M HM) as (Hsub & _ & _).
  destruct (minimize_own_shape D M HM) as (_ & _ & _ & _ & _ & _ & Hrows & _).
  split.
  - intros Hin. destruct Hfree as [Hno _]. apply Hno. by apply Hsub.
  - intros s row Hrow. destruct (row !! "__proto__") as [arr|] eqn:Hp; [|done].
    destruct (proj1 (Hrows s row "__proto__" Hrow)) as [arr' Harr']; [by rewrite Hp|].
    pose proof (proto_free_row D s Hfree) as Hnone.
    destruct (transitions D !! s) as [row'|]; simpl in *; congruence.
Qed.

Lemma chars_single (s ch : string) : ch ∈ chars s → String.length ch = 1.
Proof.
  induction s as [|c s IH]; simpl; [by intros ?%elem_of_nil|].
  intros [->|?]%elem_of_cons; [done|auto].
Qed.

(** The states of a trie are named [q0], [q1], ... and its symbols are
    single characters. *)
Lemma trie_proto_free (L : DAFSA.language) (D : Automaton) :
  DAFSA.lang_alphabet L ≠ [] →
  (∀ w ch, w ∈ DAFSA.lang_accept L → ch ∈ chars w → ch ∈ DAFSA.lang_alphabet L) →
  DAFSA.buildTrieDFA L = inr D → proto_free D.
Proof.
  intros Hne Hwords HD.
  destruct (buildTrieDFA_reached L Hne Hwords)
    as (label & t & D' & HD' & Hinv & _ & Hreach & Hst & _ & _ & Htr).
  assert (D' = D) as -> by congruence. split.
  - rewrite Hst, (ti_keys _ _ Hinv). intros (k & _ & Hk)%elem_of_newIds. discriminate.
  - intros s row. rewrite Htr, (trie_lookup _ _ _ Hinv).
    destruct (map_get s (DAFSA.nodes t)) as [n|] eqn:Hn; simpl; [|done].
    intros [= <-]. rewrite lookup_fmap.
    destruct (DAFSA.edges n !! "__proto__") as [j|] eqn:Hj; simpl; [|done].
    destruct (ti_edge _ _ Hinv _ _ _ _ Hn Hj) as [(k & Hk & ->) Hlabel].
    destruct (Hreach (DAFSA.newId k)) as (p & Hwalk & Hp).
    { apply (trie_inv_has _ _ _ Hinv). eauto. }
    apply (walk_label _ _ _ _ _ Hinv) in Hwalk.
    rewrite (ti_root _ _ Hinv), Hlabel in Hwalk. simpl in Hwalk. subst p.
    destruct Hp as [Hnil|(w & _ & Hpre)].
    + by destruct (label s).
    + assert ("__proto__" ∈ chars w) as Hin.
      { destruct Hpre as [r ->]. apply elem_of_app. left. apply elem_of_app. right. left. }
      by apply chars_single in Hin.
Qed.

Lemma proto_free_check (a : Automaton) :
  bool_decide ("__proto__" ∉ states a)
  && bool_decide (map_Forall (λ _ row, row !! "__proto__" = (None : option (list ident)))
                    (transitions a)) = true →
  proto_free a.
Proof.
  intros [H1%bool_decide_eq_true H2%bool_decide_eq_true]%andb_true_iff. by split.
Qed.

(** C8, amended. Minimising a second time keeps the number of states (and the
    states themselves), for every acyclic automaton whose destinations (the
    first element of each transition entry, the only one the minimiser reads)
    are members of [states], which has no row under the key ["undefined"] if
    one of its entries has no destination, and in which no state and no
    symbol of a row is named [__proto__].  Both calls return. *)
Theorem minimize_idempotent (D : Automaton) :
  dests_in_states D → missing_dest_is_dead D → acyclic D → proto_free D →
  ∃ M M',
    DAFSA.minimizeAcyclicDFA D M
    ∧ DAFSA.minimizeAcyclicDFA M M'
    ∧ length (states M') = length (states M)
    ∧ states M' = states M
    ∧ ∀ N N', DAFSA.minimizeAcyclicDFA D N → DAFSA.minimizeAcyclicDFA N N' →
              length (states N') = length (states N).
Proof.
  intros Hdests Hdead Hacyc Hfree.
  destruct (minimize_own_idempotent D Hdests Hdead Hacyc)
    as (M & M' & HM & HM' & Hlen & Hstates & Hall).
  exists M, M'. split_and!; [| |done..|].
  - by apply minimizeAcyclicDFA_of_own.
  - apply minimizeAcyclicDFA_of_own; [|done]. by apply (minimized_proto_free D).
  - intros N N' HN%minimizeAcyclicDFA_own_of HN'%minimizeAcyclicDFA_own_of.
    by apply Hall.
Qed.

Lemma minimize_idempotent_example :
  ∃ M M',
    DAFSA.minimizeAcyclicDFA example_trie M
    ∧ DAFSA.minimizeAcyclicDFA M M'
    ∧ length (states M') = length (states M)
    ∧ states M' = states M
    ∧ ∀ N N', DAFSA.minimizeAcyclicDFA example_trie N → DAFSA.minimizeAcyclicDFA N N' →
              length (states N') = length (states N).
Proof.
  apply (minimize_idempotent example_trie).
  - apply dests_in_states_check. apply (bool_decide_unpack _). vm_compute. exact I.
  - intros s row ch arr _ _ _. reflexivity.
  - exists example_rank. apply example_trie_ranked.
  - apply proto_free_check. vm_compute. reflexivity.
Defined.

(** C10, amended. The automaton returned by [nfaToDfa] (on an NFA in which
    no state and no symbol has the name of an inherited property), by
    [buildTrieDFA] (on a language that passes its checks) and by
    [minimizeAcyclicDFA] (on an acyclic automaton that itself has referential
    integrity and no empty transition entry, and in which no state and no
    symbol of a row is named [__proto__]) has its start state among its
    states, its accept states among its states, and the source and every
    destination of its transitions among its states. *)
Theorem constructed_automata_integrity :
  (∀ nfa, ordinary_names nfa →
     ∃ dfa, NFAtoDFA.nfaToDfa nfa = Some dfa ∧ referential_integrity dfa)
  ∧ (∀ L,
       DAFSA.lang_alphabet L ≠ [] →
       (∀ w ch, w ∈ DAFSA.lang_accept L → ch ∈ chars w → ch ∈ DAFSA.lang_alphabet L) →
       ∃ dfa, DAFSA.buildTrieDFA L = inr dfa ∧ referential_integrity dfa)
  ∧ (∀ D,
       referential_integrity D → no_empty_entry D → acyclic D → proto_free D →
       ∃ M, DAFSA.minimizeAcyclicDFA D M ∧ referential_integrity M).
Proof.
  split_and!.
  - intros nfa Hord. rewrite (nfaToDfa_ordinary nfa Hord). apply nfaToDfa_integrity.
  - apply buildTrieDFA_integrity.
  - intros D Hint Hne Hacyc Hfree.
    destruct (minimize_integrity D Hint Hne Hacyc) as (M & HM & HintM).
    exists M. split; [by apply minimizeAcyclicDFA_of_own|done].
Qed.

Lemma constructed_automata_integrity_example :
  (∃ dfa, NFAtoDFA.nfaToDfa example_nfa = Some dfa ∧ referential_integrity dfa)
  ∧ (∃ dfa, DAFSA.buildTrieDFA example_language = inr dfa ∧ referential_integrity dfa)
  ∧ (∃ M, DAFSA.minimizeAcyclicDFA example_trie M ∧ referential_integrity M).
Proof.
  destruct constructed_automata_integrity as (Hnfa & Htrie & Hmin). split_and!.
  - apply Hnfa. split; apply (bool_decide_unpack _); vm_compute; exact I.
  - apply Htrie.
    + discriminate.
    + apply words_over_alphabet. apply (bool_decide_unpack _). vm_compute. exact I.
  - apply Hmin.
    + apply referential_integrity_check.
      * exists "q0". split; [done|]. apply (bool_decide_unpack _). vm_compute. exact I.
      * apply (bool_decide_unpack _). vm_compute. exact I.
      * apply (bool_decide_unpack _). vm_compute. exact I.
    + apply no_empty_entry_check. apply (bool_decide_unpack _). vm_compute. exact I.
    + exists example_rank. apply example_trie_ranked.
    + apply proto_free_check. vm_compute. reflexivity.
Defined.

(** X14. For every acyclic automaton whose destinations are members of
    [states], which has no row under the key ["undefined"] if one of its
    entries has no destination, and in which no state and no symbol of a row
    is named [__proto__], [minimizeAcyclicDFA] returns, and called on its
    result it returns that result unchanged: same states, start state, accept
    states and transitions. *)
Theorem minimize_fixpoint (D : Automaton) :
  dests_in_states D → missing_dest_is_dead D → acyclic D → proto_free D →
  (∃ M, DAFSA.minimizeAcyclicDFA D M)
  ∧ ∀ M, DAFSA.minimizeAcyclicDFA D M → DAFSA.minimizeAcyclicDFA M M.
Proof.
  intros Hdests Hdead Hacyc Hfree.
  destruct (minimize_own_fixpoint D Hdests Hdead Hacyc) as [[M HM] Hfix]. split.
  - exists M. by apply minimizeAcyclicDFA_of_own.
  - intros N HN%minimizeAcyclicDFA_own_of.
    apply minimizeAcyclicDFA_of_own; [by apply (minimized_proto_free D)|by apply Hfix].
Qed.

Lemma minimize_fixpoint_example :
  (∃ M, DAFSA.minimizeAcyclicDFA example_trie M)
  ∧ ∀ M, DAFSA.minimizeAcyclicDFA example_trie M → DAFSA.minimizeAcyclicDFA M M.
Proof.
  apply (minimize_fixpoint example_trie).
  - apply dests_in_states_check. apply (bool_decide_unpack _). vm_compute. exact I.
  - intros s row ch arr _ _ _. reflexivity.
  - exists example_rank. apply example_trie_ranked.
  - apply proto_free_check. vm_compute. reflexivity.
Defined.

(** X16. For every automaton in which no state and no symbol of a row is
    named [__proto__], the result of [minimizeAcyclicDFA] has the same
    alphabet, its states are states of the source, each listed once (so there
    are no more of them), its accept states are its states that the source
    accepts, it has a row for each of its states and for nothing else, with
    the symbols of the source row, and every entry holds exactly one
    destination. *)
Theorem minimize_shape (D M : Automaton) :
  proto_free D → DAFSA.minimizeAcyclicDFA D M →
  alphabet M = alphabet D
  ∧ NoDup (states M)
  ∧ (∀ s, s ∈ states M → s ∈ states D)
  ∧ length (states M) ≤ length (states D)
  ∧ (∀ s, s ∈ accept M ↔ s ∈ states M ∧ s ∈ accept D)
  ∧ (∀ s, is_Some (transitions M !! s) ↔ s ∈ states M)
  ∧ (∀ s row a, transitions M !! s = Some row →
       (is_Some (row !! a) ↔ is_Some (transitions D !! s ≫= (.!! a))))
  ∧ (∀ s row a arr, transitions M !! s = Some row → row !! a = Some arr →
       length arr = 1).
Proof. intros _ HM%minimizeAcyclicDFA_own_of. by apply minimize_own_shape. Qed.

Lemma minimize_shape_example :
  ∃ M,
    DAFSA.minimizeAcyclicDFA example_trie M
    ∧ alphabet M = alphabet example_trie
    ∧ NoDup (states M)
    ∧ (∀ s, s ∈ states M → s ∈ states example_trie)
    ∧ length (states M) ≤ length (states example_trie)
    ∧ (∀ s, s ∈ accept M ↔ s ∈ states M ∧ s ∈ accept example_trie)
    ∧ (∀ s, is_Some (transitions M !! s) ↔ s ∈ states M)
    ∧ (∀ s row a, transitions M !! s = Some row →
         (is_Some (row !! a) ↔ is_Some (transitions example_trie !! s ≫= (.!! a))))
    ∧ (∀ s row a arr, transitions M !! s = Some row → row !! a = Some arr →
         length arr = 1).
Proof.
  eexists. split; [exists 5; vm_compute; reflexivity|].
  apply (minimize_shape example_trie).
  - apply proto_free_check. vm_compute. reflexivity.
  - exists 5. vm_compute. reflexivity.
Defined.

(** X7. For every language that passes the checks of [buildTrieDFA], the
    trie automaton is deterministic, acyclic, refers to its own states only
    and has no empty entry; [minimizeAcyclicDFA] returns on it, the result
    refers to its own states only and keeps a subset of the states of the
    trie (so no more of them), and minimising the result again returns an
    automaton with the same states. *)
Theorem trie_then_minimize (L : DAFSA.language) :
  DAFSA.lang_alphabet L ≠ [] →
  (∀ w ch, w ∈ DAFSA.lang_accept L → ch ∈ chars w → ch ∈ DAFSA.lang_alphabet L) →
  ∃ D M M',
    DAFSA.buildTrieDFA L = inr D
    ∧ deterministic D ∧ acyclic D ∧ referential_integrity D ∧ no_empty_entry D
    ∧ DAFSA.minimizeAcyclicDFA D M
    ∧ referential_integrity M
    ∧ states M ⊆ states D
    ∧ length (states M) ≤ length (states D)
    ∧ DAFSA.minimizeAcyclicDFA M M'
    ∧ states M' = states M.
Proof.
  intros Hne Hwords.
  destruct (trie_then_minimize_own L Hne Hwords)
    as (D & M & M' & HD & Hdet & Hacyc & Hint & Hnoempty & HM & HintM & Hsub & Hlen
        & HM' & Hstates).
  pose proof (trie_proto_free L D Hne Hwords HD) as Hfree.
  exists D, M, M'. split_and!; try done.
  - by apply minimizeAcyclicDFA_of_own.
  - apply minimizeAcyclicDFA_of_own; [|done]. by apply (minimized_proto_free D).
Qed.

Lemma trie_then_minimize_example :
  ∃ D M M',
    DAFSA.buildTrieDFA example_language = inr D
    ∧ deterministic D ∧ acyclic D ∧ referential_integrity D ∧ no_empty_entry D
    ∧ DAFSA.minimizeAcyclicDFA D M
    ∧ referential_integrity M
    ∧ states M ⊆ states D
    ∧ length (states M) ≤ length (states D)
    ∧ DAFSA.minimizeAcyclicDFA M M'
    ∧ states M' = states M.
Proof.
  apply trie_then_minimize.
  - discriminate.
  - apply words_over_alphabet. apply (bool_decide_unpack _). vm_compute. exact I.
Defined.


(** X15. [minimizeAcyclicDFA] does not return on an automaton in which a
    member of [states] reaches a cycle along first destinations: [sig] calls
    itself without end, whatever the depth allowed. *)
Theorem minimize_cyclic_no_result (dfa : Automaton) (s : string) :
  s ∈ states dfa → reaches_cycle dfa (Some s) →
  ∀ M, ¬ DAFSA.minimizeAcyclicDFA dfa M.
Proof.
  intros Hs Hcycle M HM%minimizeAcyclicDFA_own_of.
  by apply (minimize_own_cyclic_no_result dfa s Hs Hcycle M).
Qed.

Lemma minimize_cyclic_example :
  "q1" ∈ states example_dfa ∧ reaches_cycle example_dfa (Some "q1")
  ∧ ∀ M, ¬ DAFSA.minimizeAcyclicDFA example_dfa M.
Proof.
  assert (reaches_cycle example_dfa (Some "q1")) as Hcycle.
  { exists (Some "q1"). split; [done|]. apply tc_once.
    exists {[ "a" := [Some "q1,q2"]; "b" := [Some "q1"] ]}, "b", [Some "q1"].
    split_and!; reflexivity. }
  split_and!; [left|done|].
  apply (minimize_cyclic_no_result example_dfa "q1"); [left|done].
Defined.


(** X23. The nodes that [buildNodes] makes of a trie automaton, and of the
    result of minimising it, have pairwise different ids: the states of a trie
    are listed once and none is named [__start].  The trie has one node per
    state and the start marker. *)
Theorem trie_nodes_distinct (L : DAFSA.language) :
  DAFSA.lang_alphabet L ≠ [] →
  (∀ w ch, w ∈ DAFSA.lang_accept L → ch ∈ chars w → ch ∈ DAFSA.lang_alphabet L) →
  ∃ D,
    DAFSA.buildTrieDFA L = inr D
    ∧ NoDup (vis_id <$> DAFSA.buildNodes D)
    ∧ length (DAFSA.buildNodes D) = S (length (states D))
    ∧ ∀ M, DAFSA.minimizeAcyclicDFA D M → NoDup (vis_id <$> DAFSA.buildNodes M).
Proof.
  intros Hne Hwords.
  destruct (trie_nodes_distinct_own L Hne Hwords) as (D & HD & Hnd & Hlen & Hmin).
  exists D. split_and!; [done..|]. intros M HM%minimizeAcyclicDFA_own_of. by apply Hmin.
Qed.

Lemma trie_nodes_distinct_example :
  ∃ D,
    DAFSA.buildTrieDFA example_language = inr D
    ∧ NoDup (vis_id <$> DAFSA.buildNodes D)
    ∧ length (DAFSA.buildNodes D) = S (length (states D))
    ∧ ∀ M, DAFSA.minimizeAcyclicDFA D M → NoDup (vis_id <$> DAFSA.buildNodes M).
Proof.
  apply (trie_nodes_distinct example_language).
  - discriminate.
  - apply words_over_alphabet. apply (bool_decide_unpack _). vm_compute. exact I.
Defined.


(** X20. After the load of a language whose alphabet is not empty and whose
    words use alphabet symbols only, a click on Minimize returns and replaces
    the current automaton by the minimised one; the original automaton stays
    the trie and the start state keeps its name.  A second click returns and
    changes nothing. *)
Theorem minimize_click_twice (p : DAFSA.page) (L : DAFSA.language) :
  DAFSA.lang_alphabet L ≠ [] →
  (∀ w ch, w ∈ DAFSA.lang_accept L → ch ∈ chars w → ch ∈ DAFSA.lang_alphabet L) →
  ∃ D M,
    let loaded := {| DAFSA.currentDFA := Some D; DAFSA.originalDFA := Some D;
                     DAFSA.controls := true |} in
    let minimal := {| DAFSA.currentDFA := Some M; DAFSA.originalDFA := Some D;
                      DAFSA.controls := true |} in
    DAFSA.load_click p L = (loaded, None)
    ∧ DAFSA.minimize_click loaded minimal
    ∧ DAFSA.minimize_click minimal minimal
    ∧ (∀ p1, DAFSA.minimize_click loaded p1 → p1 = minimal)
    ∧ (∀ p2, DAFSA.minimize_click minimal p2 → p2 = minimal)
    ∧ start M = start D.
Proof.
  intros Hne Hwords.
  destruct (buildTrieDFA_well_formed L Hne Hwords) as (D & HD & _ & Hnoempty & Hrank).
  destruct (buildTrieDFA_integrity L Hne Hwords) as (D' & HD' & Hint).
  assert (D' = D) as -> by congruence.
  destruct (buildTrieDFA_built L Hne Hwords)
    as (label & t & D' & HD'' & Hinv & _ & _ & Hst & Hstart & _).
  assert (D' = D) as -> by congruence.
  destruct (integrity_dests D Hint Hnoempty) as [Hdests Hdead].
  destruct (minimize_returns_fixed D Hdests Hdead) as (M & HM & Hfix);
    [by exists (rank_in (states D))|].
  pose proof (trie_proto_free L D Hne Hwords HD) as Hfree.
  pose proof (minimized_proto_free D M Hfree HM) as HfreeM.
  exists D, M. unfold DAFSA.load_click, DAFSA.minimize_click. rewrite HD. simpl.
  split_and!.
  - done.
  - exists M. split; [by apply minimizeAcyclicDFA_of_own|done].
  - exists M. split; [by apply minimizeAcyclicDFA_of_own|done].
  - intros p1 (M1 & HM1%minimizeAcyclicDFA_own_of & ->).
    by rewrite (minimizeAcyclicDFA_unique D _ _ HM1 HM).
  - intros p2 (M2 & HM2%minimizeAcyclicDFA_own_of & ->).
    by rewrite (minimizeAcyclicDFA_unique M _ _ HM2 Hfix).
  - rewrite Hstart. pose proof (ti_keys _ _ Hinv) as Hkeys.
    pose proof (ti_pos _ _ Hinv) as Hpos.
    destruct (DAFSA.nextId t) as [|n]; [lia|]. simpl in Hkeys.
    eapply minimize_start; [|done..]. rewrite Hst, Hkeys. done.
Qed.


Lemma minimize_click_twice_example :
  ∃ D M,
    let loaded := {| DAFSA.currentDFA := Some D; DAFSA.originalDFA := Some D;
                     DAFSA.controls := true |} in
    let minimal := {| DAFSA.currentDFA := Some M; DAFSA.originalDFA := Some D;
                      DAFSA.controls := true |} in
    DAFSA.load_click
      {| DAFSA.currentDFA := None; DAFSA.originalDFA := None; DAFSA.controls := false |}
      example_language = (loaded, None)
    ∧ DAFSA.minimize_click loaded minimal
    ∧ DAFSA.minimize_click minimal minimal
    ∧ (∀ p1, DAFSA.minimize_click loaded p1 → p1 = minimal)
    ∧ (∀ p2, DAFSA.minimize_click minimal p2 → p2 = minimal)
    ∧ start M = start D.
Proof.
  apply (minimize_click_twice _ example_language).
  - discriminate.
  - apply words_over_alphabet. apply (bool_decide_unpack _). vm_compute. exact I.
Defined.
